(** * goldmark [util]: byte scanning, reference resolution and escaping

    A shallow embedding of [util/util.go].  Go byte slices are lists of
    bytes, Go [int]s are unbounded integers (no index of these functions
    leaves the range of a 64-bit [int] on a slice that fits in memory), and
    a run-time panic (an index or a slice bound out of range) is an explicit
    outcome of the computation. *)

From Stdlib Require Import Strings.Byte Strings.String.
From Stdlib Require Import ZArith List Lia Bool Permutation Sorted.
Import ListNotations.
Local Open Scope Z_scope.

(** ** Outcomes of a Go call *)

(** [Ok a]: the call returns [a].  [Panic]: the Go runtime panics.
    [OutOfFuel]: the iteration bound handed to a loop was too small.  Every
    loop below is given one iteration more than its slice has bytes, which
    it never exhausts (section "Iteration bounds"). *)
Inductive result (A : Type) : Type :=
| Ok (a : A)
| Panic
| OutOfFuel.
Arguments Ok {A} a.
Arguments Panic {A}.
Arguments OutOfFuel {A}.

Definition bind {A B : Type} (r : result A) (k : A -> result B) : result B :=
  match r with
  | Ok a => k a
  | Panic => Panic
  | OutOfFuel => OutOfFuel
  end.

Notation "x <- e ;; k" := (bind e (fun x => k))
  (at level 61, e at next level, right associativity).
Notation "' p <- e ;; k" := (bind e (fun x => let p := x in k))
  (at level 61, p pattern, e at next level, right associativity).

(** [r] did not run out of fuel, and what it returned satisfies [P]. *)
Definition within_fuel {A : Type} (P : A -> Prop) (r : result A) : Prop :=
  match r with
  | Ok a => P a
  | Panic => True
  | OutOfFuel => False
  end.

(** Go's [a && f()] where evaluating [f()] may panic: the right operand is
    only evaluated when the left one holds. *)
Definition and_then (a : bool) (rb : result bool) : result bool :=
  if a then rb else Ok false.
Infix "&&>" := and_then (at level 40, left associativity).

(** ** Byte slices *)

Definition bytes := list byte.

Definition bytes_of (s : string) : bytes := list_byte_of_string s.

(** The numeric value of a byte. *)
Definition code (c : byte) : Z := Z.of_N (Byte.to_N c).

Definition len {A : Type} (b : list A) : Z := Z.of_nat (length b).

(** [b[i]]: panics outside [0 <= i < len(b)]. *)
Definition index {A : Type} (b : list A) (i : Z) : result A :=
  if (0 <=? i) && (i <? len b)
  then match nth_error b (Z.to_nat i) with
       | Some c => Ok c
       | None => Panic
       end
  else Panic.

(** [b[lo:hi]]: panics unless [0 <= lo <= hi <= len(b)].  Go checks [hi]
    against the capacity of [b]; the model takes the capacity of a slice to
    be its length. *)
Definition slice {A : Type} (b : list A) (lo hi : Z) : result (list A) :=
  if (0 <=? lo) && (lo <=? hi) && (hi <=? len b)
  then Ok (firstn (Z.to_nat (hi - lo)) (skipn (Z.to_nat lo) b))
  else Panic.

(** [b[lo:]] *)
Definition slice_from {A : Type} (b : list A) (lo : Z) : result (list A) :=
  slice b lo (len b).

(** ** Character classification tables *)

Definition spaceTable : list Z :=
  [
   0; 0; 0; 0; 0; 0; 0; 0; 0; 1; 1; 1; 1; 1; 0; 0; 0; 0; 0; 0; 0; 0; 0; 0; 0; 0; 0; 0; 0; 0; 0; 0;
   1; 0; 0; 0; 0; 0; 0; 0; 0; 0; 0; 0; 0; 0; 0; 0; 0; 0; 0; 0; 0; 0; 0; 0; 0; 0; 0; 0; 0; 0; 0; 0;
   0; 0; 0; 0; 0; 0; 0; 0; 0; 0; 0; 0; 0; 0; 0; 0; 0; 0; 0; 0; 0; 0; 0; 0; 0; 0; 0; 0; 0; 0; 0; 0;
   0; 0; 0; 0; 0; 0; 0; 0; 0; 0; 0; 0; 0; 0; 0; 0; 0; 0; 0; 0; 0; 0; 0; 0; 0; 0; 0; 0; 0; 0; 0; 0;
   0; 0; 0; 0; 0; 0; 0; 0; 0; 0; 0; 0; 0; 0; 0; 0; 0; 0; 0; 0; 0; 0; 0; 0; 0; 0; 0; 0; 0; 0; 0; 0;
   0; 0; 0; 0; 0; 0; 0; 0; 0; 0; 0; 0; 0; 0; 0; 0; 0; 0; 0; 0; 0; 0; 0; 0; 0; 0; 0; 0; 0; 0; 0; 0;
   0; 0; 0; 0; 0; 0; 0; 0; 0; 0; 0; 0; 0; 0; 0; 0; 0; 0; 0; 0; 0; 0; 0; 0; 0; 0; 0; 0; 0; 0; 0; 0;
   0; 0; 0; 0; 0; 0; 0; 0; 0; 0; 0; 0; 0; 0; 0; 0; 0; 0; 0; 0; 0; 0; 0; 0; 0; 0; 0; 0; 0; 0; 0; 0
  ].

Definition punctTable : list Z :=
  [
   0; 0; 0; 0; 0; 0; 0; 0; 0; 0; 0; 0; 0; 0; 0; 0; 0; 0; 0; 0; 0; 0; 0; 0; 0; 0; 0; 0; 0; 0; 0; 0;
   0; 1; 1; 1; 1; 1; 1; 1; 1; 1; 1; 1; 1; 1; 1; 1; 0; 0; 0; 0; 0; 0; 0; 0; 0; 0; 1; 1; 1; 1; 1; 1;
   1; 0; 0; 0; 0; 0; 0; 0; 0; 0; 0; 0; 0; 0; 0; 0; 0; 0; 0; 0; 0; 0; 0; 0; 0; 0; 0; 1; 1; 1; 1; 1;
   1; 0; 0; 0; 0; 0; 0; 0; 0; 0; 0; 0; 0; 0; 0; 0; 0; 0; 0; 0; 0; 0; 0; 0; 0; 0; 0; 1; 1; 1; 1; 0;
   0; 0; 0; 0; 0; 0; 0; 0; 0; 0; 0; 0; 0; 0; 0; 0; 0; 0; 0; 0; 0; 0; 0; 0; 0; 0; 0; 0; 0; 0; 0; 0;
   0; 0; 0; 0; 0; 0; 0; 0; 0; 0; 0; 0; 0; 0; 0; 0; 0; 0; 0; 0; 0; 0; 0; 0; 0; 0; 0; 0; 0; 0; 0; 0;
   0; 0; 0; 0; 0; 0; 0; 0; 0; 0; 0; 0; 0; 0; 0; 0; 0; 0; 0; 0; 0; 0; 0; 0; 0; 0; 0; 0; 0; 0; 0; 0;
   0; 0; 0; 0; 0; 0; 0; 0; 0; 0; 0; 0; 0; 0; 0; 0; 0; 0; 0; 0; 0; 0; 0; 0; 0; 0; 0; 0; 0; 0; 0; 0
  ].

Definition urlEscapeTable : list Z :=
  [
   0; 0; 0; 0; 0; 0; 0; 0; 0; 0; 0; 0; 0; 0; 0; 0; 0; 0; 0; 0; 0; 0; 0; 0; 0; 0; 0; 0; 0; 0; 0; 0;
   0; 1; 0; 1; 1; 0; 1; 1; 1; 1; 1; 1; 1; 1; 1; 1; 1; 1; 1; 1; 1; 1; 1; 1; 1; 1; 1; 1; 0; 1; 0; 1;
   1; 1; 1; 1; 1; 1; 1; 1; 1; 1; 1; 1; 1; 1; 1; 1; 1; 1; 1; 1; 1; 1; 1; 1; 1; 1; 1; 0; 0; 0; 0; 1;
   0; 1; 1; 1; 1; 1; 1; 1; 1; 1; 1; 1; 1; 1; 1; 1; 1; 1; 1; 1; 1; 1; 1; 1; 1; 1; 1; 0; 0; 0; 1; 0;
   0; 0; 0; 0; 0; 0; 0; 0; 0; 0; 0; 0; 0; 0; 0; 0; 0; 0; 0; 0; 0; 0; 0; 0; 0; 0; 0; 0; 0; 0; 0; 0;
   0; 0; 0; 0; 0; 0; 0; 0; 0; 0; 0; 0; 0; 0; 0; 0; 0; 0; 0; 0; 0; 0; 0; 0; 0; 0; 0; 0; 0; 0; 0; 0;
   0; 0; 0; 0; 0; 0; 0; 0; 0; 0; 0; 0; 0; 0; 0; 0; 0; 0; 0; 0; 0; 0; 0; 0; 0; 0; 0; 0; 0; 0; 0; 0;
   0; 0; 0; 0; 0; 0; 0; 0; 0; 0; 0; 0; 0; 0; 0; 0; 0; 0; 0; 0; 0; 0; 0; 0; 0; 0; 0; 0; 0; 0; 0; 0
  ].

Definition utf8lenTable : list Z :=
  [
   1; 1; 1; 1; 1; 1; 1; 1; 1; 1; 1; 1; 1; 1; 1; 1; 1; 1; 1; 1; 1; 1; 1; 1; 1; 1; 1; 1; 1; 1; 1; 1;
   1; 1; 1; 1; 1; 1; 1; 1; 1; 1; 1; 1; 1; 1; 1; 1; 1; 1; 1; 1; 1; 1; 1; 1; 1; 1; 1; 1; 1; 1; 1; 1;
   1; 1; 1; 1; 1; 1; 1; 1; 1; 1; 1; 1; 1; 1; 1; 1; 1; 1; 1; 1; 1; 1; 1; 1; 1; 1; 1; 1; 1; 1; 1; 1;
   1; 1; 1; 1; 1; 1; 1; 1; 1; 1; 1; 1; 1; 1; 1; 1; 1; 1; 1; 1; 1; 1; 1; 1; 1; 1; 1; 1; 1; 1; 1; 1;
   99; 99; 99; 99; 99; 99; 99; 99; 99; 99; 99; 99; 99; 99; 99; 99; 99; 99; 99; 99; 99; 99; 99; 99; 99; 99; 99; 99; 99; 99; 99; 99;
   99; 99; 99; 99; 99; 99; 99; 99; 99; 99; 99; 99; 99; 99; 99; 99; 99; 99; 99; 99; 99; 99; 99; 99; 99; 99; 99; 99; 99; 99; 99; 99;
   99; 99; 2; 2; 2; 2; 2; 2; 2; 2; 2; 2; 2; 2; 2; 2; 2; 2; 2; 2; 2; 2; 2; 2; 2; 2; 2; 2; 2; 2; 2; 2;
   3; 3; 3; 3; 3; 3; 3; 3; 3; 3; 3; 3; 3; 3; 3; 3; 4; 4; 4; 4; 4; 4; 4; 4; 99; 99; 99; 99; 99; 99; 99; 99
  ].

Definition urlTable : list Z :=
  [
   0; 0; 0; 0; 0; 0; 0; 0; 0; 0; 0; 0; 0; 0; 0; 0; 0; 0; 0; 0; 0; 0; 0; 0; 0; 0; 0; 0; 0; 0; 0; 0;
   0; 1; 1; 1; 1; 1; 1; 1; 1; 1; 1; 5; 1; 5; 5; 1; 5; 5; 5; 5; 5; 5; 5; 5; 5; 5; 1; 1; 0; 1; 0; 1;
   1; 7; 7; 7; 7; 7; 7; 7; 7; 7; 7; 7; 7; 7; 7; 7; 7; 7; 7; 7; 7; 7; 7; 7; 7; 7; 7; 1; 1; 1; 1; 1;
   1; 7; 7; 7; 7; 7; 7; 7; 7; 7; 7; 7; 7; 7; 7; 7; 7; 7; 7; 7; 7; 7; 7; 7; 7; 7; 7; 1; 1; 1; 1; 1;
   1; 1; 1; 1; 1; 1; 1; 1; 1; 1; 1; 1; 1; 1; 1; 1; 1; 1; 1; 1; 1; 1; 1; 1; 1; 1; 1; 1; 1; 1; 1; 1;
   1; 1; 1; 1; 1; 1; 1; 1; 1; 1; 1; 1; 1; 1; 1; 1; 1; 1; 1; 1; 1; 1; 1; 1; 1; 1; 1; 1; 1; 1; 1; 1;
   1; 1; 1; 1; 1; 1; 1; 1; 1; 1; 1; 1; 1; 1; 1; 1; 1; 1; 1; 1; 1; 1; 1; 1; 1; 1; 1; 1; 1; 1; 1; 1;
   1; 1; 1; 1; 1; 1; 1; 1; 1; 1; 1; 1; 1; 1; 1; 1; 1; 1; 1; 1; 1; 1; 1; 1; 1; 1; 1; 1; 1; 1; 1; 1
  ].

Definition emailTable : list Z :=
  [
   0; 0; 0; 0; 0; 0; 0; 0; 0; 0; 0; 0; 0; 0; 0; 0; 0; 0; 0; 0; 0; 0; 0; 0; 0; 0; 0; 0; 0; 0; 0; 0;
   0; 1; 0; 1; 1; 1; 1; 1; 0; 0; 1; 1; 0; 1; 1; 1; 1; 1; 1; 1; 1; 1; 1; 1; 1; 1; 0; 0; 0; 1; 0; 1;
   0; 1; 1; 1; 1; 1; 1; 1; 1; 1; 1; 1; 1; 1; 1; 1; 1; 1; 1; 1; 1; 1; 1; 1; 1; 1; 1; 0; 0; 0; 1; 1;
   1; 1; 1; 1; 1; 1; 1; 1; 1; 1; 1; 1; 1; 1; 1; 1; 1; 1; 1; 1; 1; 1; 1; 1; 1; 1; 1; 1; 1; 1; 1; 0;
   0; 0; 0; 0; 0; 0; 0; 0; 0; 0; 0; 0; 0; 0; 0; 0; 0; 0; 0; 0; 0; 0; 0; 0; 0; 0; 0; 0; 0; 0; 0; 0;
   0; 0; 0; 0; 0; 0; 0; 0; 0; 0; 0; 0; 0; 0; 0; 0; 0; 0; 0; 0; 0; 0; 0; 0; 0; 0; 0; 0; 0; 0; 0; 0;
   0; 0; 0; 0; 0; 0; 0; 0; 0; 0; 0; 0; 0; 0; 0; 0; 0; 0; 0; 0; 0; 0; 0; 0; 0; 0; 0; 0; 0; 0; 0; 0;
   0; 0; 0; 0; 0; 0; 0; 0; 0; 0; 0; 0; 0; 0; 0; 0; 0; 0; 0; 0; 0; 0; 0; 0; 0; 0; 0; 0; 0; 0; 0; 0
  ].

(** [table[c]] for a 256-entry table and a byte [c]. *)
Definition lookup (table : list Z) (c : byte) : Z :=
  nth (Byte.to_nat c) table 0.

Definition UTF8Len (b : byte) : Z := lookup utf8lenTable b.

Definition IsPunct (c : byte) : bool := lookup punctTable c =? 1.

Definition IsSpace (c : byte) : bool := lookup spaceTable c =? 1.

Definition IsNumeric (c : byte) : bool :=
  (code "0" <=? code c) && (code c <=? code "9").

Definition IsHexDecimal (c : byte) : bool :=
  (code "0" <=? code c) && (code c <=? code "9")
  || (code "a" <=? code c) && (code c <=? code "f")
  || (code "A" <=? code c) && (code c <=? code "F").

Definition IsAlphaNumeric (c : byte) : bool :=
  (code "a" <=? code c) && (code c <=? code "z")
  || (code "A" <=? code c) && (code c <=? code "Z")
  || (code "0" <=? code c) && (code c <=? code "9").

(** [htmlEscapeTable]: [nil] everywhere but at the four reserved bytes. *)
Definition htmlEscapeTable (c : byte) : option bytes :=
  match code c with
  | 34 => Some (bytes_of "&quot;")
  | 38 => Some (bytes_of "&amp;")
  | 60 => Some (bytes_of "&lt;")
  | 62 => Some (bytes_of "&gt;")
  | _ => None
  end.

Definition EscapeHTMLByte (b : byte) : option bytes := htmlEscapeTable b.

(** ** Copy-on-write buffer *)

Record CopyOnWriteBuffer : Type := mkCob {
  buffer : bytes;
  copied : bool
}.

Definition NewCopyOnWriteBuffer (buffer : bytes) : CopyOnWriteBuffer :=
  {| buffer := buffer; copied := false |}.

(** The first write drops the borrowed slice and starts from an empty
    buffer of its own. *)
Definition Write (b : CopyOnWriteBuffer) (value : bytes) : CopyOnWriteBuffer :=
  let b := if negb (copied b) then {| buffer := []; copied := true |} else b in
  {| buffer := buffer b ++ value; copied := copied b |}.

Definition WriteByte (b : CopyOnWriteBuffer) (c : byte) : CopyOnWriteBuffer :=
  let b := if negb (copied b) then {| buffer := []; copied := true |} else b in
  {| buffer := buffer b ++ [c]; copied := copied b |}.

Definition Bytes (b : CopyOnWriteBuffer) : bytes := buffer b.

Definition IsCopied (b : CopyOnWriteBuffer) : bool := copied b.

(** ** Scanning helpers *)

Definition IsEscapedPunctuation (source : bytes) (i : Z) : result bool :=
  c <- index source i ;;
  (c =? "\")%byte &&> ((i <? len source - 1) &&>
    (c1 <- index source (i + 1) ;; Ok (IsPunct c1))).

(** [for ; j < stop; j++ { if pred(source[j]) { ok = true; continue }; break }] *)
Fixpoint ReadWhile_loop (fuel : nat) (source : bytes) (stop : Z)
    (pred : byte -> bool) (j : Z) (ok : bool) : result (Z * bool) :=
  match fuel with
  | O => OutOfFuel
  | S fuel =>
      if j <? stop then
        c1 <- index source j ;;
        if pred c1 then ReadWhile_loop fuel source stop pred (j + 1) true
        else Ok (j, ok)
      else Ok (j, ok)
  end.

Definition ReadWhile (source : bytes) (index : Z * Z) (pred : byte -> bool)
    : result (Z * bool) :=
  ReadWhile_loop (S (Z.to_nat (snd index - fst index))) source (snd index)
    pred (fst index) false.

Fixpoint IsBlank (bs : bytes) : bool :=
  match bs with
  | [] => true
  | b :: bs => if IsSpace b then IsBlank bs else false
  end.

(** The loop shape [for ; i < l && p(b[i]); i++ {}], used throughout the
    attribute and URL scanners: the first index from [i] on that is past
    [l] or whose byte fails [p]. *)
Fixpoint skip_while (fuel : nat) (p : byte -> bool) (b : bytes) (l i : Z)
    : result Z :=
  match fuel with
  | O => OutOfFuel
  | S fuel =>
      if i <? l then
        c <- index b i ;;
        if p c then skip_while fuel p b l (i + 1) else Ok i
      else Ok i
  end.

(** ** FindClosure *)

(** The two inner loops of [FindClosure]:
    [for ; i < len(bs); i++ { if bs[i] == '`' { count++ } else { break } }] *)
Fixpoint backtick_run (fuel : nat) (bs : bytes) (i count : Z)
    : result (Z * Z) :=
  match fuel with
  | O => OutOfFuel
  | S fuel =>
      if i <? len bs then
        c <- index bs i ;;
        if (c =? "`")%byte then backtick_run fuel bs (i + 1) (count + 1)
        else Ok (i, count)
      else Ok (i, count)
  end.

Fixpoint FindClosure_loop (fuel : nat) (bs : bytes) (opener closure : byte)
    (codeSpan allowNesting : bool) (i opened codeSpanOpener : Z) : result Z :=
  match fuel with
  | O => OutOfFuel
  | S fuel =>
      let continue := FindClosure_loop fuel bs opener closure codeSpan allowNesting in
      if i <? len bs then
        c <- index bs i ;;
        if codeSpan && negb (codeSpanOpener =? 0) && (c =? "`")%byte then
          '(i, codeSpanCloser) <- backtick_run (S (length bs)) bs i 0 ;;
          let codeSpanOpener :=
            if codeSpanCloser =? codeSpanOpener then 0 else codeSpanOpener in
          continue (i + 1) opened codeSpanOpener
        else
          escaped <- (c =? "\")%byte &&> ((i <? len bs - 1) &&>
                       (c1 <- index bs (i + 1) ;; Ok (IsPunct c1))) ;;
          if escaped then
            continue (i + 2) opened codeSpanOpener
          else if codeSpan && (codeSpanOpener =? 0) && (c =? "`")%byte then
            '(i, codeSpanOpener) <- backtick_run (S (length bs)) bs i codeSpanOpener ;;
            continue (i + 1) opened codeSpanOpener
          else if (codeSpan && (codeSpanOpener =? 0)) || negb codeSpan then
            if (c =? closure)%byte then
              let opened := opened - 1 in
              if opened =? 0 then Ok i
              else continue (i + 1) opened codeSpanOpener
            else if (c =? opener)%byte then
              if negb allowNesting then Ok (-1)
              else continue (i + 1) (opened + 1) codeSpanOpener
            else continue (i + 1) opened codeSpanOpener
          else continue (i + 1) opened codeSpanOpener
      else Ok (-1)
  end.

Definition FindClosure (bs : bytes) (opener closure : byte)
    (codeSpan allowNesting : bool) : result Z :=
  FindClosure_loop (S (length bs)) bs opener closure codeSpan allowNesting 0 1 0.

(** ** Go standard library: [unicode/utf8], [strconv], [net/url]

    The functions of the Go standard library that [util.go] calls, modelled
    after their documented behaviour. *)

(** [byte(x)]: the low eight bits. *)
Definition byte_of (x : Z) : byte :=
  match Byte.of_N (Z.to_N (x mod 256)) with
  | Some b => b
  | None => "000"%byte
  end.

(** [rune(v)] for a [uint64] [v]: the low 32 bits, read as a signed
    integer. *)
Definition rune (v : Z) : Z :=
  let w := v mod 2 ^ 32 in
  if w <? 2 ^ 31 then w else w - 2 ^ 32.

Definition MaxRune : Z := 0x10FFFF.
Definition RuneError : Z := 0xFFFD.
Definition surrogateMin : Z := 0xD800.
Definition surrogateMax : Z := 0xDFFF.

(** [utf8.ValidRune] *)
Definition ValidRune (r : Z) : bool :=
  if (0 <=? r) && (r <? surrogateMin) then true
  else if (surrogateMax <? r) && (r <=? MaxRune) then true
  else false.

(** [utf8.EncodeRune(buf, r)] followed by [buf[:runeSize]]: the UTF-8
    encoding of [r]; the encoding of U+FFFD when [r] is out of range or a
    surrogate. *)
Definition EncodeRune (r : Z) : bytes :=
  let i := r mod 2 ^ 32 in
  if i <=? 0x7F then [byte_of r]
  else if i <=? 0x7FF then
    [byte_of (Z.lor 0xC0 (Z.shiftr r 6));
     byte_of (Z.lor 0x80 (Z.land r 0x3F))]
  else
    let bad := (MaxRune <? i) || ((surrogateMin <=? i) && (i <=? surrogateMax)) in
    if bad || (i <=? 0xFFFF) then
      let r := if bad then RuneError else r in
      [byte_of (Z.lor 0xE0 (Z.shiftr r 12));
       byte_of (Z.lor 0x80 (Z.land (Z.shiftr r 6) 0x3F));
       byte_of (Z.lor 0x80 (Z.land r 0x3F))]
    else
      [byte_of (Z.lor 0xF0 (Z.shiftr r 18));
       byte_of (Z.lor 0x80 (Z.land (Z.shiftr r 12) 0x3F));
       byte_of (Z.lor 0x80 (Z.land (Z.shiftr r 6) 0x3F));
       byte_of (Z.lor 0x80 (Z.land r 0x3F))].

(** [strconv]'s [lower]: [c | ('x' - 'X')]. *)
Definition lower (c : byte) : Z := Z.lor (code c) (code "x" - code "X").

(** The digit loop of [strconv.ParseUint]: a byte that is no digit of the
    base is a syntax error (value 0); a value past [maxVal] is a range error
    (value [maxVal]). *)
Fixpoint ParseUint_digits (s : bytes) (base cutoff maxVal n : Z) : Z :=
  match s with
  | [] => n
  | c :: s =>
      let d :=
        if (code "0" <=? code c) && (code c <=? code "9")
        then Some (code c - code "0")
        else if (code "a" <=? lower c) && (lower c <=? code "z")
        then Some (lower c - code "a" + 10)
        else None in
      match d with
      | None => 0
      | Some d =>
          if base <=? d then 0
          else if cutoff <=? n then maxVal
          else
            let n := n * base in
            let n1 := (n + d) mod 2 ^ 64 in
            if (n1 <? n) || (maxVal <? n1) then maxVal
            else ParseUint_digits s base cutoff maxVal n1
      end
  end.

(** [v, _ := strconv.ParseUint(s, base, bitSize)]: the value, the error
    being dropped by every caller.  With [base = 0] the base is taken from
    the prefix of [s]: 2 for [0b], 8 for [0o] and for a plain leading [0],
    16 for [0x], 10 otherwise.  The callers pass runs of digits only, so the
    underscore separators that base 0 also admits are left out: a [_] is a
    syntax error here. *)
Definition ParseUint (s : bytes) (base bitSize : Z) : Z :=
  match s with
  | [] => 0
  | c0 :: rest =>
      let '(base, digits) :=
        if base =? 0 then
          if (c0 =? "0")%byte then
            match rest with
            | c1 :: (_ :: _) as rest' =>
                if lower c1 =? code "b" then (2, rest')
                else if lower c1 =? code "o" then (8, rest')
                else if lower c1 =? code "x" then (16, rest')
                else (8, rest)
            | _ => (8, rest)
            end
          else (10, s)
        else (base, s) in
      let maxUint64 := 2 ^ 64 - 1 in
      let cutoff := maxUint64 / base + 1 in
      let maxVal := 2 ^ bitSize - 1 in
      ParseUint_digits digits base cutoff maxVal 0
  end.

(** [net/url]'s [shouldEscape(c, encodeQueryComponent)]. *)
Definition shouldEscape (c : byte) : bool :=
  if IsAlphaNumeric c then false
  else if (c =? "-")%byte || (c =? "_")%byte || (c =? ".")%byte || (c =? "~")%byte
  then false
  else true.

Definition upperhex : bytes := bytes_of "0123456789ABCDEF".

(** [url.QueryEscape] *)
Fixpoint QueryEscape (s : bytes) : bytes :=
  match s with
  | [] => []
  | c :: s =>
      (if shouldEscape c then
         if (c =? " ")%byte then ["+"%byte]
         else ["%"%byte;
               nth (Z.to_nat (Z.shiftr (code c) 4)) upperhex "0"%byte;
               nth (Z.to_nat (Z.land (code c) 15)) upperhex "0"%byte]
       else [c]) ++ QueryEscape s
  end.

(** Modelled from the spec: [BytesToReadOnlyString] and
    [StringToReadOnlyBytes] are defined outside [util.go]; they convert
    between a byte slice and a string of the same bytes, which are one type
    here. *)
Definition BytesToReadOnlyString (b : bytes) : bytes := b.
Definition StringToReadOnlyBytes (s : bytes) : bytes := s.

(** ** Reference and escape resolver *)

Definition ToValidRune (v : Z) : Z :=
  if (v =? 0) || negb (ValidRune v) then 0xFFFD else v.

Fixpoint EscapeHTML_loop (fuel : nat) (v : bytes) (cob : CopyOnWriteBuffer)
    (n i : Z) : result (CopyOnWriteBuffer * Z) :=
  match fuel with
  | O => OutOfFuel
  | S fuel =>
      if i <? len v then
        c <- index v i ;;
        match htmlEscapeTable c with
        | Some escaped =>
            pre <- slice v n i ;;
            let cob := Write cob pre in
            let cob := Write cob escaped in
            EscapeHTML_loop fuel v cob (i + 1) (i + 1)
        | None => EscapeHTML_loop fuel v cob n (i + 1)
        end
      else Ok (cob, n)
  end.

(** The buffer of [EscapeHTML] when the function returns. *)
Definition EscapeHTML_cob (v : bytes) : result CopyOnWriteBuffer :=
  '(cob, n) <- EscapeHTML_loop (S (length v)) v (NewCopyOnWriteBuffer v) 0 0 ;;
  if IsCopied cob then
    rest <- slice_from v n ;; Ok (Write cob rest)
  else Ok cob.

Definition EscapeHTML (v : bytes) : result bytes :=
  cob <- EscapeHTML_cob v ;; Ok (Bytes cob).

Fixpoint UnescapePunctuations_loop (fuel : nat) (source : bytes)
    (cob : CopyOnWriteBuffer) (n i : Z) : result (CopyOnWriteBuffer * Z) :=
  match fuel with
  | O => OutOfFuel
  | S fuel =>
      let limit := len source in
      if i <? limit then
        c <- index source i ;;
        escaped <- ((i <? limit - 1) && (c =? "\")%byte) &&>
                     (c1 <- index source (i + 1) ;; Ok (IsPunct c1)) ;;
        if escaped then
          pre <- slice source n i ;;
          let cob := Write cob pre in
          c1 <- index source (i + 1) ;;
          let cob := WriteByte cob c1 in
          UnescapePunctuations_loop fuel source cob (i + 2) (i + 2)
        else UnescapePunctuations_loop fuel source cob n (i + 1)
      else Ok (cob, n)
  end.

Definition UnescapePunctuations_cob (source : bytes) : result CopyOnWriteBuffer :=
  '(cob, n) <- UnescapePunctuations_loop (S (length source)) source
                 (NewCopyOnWriteBuffer source) 0 0 ;;
  if IsCopied cob then
    rest <- slice_from source n ;; Ok (Write cob rest)
  else Ok cob.

Definition UnescapePunctuations (source : bytes) : result bytes :=
  cob <- UnescapePunctuations_cob source ;; Ok (Bytes cob).

(** The shared tail of the two branches of [ResolveNumericReferences]:
    [cob.Write(source[n:pos]); n = i + 1;
     runeSize := utf8.EncodeRune(buf, ToValidRune(rune(v)));
     cob.Write(buf[:runeSize])]. *)
Definition write_rune (source : bytes) (cob : CopyOnWriteBuffer)
    (n pos v : Z) : result CopyOnWriteBuffer :=
  pre <- slice source n pos ;;
  let cob := Write cob pre in
  Ok (Write cob (EncodeRune (ToValidRune (rune v)))).

Fixpoint ResolveNumericReferences_loop (fuel : nat) (source : bytes)
    (cob : CopyOnWriteBuffer) (n i : Z) : result (CopyOnWriteBuffer * Z) :=
  match fuel with
  | O => OutOfFuel
  | S fuel =>
      let limit := len source in
      let continue := ResolveNumericReferences_loop fuel source in
      if i <? limit then
        c <- index source i ;;
        if (c =? "&")%byte then
          let pos := i in
          let next := i + 1 in
          hash <- (next <? limit) &&>
                    (c1 <- index source next ;; Ok (c1 =? "#")%byte) ;;
          if hash then
            let nnext := next + 1 in
            nc <- index source nnext ;;
            if (nnext <? limit) && (nc =? "x")%byte || (nc =? "X")%byte then
              let start := nnext + 1 in
              '(i, ok) <- ReadWhile source (start, limit) IsHexDecimal ;;
              semi <- (ok && (i <? limit)) &&>
                        (c2 <- index source i ;; Ok (c2 =? ";")%byte) ;;
              if semi then
                digits <- slice source start i ;;
                let v := ParseUint (BytesToReadOnlyString digits) 16 32 in
                cob <- write_rune source cob n pos v ;;
                continue cob (i + 1) (i + 1)
              else continue cob n (next - 1 + 1)
            else if (code "0" <=? code nc) && (code nc <=? code "9") then
              let start := nnext in
              '(i, ok) <- ReadWhile source (start, limit) IsNumeric ;;
              semi <- (ok && (i <? limit) && (i - start <? 8)) &&>
                        (c2 <- index source i ;; Ok (c2 =? ";")%byte) ;;
              if semi then
                digits <- slice source start i ;;
                let v := ParseUint (BytesToReadOnlyString digits) 0 32 in
                cob <- write_rune source cob n pos v ;;
                continue cob (i + 1) (i + 1)
              else continue cob n (next - 1 + 1)
            else continue cob n (next - 1 + 1)
          else continue cob n (next - 1 + 1)
        else continue cob n (i + 1)
      else Ok (cob, n)
  end.

Definition ResolveNumericReferences_cob (source : bytes)
    : result CopyOnWriteBuffer :=
  '(cob, n) <- ResolveNumericReferences_loop (S (length source)) source
                 (NewCopyOnWriteBuffer source) 0 0 ;;
  if IsCopied cob then
    rest <- slice_from source n ;; Ok (Write cob rest)
  else Ok cob.

Definition ResolveNumericReferences (source : bytes) : result bytes :=
  cob <- ResolveNumericReferences_cob source ;; Ok (Bytes cob).

Section EntityNames.

(** The table of named entities lives outside [util.go]; the lookup is a
    parameter: [LookUpHTML5EntityByName name] is the [Characters] of the
    entity called [name], if there is one. *)
Variable LookUpHTML5EntityByName : bytes -> option bytes.

Fixpoint ResolveEntityNames_loop (fuel : nat) (source : bytes)
    (cob : CopyOnWriteBuffer) (n i : Z) : result (CopyOnWriteBuffer * Z) :=
  match fuel with
  | O => OutOfFuel
  | S fuel =>
      let limit := len source in
      let continue := ResolveEntityNames_loop fuel source in
      if i <? limit then
        c <- index source i ;;
        if (c =? "&")%byte then
          let pos := i in
          let next := i + 1 in
          hash <- (next <? limit) &&>
                    (c1 <- index source next ;; Ok (c1 =? "#")%byte) ;;
          if negb hash then
            let start := next in
            '(i, ok) <- ReadWhile source (start, limit) IsAlphaNumeric ;;
            semi <- (ok && (i <? limit)) &&>
                      (c2 <- index source i ;; Ok (c2 =? ";")%byte) ;;
            if semi then
              name <- slice source start i ;;
              match LookUpHTML5EntityByName (BytesToReadOnlyString name) with
              | Some characters =>
                  pre <- slice source n pos ;;
                  let cob := Write cob pre in
                  let cob := Write cob characters in
                  continue cob (i + 1) (i + 1)
              | None => continue cob n (next - 1 + 1)
              end
            else continue cob n (next - 1 + 1)
          else continue cob n (next - 1 + 1)
        else continue cob n (i + 1)
      else Ok (cob, n)
  end.

Definition ResolveEntityNames_cob (source : bytes) : result CopyOnWriteBuffer :=
  '(cob, n) <- ResolveEntityNames_loop (S (length source)) source
                 (NewCopyOnWriteBuffer source) 0 0 ;;
  if IsCopied cob then
    rest <- slice_from source n ;; Ok (Write cob rest)
  else Ok cob.

Definition ResolveEntityNames (source : bytes) : result bytes :=
  cob <- ResolveEntityNames_cob source ;; Ok (Bytes cob).

Definition htmlSpace : bytes := bytes_of "%20".

Fixpoint URLEscape_loop (fuel : nat) (v : bytes) (cob : CopyOnWriteBuffer)
    (n i : Z) : result (CopyOnWriteBuffer * Z) :=
  match fuel with
  | O => OutOfFuel
  | S fuel =>
      let limit := len v in
      if i <? limit then
        c <- index v i ;;
        if lookup urlEscapeTable c =? 1 then URLEscape_loop fuel v cob n (i + 1)
        else
          encoded <- ((c =? "%")%byte && (i + 2 <? limit)) &&>
                       (h <- index v (i + 1) ;;
                        IsHexDecimal h &&>
                          (h' <- index v (i + 1) ;; Ok (IsHexDecimal h'))) ;;
          if encoded then URLEscape_loop fuel v cob n (i + 3)
          else
            let u8len := lookup utf8lenTable c in
            if u8len =? 99 then URLEscape_loop fuel v cob n (i + 1)
            else if (c =? " ")%byte then
              pre <- slice v n i ;;
              let cob := Write cob pre in
              let cob := Write cob htmlSpace in
              URLEscape_loop fuel v cob (i + 1) (i + 1)
            else
              pre <- slice v n i ;;
              let cob := Write cob pre in
              char <- slice v i (i + u8len) ;;
              let cob := Write cob (StringToReadOnlyBytes (QueryEscape char)) in
              URLEscape_loop fuel v cob (i + u8len) (i + u8len)
      else Ok (cob, n)
  end.

(** The buffer of [URLEscape] when the function returns. *)
Definition URLEscape_cob (v : bytes) (resolveReference : bool)
    : result CopyOnWriteBuffer :=
  v <- (if resolveReference then
          v <- UnescapePunctuations v ;;
          v <- ResolveNumericReferences v ;;
          ResolveEntityNames v
        else Ok v) ;;
  '(cob, n) <- URLEscape_loop (S (length v)) v (NewCopyOnWriteBuffer v) 0 0 ;;
  if IsCopied cob then
    rest <- slice_from v n ;; Ok (Write cob rest)
  else Ok cob.

Definition URLEscape (v : bytes) (resolveReference : bool) : result bytes :=
  cob <- URLEscape_cob v resolveReference ;; Ok (Bytes cob).

End EntityNames.

(** ** Attribute parser *)

(** An attribute record [[4]int{name_start, name_stop, value_start,
    value_stop}]. *)
Definition attribute : Type := (Z * Z * Z * Z)%type.

Definition not_found : attribute := (-1, -1, -1, -1).

Definition is_alpha (c : byte) : bool :=
  (code "a" <=? code c) && (code c <=? code "z")
  || (code "A" <=? code c) && (code c <=? code "Z").

(** The double quote. *)
Definition dquote : byte := "034"%byte.

(** The first byte of an attribute name. *)
Definition name_start (c : byte) : bool :=
  is_alpha c || (c =? "_")%byte || (c =? ":")%byte.

(** The further bytes of an attribute name. *)
Definition name_char (c : byte) : bool :=
  is_alpha c
  || (code "0" <=? code c) && (code c <=? code "9")
  || (c =? "_")%byte || (c =? ":")%byte || (c =? ".")%byte || (c =? "-")%byte.

(** The bytes that end an unquoted attribute value. *)
Definition bare_stop (c : byte) : bool :=
  (c =? "\")%byte || (c =? dquote)%byte || (c =? "'")%byte
  || (c =? "=")%byte || (c =? "<")%byte || (c =? ">")%byte || (c =? "`")%byte
  || (c =? "{")%byte || (c =? "}")%byte
  || (0 <=? code c) && (code c <=? 0x20).

(** The two quoted branches of [FindHTMLAttributeIndex], which differ in
    the quote byte [q] only; [i] is the index of the opening quote. *)
Definition quoted_value (b : bytes) (canEscapeQuotes : bool) (q : byte)
    (r0 r1 i : Z) : result (attribute * Z) :=
  let l := len b in
  let i := i + 1 in
  let r2 := i in
  if canEscapeQuotes then
    rest <- slice_from b i ;;
    pos <- FindClosure rest q q false false ;;
    if pos <? 0 then Ok (not_found, 0)
    else Ok ((r0, r1, r2, pos + i), 1)
  else
    i <- skip_while (S (length b)) (fun c => negb (c =? q)%byte) b l i ;;
    let r3 := i in
    bad <- (if r2 =? r3 then Ok true
            else (i =? l) &&> (c <- index b (l - 1) ;; Ok (negb (c =? q)%byte))) ;;
    if bad then Ok (not_found, 0)
    else Ok ((r0, r1, r2, r3), 1).

Definition FindHTMLAttributeIndex (b : bytes) (canEscapeQuotes : bool)
    : result (attribute * Z) :=
  let l := len b in
  let fuel := S (length b) in
  i <- skip_while fuel IsSpace b l 0 ;;
  if l <=? i then Ok (not_found, 0) else
  c <- index b i ;;
  if negb (name_start c) then Ok (not_found, 0) else
  let r0 := i in
  i <- skip_while fuel name_char b l i ;;
  let r1 := i in
  i <- skip_while fuel IsSpace b l i ;;
  if l <=? i then Ok (not_found, 0) else
  c <- index b i ;;
  if negb (c =? "=")%byte then Ok (not_found, 0) else
  let i := i + 1 in
  i <- skip_while fuel IsSpace b l i ;;
  if l <=? i then Ok (not_found, 0) else
  c <- index b i ;;
  if (c =? dquote)%byte then quoted_value b canEscapeQuotes dquote r0 r1 i
  else if (c =? "'")%byte then quoted_value b canEscapeQuotes "'" r0 r1 i
  else
    let r2 := i in
    i <- skip_while fuel (fun c => negb (bare_stop c)) b l i ;;
    let r3 := i in
    if r2 =? r3 then Ok (not_found, 0)
    else Ok ((r0, r1, r2, r3), 0).

(** The bytes of the run after a [#] or [.]: no space, and no punctuation
    but [_] and [-]. *)
Definition ident_char (c : byte) : bool :=
  negb (IsSpace c) && (negb (IsPunct c) || (c =? "_")%byte || (c =? "-")%byte).

Definition FindAttributeIndex (b : bytes) (canEscapeQuotes : bool)
    : result (attribute * Z) :=
  let l := len b in
  let fuel := S (length b) in
  i <- skip_while fuel IsSpace b l 0 ;;
  if l <=? i then Ok (not_found, 0) else
  c <- index b i ;;
  if (c =? "#")%byte || (c =? ".")%byte then
    let r0 := i in
    let i := i + 1 in
    let r1 := i in
    let r2 := i in
    i <- skip_while fuel ident_char b l i ;;
    Ok ((r0, r1, r2, i), 0)
  else FindHTMLAttributeIndex b canEscapeQuotes.

(** The first loop of [FindAttributeIndiciesReverse]: from [i] on, the
    first [{] that is not part of an escaped punctuation; the new [i] and
    [as] ([-1] if there is none). *)
Fixpoint find_open_brace (fuel : nat) (b : bytes) (i : Z) : result (Z * Z) :=
  match fuel with
  | O => OutOfFuel
  | S fuel =>
      if i <? len b then
        escaped <- IsEscapedPunctuation b i ;;
        if escaped then find_open_brace fuel b (i + 2)
        else
          c <- index b i ;;
          if (c =? "{")%byte then Ok (i + 1, i + 1)
          else find_open_brace fuel b (i + 1)
      else Ok (i, -1)
  end.

(** The second loop: attributes are read one after the other from [as]. *)
Fixpoint read_attributes (fuel : nat) (b : bytes) (canEscapeQuotes : bool)
    (i as_ : Z) (attrs : list attribute) : result (Z * Z * list attribute) :=
  match fuel with
  | O => OutOfFuel
  | S fuel =>
      if as_ <? len b then
        rest <- slice_from b as_ ;;
        '(ai, skip) <- FindAttributeIndex rest canEscapeQuotes ;;
        let '(a0, a1, a2, a3) := ai in
        if a0 <? 0 then Ok (i, as_, attrs)
        else
          let i := as_ + a3 in
          let attrs := attrs ++ [(as_ + a0, as_ + a1, as_ + a2, as_ + a3)] in
          read_attributes fuel b canEscapeQuotes i (as_ + (a3 + skip)) attrs
      else Ok (i, as_, attrs)
  end.

(** One pass per jump to the label [retry]; [attrs] is the variable
    [result] of the source.  The nil slice and the empty slice are both the
    empty list: [result] is only made non-nil right before an element is
    appended to it. *)
Fixpoint FindAttributeIndiciesReverse_retry (fuel : nat) (b : bytes)
    (canEscapeQuotes : bool) (i : Z) : result (list attribute) :=
  match fuel with
  | O => OutOfFuel
  | S fuel =>
      '(i, as_) <- find_open_brace (S (length b)) b i ;;
      if as_ <? 0 then Ok []
      else
        '(i, as_, attrs) <-
          read_attributes (S (length b)) b canEscapeQuotes i as_ [] ;;
        c <- index b as_ ;;
        closed <- (c =? "}")%byte &&>
                    (if len b - 2 <? as_ then Ok true
                     else rest <- slice_from b as_ ;; Ok (IsBlank rest)) ;;
        if closed then Ok attrs
        else FindAttributeIndiciesReverse_retry fuel b canEscapeQuotes i
  end.

Definition FindAttributeIndiciesReverse (b : bytes) (canEscapeQuotes : bool)
    : result (list attribute) :=
  FindAttributeIndiciesReverse_retry (S (length b)) b canEscapeQuotes 0.

(** ** Autolink detector *)

Definition FindURLIndex (b : bytes) : result Z :=
  let fuel := S (length b) in
  let i := 0 in
  first <- (0 <? len b) &&>
             (c <- index b i ;; Ok (Z.land (lookup urlTable c) 7 =? 7)) ;;
  if negb first then Ok (-1) else
  let i := i + 1 in
  i <- skip_while fuel (fun c => Z.land (lookup urlTable c) 4 =? 4) b (len b) i ;;
  if (i =? 1) || (33 <? i) || (len b <=? i) then Ok (-1) else
  c <- index b i ;;
  if negb (c =? ":")%byte then Ok (-1) else
  let i := i + 1 in
  i <- skip_while fuel (fun c => Z.land (lookup urlTable c) 1 =? 1) b (len b) i ;;
  Ok i.
(** ** Prioritized values *)

Section Prioritized.

(** The values held in the [interface{}] field, and Go's [==] on two of
    them.  The comparison is the Go runtime's, not code of [util.go], and
    is a parameter: it answers [Ok true] or [Ok false], or it panics, as Go
    does when both operands hold one dynamic type that is not comparable (a
    slice, a map, a function).  Nothing is assumed of it: it need not be
    reflexive (a floating-point NaN is not equal to itself). *)
Variable V : Type.
Variable Value_eq : V -> V -> result bool.

Record PrioritizedValue : Type := Prioritized {
  Value : V;
  Priority : Z
}.

Definition PrioritizedSlice : Type := list PrioritizedValue.

(** [for ; i < len(s); i++ { if s[i].Value == v { found = true; break } }] *)
Fixpoint Remove_find (fuel : nat) (s : PrioritizedSlice) (v : V) (i : Z)
    : result (Z * bool) :=
  match fuel with
  | O => OutOfFuel
  | S fuel =>
      if i <? len s then
        e <- index s i ;;
        equal <- Value_eq (Value e) v ;;
        if equal then Ok (i, true)
        else Remove_find fuel s v (i + 1)
      else Ok (i, false)
  end.

(** The slice that [s.Remove(v)] returns.  ([append(s[:i], s[i+1:]...)]
    builds it in the backing array of [s].) *)
Definition Remove (s : PrioritizedSlice) (v : V) : result PrioritizedSlice :=
  '(i, found) <- Remove_find (S (length s)) s v 0 ;;
  if negb found then Ok s
  else
    front <- slice s 0 i ;;
    back <- slice_from s (i + 1) ;;
    Ok (front ++ back).

End Prioritized.

Arguments Prioritized {V} Value Priority.
Arguments Value {V} p.
Arguments Priority {V} p.
Arguments Remove {V} Value_eq s v.

(** Three kinds of dynamic values that an [interface{}] can hold, and Go's
    [==] on them as the language specification defines it: two values of
    different dynamic types are not equal, integers and strings are
    compared by value, and the comparison of two slices panics. *)
Inductive go_value : Type :=
| GoInt (n : Z)
| GoString (s : string)
| GoSlice (elements : list Z).

Definition go_equal (x y : go_value) : result bool :=
  match x, y with
  | GoInt a, GoInt b => Ok (a =? b)
  | GoString a, GoString b => Ok (String.eqb a b)
  | GoSlice _, GoSlice _ => Panic
  | _, _ => Ok false
  end.

(** ** Inputs on which the escaping passes have nothing to do *)



(** The bytes that [URLEscape] leaves alone: [urlEscapeTable]. *)
Definition url_safe (c : byte) : bool := lookup urlEscapeTable c =? 1.


(** No [&] in [v]: no reference for [ResolveNumericReferences] or
    [ResolveEntityNames] to resolve. *)
Definition no_reference (v : bytes) : bool :=
  forallb (fun c => negb (c =? "&")%byte) v.


(** ** Inputs cut short *)

(** No backslash and no [{] in [v]. *)
Definition no_brace (v : bytes) : bool :=
  forallb (fun c => negb ((c =? "\")%byte || (c =? "{")%byte)) v.

(** What stops a scan: the end of the slice, or a byte that fails [p]. *)
Definition stops (p : byte -> bool) (rest : bytes) : bool :=
  match rest with
  | [] => true
  | d :: _ => negb (p d)
  end.

(** What the single-token scanners return: the not-found record, or a
    record that ends at least one byte into the slice. *)
Definition token_advances (r : attribute * Z) : Prop :=
  let '((a0, _, _, a3), skip) := r in a0 < 0 \/ (1 <= a3 /\ 0 <= skip).

(** ** Indentation *)

Definition tab : byte := "009"%byte.
Definition newline : byte := "010"%byte.

(** [4 - currentPos%4]; Go's [%] truncates toward zero. *)
Definition TabWidth (currentPos : Z) : Z := 4 - Z.rem currentPos 4.

Fixpoint DedentPosition_loop (fuel : nat) (bs : bytes) (width i w : Z)
    : result (Z * Z) :=
  match fuel with
  | O => OutOfFuel
  | S fuel =>
      if (i <? len bs) && (w <? width) then
        b <- index bs i ;;
        if (b =? " ")%byte then DedentPosition_loop fuel bs width (i + 1) (w + 1)
        else if (b =? tab)%byte then DedentPosition_loop fuel bs width (i + 1) (w + 4)
        else Ok (i, w)
      else Ok (i, w)
  end.

(** [(pos, padding)] *)
Definition DedentPosition (bs : bytes) (width : Z) : result (Z * Z) :=
  if width =? 0 then Ok (0, 0) else
  '(i, w) <- DedentPosition_loop (S (length bs)) bs width 0 0 ;;
  let padding := w - width in
  let padding := if padding <? 0 then 0 else padding in
  Ok (i, padding).



Fixpoint IndentWidth_loop (fuel : nat) (bs : bytes) (currentPos i width pos : Z)
    : result (Z * Z) :=
  match fuel with
  | O => OutOfFuel
  | S fuel =>
      if i <? len bs then
        b <- index bs i ;;
        if (b =? " ")%byte then
          IndentWidth_loop fuel bs currentPos (i + 1) (width + 1) (pos + 1)
        else if (b =? tab)%byte then
          IndentWidth_loop fuel bs currentPos (i + 1)
            (width + TabWidth (currentPos + width)) (pos + 1)
        else Ok (width, pos)
      else Ok (width, pos)
  end.

(** [(width, pos)] *)
Definition IndentWidth (bs : bytes) (currentPos : Z) : result (Z * Z) :=
  IndentWidth_loop (S (length bs)) bs currentPos 0 0 0.

Fixpoint FirstNonSpacePosition_loop (fuel : nat) (bs : bytes) (i : Z) : result Z :=
  match fuel with
  | O => OutOfFuel
  | S fuel =>
      if i <? len bs then
        c <- index bs i ;;
        if (c =? " ")%byte || (c =? tab)%byte then
          FirstNonSpacePosition_loop fuel bs (i + 1)
        else if (c =? newline)%byte then Ok (-1)
        else Ok i
      else Ok (-1)
  end.

Definition FirstNonSpacePosition (bs : bytes) : result Z :=
  FirstNonSpacePosition_loop (S (length bs)) bs 0.

(** ** Trimming *)

(** [for j := 0; j < len(b); j++ { if c == b[j] { found = true; break } }] *)
Fixpoint found_in (c : byte) (b : bytes) : bool :=
  match b with
  | [] => false
  | x :: b => if (c =? x)%byte then true else found_in c b
  end.

(** The loop shape [for ; i >= 0; i-- { if !p(b[i]) { break } }]: the first
    index from [i] down that is below 0 or whose byte fails [p]. *)
Fixpoint skip_back_while (fuel : nat) (p : byte -> bool) (b : bytes) (i : Z)
    : result Z :=
  match fuel with
  | O => OutOfFuel
  | S fuel =>
      if 0 <=? i then
        c <- index b i ;;
        if p c then skip_back_while fuel p b (i - 1) else Ok i
      else Ok i
  end.

Definition TrimLeft (source b : bytes) : result bytes :=
  i <- skip_while (S (length source)) (fun c => found_in c b) source (len source) 0 ;;
  slice_from source i.

Definition TrimRight (source b : bytes) : result bytes :=
  i <- skip_back_while (S (length source)) (fun c => found_in c b) source
         (len source - 1) ;;
  slice source 0 (i + 1).

Definition TrimLeftLength (source s : bytes) : result Z :=
  t <- TrimLeft source s ;; Ok (len source - len t).

Definition TrimRightLength (source s : bytes) : result Z :=
  t <- TrimRight source s ;; Ok (len source - len t).

Definition TrimLeftSpaceLength (source : bytes) : result Z :=
  skip_while (S (length source)) IsSpace source (len source) 0.

Definition TrimRightSpaceLength (source : bytes) : result Z :=
  let l := len source in
  i <- skip_back_while (S (length source)) IsSpace source (l - 1) ;;
  if i <? 0 then Ok l else Ok (l - 1 - i).

(** [[]byte(" \t\n\x0b\x0c\x0d")] *)
Definition spaces : bytes :=
  [" "; "009"; "010"; "011"; "012"; "013"]%byte.

Definition TrimLeftSpace (source : bytes) : result bytes := TrimLeft source spaces.

Definition TrimRightSpace (source : bytes) : result bytes := TrimRight source spaces.

(** The loop of [ReplaceSpaces] over the bytes [rest] still to read, the
    first of them at index [i].  [ret] is [None] while the slice [ret] of
    the source is nil. *)
Fixpoint ReplaceSpaces_loop (source : bytes) (repl : byte) (rest : bytes)
    (i : Z) (ret : option bytes) (start : Z) : result (option bytes * Z) :=
  match rest with
  | [] => Ok (ret, start)
  | c :: rest =>
      let iss := IsSpace c in
      if (start <? 0) && iss then
        ReplaceSpaces_loop source repl rest (i + 1) ret i
      else if (0 <=? start) && iss then
        ReplaceSpaces_loop source repl rest (i + 1) ret start
      else
        '(ret, start) <-
          (if 0 <=? start then
             ret <- match ret with
                    | None => slice source 0 start
                    | Some ret => Ok ret
                    end ;;
             Ok (Some (ret ++ [repl]), -1)
           else Ok (ret, start)) ;;
        let ret := match ret with
                   | Some ret => Some (ret ++ [c])
                   | None => None
                   end in
        ReplaceSpaces_loop source repl rest (i + 1) ret start
  end.

(** The slice [ret] when [ReplaceSpaces] returns: [None] when it is nil and
    the source itself is returned. *)
Definition ReplaceSpaces_ret (source : bytes) (repl : byte) : result (option bytes) :=
  '(ret, start) <- ReplaceSpaces_loop source repl source 0 None (-1) ;;
  match ret with
  | Some ret => if 0 <=? start then Ok (Some (ret ++ [repl])) else Ok (Some ret)
  | None => Ok None
  end.

Definition ReplaceSpaces (source : bytes) (repl : byte) : result bytes :=
  ret <- ReplaceSpaces_ret source repl ;;
  match ret with
  | None => Ok source
  | Some ret => Ok ret
  end.

(** ** Email autolinks *)

Section Email.

(** [emailDomainRegexp.FindSubmatchIndex(s)] of the Go [regexp] library,
    reduced to what [FindEmailIndex] uses of it: [None] for no match,
    [Some match1] for a match that ends at offset [match1] of [s].  The
    regular expression engine is a parameter. *)
Variable emailDomainRegexp_FindSubmatchIndex : bytes -> option Z.

Definition FindEmailIndex (b : bytes) : result Z :=
  i <- skip_while (S (length b)) (fun c => Z.land (lookup emailTable c) 1 =? 1)
         b (len b) 0 ;;
  if i =? 0 then Ok (-1) else
  no_at <- (if len b <=? i then Ok true
            else c <- index b i ;; Ok (negb (c =? "@")%byte)) ;;
  if no_at then Ok (-1) else
  let i := i + 1 in
  if len b <=? i then Ok (-1) else
  rest <- slice_from b i ;;
  match emailDomainRegexp_FindSubmatchIndex rest with
  | None => Ok (-1)
  | Some match1 => Ok (i + match1)
  end.

End Email.

(** ** Results without a panic *)

(** [r] is a value, and it satisfies [P]. *)
Definition returns {A : Type} (P : A -> Prop) (r : result A) : Prop :=
  match r with
  | Ok a => P a
  | _ => False
  end.

(** ** Runs of bytes *)

(** A space or a tab, the two bytes that the indentation scanners count. *)
Definition blank (c : byte) : bool := (c =? " ")%byte || (c =? tab)%byte.

(** The column reached from column [col] after the blanks [run], a tab
    moving to the next multiple of four. *)
Fixpoint column_after (col : Z) (run : bytes) : Z :=
  match run with
  | [] => col
  | c :: run =>
      column_after (if (c =? tab)%byte then col + TabWidth col else col + 1) run
  end.

(** The columns that [DedentPosition] counts for a run of blanks: one for a
    space and four for a tab, whatever the column. *)
Fixpoint dedent_columns (run : bytes) : Z :=
  match run with
  | [] => 0
  | c :: run => (if (c =? tab)%byte then 4 else 1) + dedent_columns run
  end.

(** ** Collapsed spaces *)

(** [s] with every run of space bytes replaced by one [repl]; [pending]
    tells that [s] continues a run of spaces. *)
Fixpoint collapse (repl : byte) (pending : bool) (s : bytes) : bytes :=
  match s with
  | [] => if pending then [repl] else []
  | c :: s =>
      if IsSpace c then collapse repl true s
      else (if pending then [repl] else []) ++ c :: collapse repl false s
  end.

(** ** Written output *)

(** What has been written to a buffer: nothing while it still borrows the
    slice it was created with. *)
Definition written (b : CopyOnWriteBuffer) : bytes :=
  if copied b then buffer b else [].

(** [source] with every backslash that stands before a punctuation byte
    removed, read from the left. *)
Fixpoint unescape (source : bytes) : bytes :=
  match source with
  | [] => []
  | c :: rest =>
      match rest with
      | c1 :: rest' =>
          if (c =? "\")%byte && IsPunct c1 then c1 :: unescape rest'
          else c :: unescape rest
      | [] => [c]
      end
  end.

(** What [EscapeHTML] writes for the byte [c]. *)
Definition escaped_byte (c : byte) : bytes :=
  match EscapeHTMLByte c with
  | Some escaped => escaped
  | None => [c]
  end.

(** What a single-token scanner returns on the slice [b]: the not-found
    record, or offsets that are in order and within the slice. *)
Definition token_in_range (b : bytes) (r : attribute * Z) : Prop :=
  let '((a0, a1, a2, a3), skip) := r in
  r = (not_found, 0)
  \/ (0 <= a0 /\ a0 <= a1 /\ a1 <= a2 /\ a2 <= a3 /\ a3 <= len b
      /\ 0 <= skip <= 1).

(** ** Numeric references *)

(** The number that a run of decimal digits denotes. *)
Definition decimal (digits : bytes) : Z :=
  fold_left (fun n c => 10 * n + (code c - code "0")) digits 0.

(** ** Escaped URLs *)

(** What [URLEscape] writes for an ASCII byte other than [%]: the byte
    itself when it is URL-safe, [%20] for a space, and its percent-encoding
    otherwise. *)
Definition url_escaped_byte (c : byte) : bytes :=
  if url_safe c then [c]
  else if (c =? " ")%byte then htmlSpace
  else QueryEscape [c].

(** An ASCII byte other than [%]. *)
Definition ascii_no_percent (c : byte) : bool :=
  (code c <? 128) && negb (c =? "%")%byte.

(** ** References that the resolving passes replace *)



Section ResolvedReferences.

Variable LookUpHTML5EntityByName : bytes -> option bytes.



End ResolvedReferences.

(** ** Go standard library: [sort.Slice]

    [PrioritizedSlice.Sort] is one call of [sort.Slice], code of Go's
    library and not of this package.  It is modelled as the Go releases 1.8
    to 1.18 implement it (file [sort/zfuncversion.go], generated from
    [sort/sort.go]): a quicksort with a median-of-three pivot that falls
    back to heapsort when it recurses too deep, and that finishes ranges of
    at most twelve elements with one Shell pass of gap 6 and an insertion
    sort.  Later releases sort with a pattern-defeating quicksort, which is
    not modelled.  [data.Less(i, j)] is the closure given to [sort.Slice],
    which reads the slice in its current state; [data.Swap] is
    [reflect.Swapper(x)]. *)

(** [x[i] = v] *)
Fixpoint update_nat {A : Type} (x : list A) (i : nat) (v : A) : list A :=
  match x, i with
  | [], _ => []
  | _ :: x, O => v :: x
  | y :: x, S i => y :: update_nat x i v
  end.

Definition update {A : Type} (x : list A) (i : Z) (v : A) : list A :=
  update_nat x (Z.to_nat i) v.

Section SortSlice.

Variable A : Type.

(** The closure [less func(i, j int) bool], applied to the slice as it is
    at the call. *)
Variable Less : list A -> Z -> Z -> result bool.

(** [data.Swap(i, j)]: [x[i], x[j] = x[j], x[i]]. *)
Definition Swap (data : list A) (i j : Z) : result (list A) :=
  xi <- index data i ;;
  xj <- index data j ;;
  Ok (update (update data i xj) j xi).

(** [for j := i; j > a && data.Less(j, j-1); j-- { data.Swap(j, j-1) }] *)
Fixpoint insertionSort_shift (fuel : nat) (data : list A) (a j : Z)
    : result (list A) :=
  match fuel with
  | O => OutOfFuel
  | S fuel =>
      lt <- (a <? j) &&> Less data j (j - 1) ;;
      if lt then
        data <- Swap data j (j - 1) ;;
        insertionSort_shift fuel data a (j - 1)
      else Ok data
  end.

(** [for i := a + 1; i < b; i++ { ... }] *)
Fixpoint insertionSort_loop (fuel : nat) (data : list A) (a b i : Z)
    : result (list A) :=
  match fuel with
  | O => OutOfFuel
  | S fuel =>
      if i <? b then
        data <- insertionSort_shift (S (Z.to_nat (i - a))) data a i ;;
        insertionSort_loop fuel data a b (i + 1)
      else Ok data
  end.

Definition insertionSort_func (data : list A) (a b : Z) : result (list A) :=
  insertionSort_loop (S (Z.to_nat (b - a))) data a b (a + 1).

(** The loop of [siftDown_func], entered with [root := lo]. *)
Fixpoint siftDown_loop (fuel : nat) (data : list A) (hi first root : Z)
    : result (list A) :=
  match fuel with
  | O => OutOfFuel
  | S fuel =>
      let child := 2 * root + 1 in
      if hi <=? child then Ok data
      else
        right <- (child + 1 <? hi) &&>
                   Less data (first + child) (first + child + 1) ;;
        let child := if right then child + 1 else child in
        lt <- Less data (first + root) (first + child) ;;
        if negb lt then Ok data
        else
          data <- Swap data (first + root) (first + child) ;;
          siftDown_loop fuel data hi first child
  end.

Definition siftDown_func (data : list A) (lo hi first : Z) : result (list A) :=
  siftDown_loop (S (Z.to_nat (hi - lo))) data hi first lo.

(** [for i := (hi - 1) / 2; i >= 0; i-- { siftDown_func(data, i, hi, first) }] *)
Fixpoint heapSort_build (fuel : nat) (data : list A) (hi first i : Z)
    : result (list A) :=
  match fuel with
  | O => OutOfFuel
  | S fuel =>
      if 0 <=? i then
        data <- siftDown_func data i hi first ;;
        heapSort_build fuel data hi first (i - 1)
      else Ok data
  end.

(** [for i := hi - 1; i >= 0; i-- {
       data.Swap(first, first+i); siftDown_func(data, lo, i, first) }] *)
Fixpoint heapSort_pop (fuel : nat) (data : list A) (lo first i : Z)
    : result (list A) :=
  match fuel with
  | O => OutOfFuel
  | S fuel =>
      if 0 <=? i then
        data <- Swap data first (first + i) ;;
        data <- siftDown_func data lo i first ;;
        heapSort_pop fuel data lo first (i - 1)
      else Ok data
  end.

(** Go's [/] on [int] truncates toward zero. *)
Definition heapSort_func (data : list A) (a b : Z) : result (list A) :=
  let first := a in
  let lo := 0 in
  let hi := b - a in
  data <- heapSort_build (S (S (Z.to_nat hi))) data hi first (Z.quot (hi - 1) 2) ;;
  heapSort_pop (S (Z.to_nat hi)) data lo first (hi - 1).

Definition medianOfThree_func (data : list A) (m1 m0 m2 : Z) : result (list A) :=
  lt <- Less data m1 m0 ;;
  data <- (if lt then Swap data m1 m0 else Ok data) ;;
  lt <- Less data m2 m1 ;;
  if lt then
    data <- Swap data m2 m1 ;;
    lt <- Less data m1 m0 ;;
    if lt then Swap data m1 m0 else Ok data
  else Ok data.

(** [for ; a < c && data.Less(a, pivot); a++ {}] *)
Fixpoint doPivot_skip_less (fuel : nat) (data : list A) (pivot c a : Z)
    : result Z :=
  match fuel with
  | O => OutOfFuel
  | S fuel =>
      lt <- (a <? c) &&> Less data a pivot ;;
      if lt then doPivot_skip_less fuel data pivot c (a + 1) else Ok a
  end.

(** [for ; b < c && !data.Less(pivot, b); b++ {}] *)
Fixpoint doPivot_skip_le (fuel : nat) (data : list A) (pivot c b : Z)
    : result Z :=
  match fuel with
  | O => OutOfFuel
  | S fuel =>
      le <- (b <? c) &&> (lt <- Less data pivot b ;; Ok (negb lt)) ;;
      if le then doPivot_skip_le fuel data pivot c (b + 1) else Ok b
  end.

(** [for ; b < c && data.Less(pivot, c-1); c-- {}] *)
Fixpoint doPivot_skip_gt (fuel : nat) (data : list A) (pivot b c : Z)
    : result Z :=
  match fuel with
  | O => OutOfFuel
  | S fuel =>
      gt <- (b <? c) &&> Less data pivot (c - 1) ;;
      if gt then doPivot_skip_gt fuel data pivot b (c - 1) else Ok c
  end.

(** The partitioning loop [for { ...; if b >= c { break };
    data.Swap(b, c-1); b++; c-- }]. *)
Fixpoint doPivot_partition (fuel : nat) (data : list A) (pivot b c : Z)
    : result (list A * Z * Z) :=
  match fuel with
  | O => OutOfFuel
  | S fuel =>
      b <- doPivot_skip_le (S (Z.to_nat (c - b))) data pivot c b ;;
      c <- doPivot_skip_gt (S (Z.to_nat (c - b))) data pivot b c ;;
      if c <=? b then Ok (data, b, c)
      else
        data <- Swap data b (c - 1) ;;
        doPivot_partition fuel data pivot (b + 1) (c - 1)
  end.

(** [for ; a < b && !data.Less(b-1, pivot); b-- {}] *)
Fixpoint doPivot_skip_ge (fuel : nat) (data : list A) (pivot a b : Z)
    : result Z :=
  match fuel with
  | O => OutOfFuel
  | S fuel =>
      ge <- (a <? b) &&> (lt <- Less data (b - 1) pivot ;; Ok (negb lt)) ;;
      if ge then doPivot_skip_ge fuel data pivot a (b - 1) else Ok b
  end.

(** The loop that protects against many duplicates of the pivot:
    [for { ...; if a >= b { break }; data.Swap(a, b-1); a++; b-- }]. *)
Fixpoint doPivot_protect (fuel : nat) (data : list A) (pivot a b : Z)
    : result (list A * Z) :=
  match fuel with
  | O => OutOfFuel
  | S fuel =>
      b <- doPivot_skip_ge (S (Z.to_nat (b - a))) data pivot a b ;;
      a <- doPivot_skip_less (S (Z.to_nat (b - a))) data pivot b a ;;
      if b <=? a then Ok (data, b)
      else
        data <- Swap data a (b - 1) ;;
        doPivot_protect fuel data pivot (a + 1) (b - 1)
  end.

(** The choice of the pivot, which ends in [data[lo]]: for more than 40
    elements Tukey's ninther, the median of three medians of three. *)
Definition doPivot_pivot (data : list A) (lo hi m : Z) : result (list A) :=
  data <- (if 40 <? hi - lo then
             let s := Z.quot (hi - lo) 8 in
             data <- medianOfThree_func data lo (lo + s) (lo + 2 * s) ;;
             data <- medianOfThree_func data m (m - s) (m + s) ;;
             medianOfThree_func data (hi - 1) (hi - 1 - s) (hi - 1 - 2 * s)
           else Ok data) ;;
  medianOfThree_func data lo m (hi - 1).

(** [if !protect && hi-c < (hi-lo)/4 { ... }]: with few elements above the
    pivot, three of them are tested for being equal to the pivot, and
    [protect] is set when two are.  The result is [(data, b, c, protect)]. *)
Definition doPivot_dups (data : list A) (pivot lo hi m b c : Z) (protect : bool)
    : result (list A * Z * Z * bool) :=
  if negb protect && (hi - c <? Z.quot (hi - lo) 4) then
    let dups := 0 in
    lt <- Less data pivot (hi - 1) ;;
    '(data, c, dups) <-
      (if negb lt then
         data <- Swap data c (hi - 1) ;; Ok (data, c + 1, dups + 1)
       else Ok (data, c, dups)) ;;
    lt <- Less data (b - 1) pivot ;;
    let '(b, dups) := if negb lt then (b - 1, dups + 1) else (b, dups) in
    lt <- Less data m pivot ;;
    '(data, b, dups) <-
      (if negb lt then
         data <- Swap data m (b - 1) ;; Ok (data, b - 1, dups + 1)
       else Ok (data, b, dups)) ;;
    Ok (data, b, c, 1 <? dups)
  else Ok (data, b, c, protect).

(** [doPivot_func(data, lo, hi)]: the result is [(data, midlo, midhi)]. *)
Definition doPivot_func (data : list A) (lo hi : Z) : result (list A * Z * Z) :=
  let m := Z.shiftr (lo + hi) 1 in
  data <- doPivot_pivot data lo hi m ;;
  let pivot := lo in
  let a := lo + 1 in
  let c := hi - 1 in
  a <- doPivot_skip_less (S (Z.to_nat (c - a))) data pivot c a ;;
  let b := a in
  '(data, b, c) <- doPivot_partition (S (Z.to_nat (c - b))) data pivot b c ;;
  let protect := hi - c <? 5 in
  '(data, b, c, protect) <- doPivot_dups data pivot lo hi m b c protect ;;
  '(data, b) <-
    (if protect then doPivot_protect (S (Z.to_nat (b - a))) data pivot a b
     else Ok (data, b)) ;;
  data <- Swap data pivot (b - 1) ;;
  Ok (data, b - 1, c).

(** [for i := a + 6; i < b; i++ {
       if data.Less(i, i-6) { data.Swap(i, i-6) } }] *)
Fixpoint quickSort_shell (fuel : nat) (data : list A) (b i : Z)
    : result (list A) :=
  match fuel with
  | O => OutOfFuel
  | S fuel =>
      if i <? b then
        lt <- Less data i (i - 6) ;;
        data <- (if lt then Swap data i (i - 6) else Ok data) ;;
        quickSort_shell fuel data b (i + 1)
      else Ok data
  end.

(** [quickSort_func(data, a, b, maxDepth)].  Each turn of its loop
    [for b-a > 12] takes one from [maxDepth], sorts the smaller side by a
    call of its own and goes on with the other side, which is the same as
    a second call on that side. *)
Fixpoint quickSort_func (maxDepth : nat) (data : list A) (a b : Z)
    : result (list A) :=
  if 12 <? b - a then
    match maxDepth with
    | O => heapSort_func data a b
    | S maxDepth =>
        '(data, mlo, mhi) <- doPivot_func data a b ;;
        if mlo - a <? b - mhi then
          data <- quickSort_func maxDepth data a mlo ;;
          quickSort_func maxDepth data mhi b
        else
          data <- quickSort_func maxDepth data mhi b ;;
          quickSort_func maxDepth data a mlo
    end
  else if 1 <? b - a then
    data <- quickSort_shell (S (Z.to_nat (b - a))) data b (a + 6) ;;
    insertionSort_func data a b
  else Ok data.

(** [for i := n; i > 0; i >>= 1 { depth++ }; return depth * 2] *)
Fixpoint maxDepth_loop (fuel : nat) (i depth : Z) : Z :=
  match fuel with
  | O => depth
  | S fuel =>
      if 0 <? i then maxDepth_loop fuel (Z.shiftr i 1) (depth + 1) else depth
  end.

Definition maxDepth (n : Z) : Z := maxDepth_loop (Z.to_nat n) n 0 * 2.

Definition sort_Slice (x : list A) : result (list A) :=
  let length := len x in
  quickSort_func (Z.to_nat (maxDepth length)) x 0 length.

End SortSlice.

Arguments Swap {A} data i j.
Arguments insertionSort_shift {A} Less fuel data a j.
Arguments insertionSort_loop {A} Less fuel data a b i.
Arguments insertionSort_func {A} Less data a b.
Arguments siftDown_loop {A} Less fuel data hi first root.
Arguments siftDown_func {A} Less data lo hi first.
Arguments heapSort_build {A} Less fuel data hi first i.
Arguments heapSort_pop {A} Less fuel data lo first i.
Arguments heapSort_func {A} Less data a b.
Arguments medianOfThree_func {A} Less data m1 m0 m2.
Arguments doPivot_skip_less {A} Less fuel data pivot c a.
Arguments doPivot_skip_le {A} Less fuel data pivot c b.
Arguments doPivot_skip_gt {A} Less fuel data pivot b c.
Arguments doPivot_partition {A} Less fuel data pivot b c.
Arguments doPivot_skip_ge {A} Less fuel data pivot a b.
Arguments doPivot_protect {A} Less fuel data pivot a b.
Arguments doPivot_pivot {A} Less data lo hi m.
Arguments doPivot_dups {A} Less data pivot lo hi m b c protect.
Arguments doPivot_func {A} Less data lo hi.
Arguments quickSort_shell {A} Less fuel data b i.
Arguments quickSort_func {A} Less maxDepth data a b.
Arguments sort_Slice {A} Less x.

(** ** Slices as arrays of keys

    What the sorting functions are shown to do is stated on the keys of
    the elements, [key] being the quantity that [Less] compares. *)

Section SortedByKey.

Variable A : Type.
Variable key : A -> Z.

(** The key of [data[i]]. *)
Definition key_at (data : list A) (i : Z) : Z :=
  match index data i with
  | Ok x => key x
  | _ => 0
  end.

(** [data'] is [data] with the elements at [i] and [j] exchanged. *)
Definition swapped (data : list A) (i j : Z) (data' : list A) : Prop :=
  len data' = len data /\ Permutation data data' /\
  forall k, key_at data' k =
            key_at data (if k =? i then j else if k =? j then i else k).

(** [data'] is [data] with the elements of [a <= k < b] rearranged. *)
Definition rearranged (a b : Z) (data data' : list A) : Prop :=
  len data' = len data /\ Permutation data data' /\
  (forall k, k < a \/ b <= k -> key_at data' k = key_at data k) /\
  (forall P : Z -> Prop,
     (forall k, a <= k < b -> P (key_at data k)) ->
     forall k, a <= k < b -> P (key_at data' k)).

(** Non-decreasing keys on [a <= k < b]. *)
Definition sorted_range (a b : Z) (data : list A) : Prop :=
  forall i j, a <= i -> i <= j -> j < b -> key_at data i <= key_at data j.

(** Around the pivot key [p], kept at [lo]: no more than [p] below [b],
    [p] from [b] to [c], no less than [p] from [c] on. *)
Definition partitioned (data : list A) (lo b c hi p : Z) : Prop :=
  key_at data lo = p /\
  (forall k, lo < k < b -> key_at data k <= p) /\
  (forall k, b <= k < c -> key_at data k = p) /\
  (forall k, c <= k < hi -> p <= key_at data k).

(** In the heap laid out from [first], node [i] is no less than its
    children below [hi]. *)
Definition heap_at (data : list A) (first hi i : Z) : Prop :=
  forall c, c = 2 * i + 1 \/ c = 2 * i + 2 -> c < hi ->
    key_at data (first + c) <= key_at data (first + i).

End SortedByKey.

Arguments key_at {A} key data i.
Arguments swapped {A} key data i j data'.
Arguments rearranged {A} key a b data data'.
Arguments sorted_range {A} key a b data.
Arguments partitioned {A} key data lo b c hi p.
Arguments heap_at {A} key data first hi i.

Section PrioritizedSort.

Variable V : Type.

(** [func(i, j int) bool { return s[i].Priority < s[j].Priority }] *)
Definition less (s : PrioritizedSlice V) (i j : Z) : result bool :=
  si <- index s i ;;
  sj <- index s j ;;
  Ok (Priority si <? Priority sj).

(** The slice after [s.Sort()]. *)
Definition Sort (s : PrioritizedSlice V) : result (PrioritizedSlice V) :=
  sort_Slice less s.

(** The entries of priority [p], in the order of the slice. *)
Definition with_priority (p : Z) (s : PrioritizedSlice V) : PrioritizedSlice V :=
  filter (fun e => Priority e =? p) s.

(** Non-decreasing priorities. *)
Definition ascending (s : PrioritizedSlice V) : Prop :=
  forall i j a b, (i < j)%nat ->
    nth_error s i = Some a -> nth_error s j = Some b ->
    Priority a <= Priority b.

(** Entries of equal priority keep their relative order from [s] to [s']. *)
Definition stable (s s' : PrioritizedSlice V) : Prop :=
  forall p, with_priority p s' = with_priority p s.

End PrioritizedSort.

Arguments less {V} s i j.
Arguments Sort {V} s.
Arguments with_priority {V} p s.
Arguments ascending {V} s.
Arguments stable {V} s s'.

(** * Properties *)

(** ** Slices and indices *)

Lemma len_nonneg {A : Type} (b : list A) : 0 <= len b.
Proof. unfold len. lia. Qed.

Lemma len_app {A : Type} (a b : list A) : len (a ++ b) = len a + len b.
Proof. unfold len. rewrite length_app. lia. Qed.

Lemma len_cons {A : Type} (c : A) (b : list A) : len (c :: b) = len b + 1.
Proof. unfold len. simpl length. lia. Qed.

Lemma len_nil {A : Type} : len (@nil A) = 0.
Proof. reflexivity. Qed.

Create Rewrite HintDb len.
#[local] Hint Rewrite @len_app @len_cons @len_nil : len.

Ltac len_simpl := autorewrite with len in *.

(** The byte right after a prefix. *)
Lemma index_after {A : Type} (pre : list A) (c : A) (rest : list A) :
  index (pre ++ c :: rest) (len pre) = Ok c.
Proof.
  unfold index.
  pose proof (len_nonneg pre) as Hp. pose proof (len_nonneg rest) as Hr.
  len_simpl.
  replace (0 <=? len pre) with true by (symmetry; apply Z.leb_le; lia).
  replace (len pre <? len pre + (len rest + 1)) with true
    by (symmetry; apply Z.ltb_lt; lia).
  simpl. unfold len. rewrite Nat2Z.id.
  rewrite nth_error_app2 by lia.
  replace (length pre - length pre)%nat with 0%nat by lia. reflexivity.
Qed.

Lemma index_after' {A : Type} (pre : list A) (c : A) (rest : list A) (i : Z) :
  i = len pre -> index (pre ++ c :: rest) i = Ok c.
Proof. intros ->. apply index_after. Qed.

(** Moving one byte from the suffix to the prefix. *)
Lemma app_cons_assoc {A : Type} (pre : list A) (c : A) (rest : list A) :
  pre ++ c :: rest = (pre ++ [c]) ++ rest.
Proof. rewrite <- app_assoc. reflexivity. Qed.

Lemma ltb_len_prefix {A : Type} (pre : list A) (c : A) (rest : list A) :
  (len pre <? len (pre ++ c :: rest)) = true.
Proof.
  apply Z.ltb_lt. pose proof (len_nonneg rest). len_simpl. lia.
Qed.

Lemma ltb_len_end {A : Type} (pre : list A) :
  (len pre <? len (pre ++ [])) = false.
Proof. apply Z.ltb_ge. len_simpl. lia. Qed.

(** ** Copy-on-write: inputs with nothing to transform *)






(** The loop of [ResolveNumericReferences] passes over bytes other than
    [&] without writing. *)
Lemma ResolveNumericReferences_loop_skip (plain : bytes) :
  forall (pre rest : bytes) (fuel : nat) (cob : CopyOnWriteBuffer) (n : Z),
    no_reference plain = true ->
    ResolveNumericReferences_loop (length plain + fuel) (pre ++ plain ++ rest)
      cob n (len pre)
    = ResolveNumericReferences_loop fuel (pre ++ plain ++ rest) cob n
        (len pre + len plain).
Proof.
  induction plain as [|c plain IH]; intros pre rest fuel cob n Hplain.
  - cbn [length Nat.add]. f_equal. len_simpl. lia.
  - cbn [length Nat.add ResolveNumericReferences_loop app].
    rewrite ltb_len_prefix, index_after. cbn [bind].
    simpl in Hplain. apply andb_true_iff in Hplain as [Hc Hplain].
    apply negb_true_iff in Hc. rewrite Hc.
    rewrite app_cons_assoc.
    replace (len pre + 1) with (len (pre ++ [c])) by (len_simpl; lia).
    rewrite IH by assumption.
    f_equal. len_simpl. lia.
Qed.

Section EntityNamesPlain.

Variable LookUpHTML5EntityByName : bytes -> option bytes.

Lemma ResolveEntityNames_loop_plain (suffix : bytes) :
  forall (pre : bytes) (fuel : nat) (cob : CopyOnWriteBuffer) (n : Z),
    (length suffix < fuel)%nat ->
    no_reference suffix = true ->
    ResolveEntityNames_loop LookUpHTML5EntityByName fuel (pre ++ suffix) cob n
      (len pre) = Ok (cob, n).
Proof.
  induction suffix as [|c suffix IH]; intros pre fuel cob n Hfuel Hplain;
    destruct fuel as [|fuel]; try (simpl in Hfuel; lia);
    cbn [ResolveEntityNames_loop].
  - rewrite ltb_len_end. reflexivity.
  - rewrite ltb_len_prefix, index_after. cbn [bind].
    simpl in Hplain. apply andb_true_iff in Hplain as [Hc Hplain].
    apply negb_true_iff in Hc. rewrite Hc.
    rewrite app_cons_assoc.
    replace (len pre + 1) with (len (pre ++ [c])) by (len_simpl; lia).
    apply IH; [simpl in Hfuel; lia | assumption].
Qed.



End EntityNamesPlain.

(** ** Attribute tokens *)

(** [skip_while] from the start of a run of bytes that all pass [p] stops
    right after the run. *)
Lemma skip_while_run (p : byte -> bool) (run : bytes) :
  forall (pre rest : bytes) (fuel : nat),
    (length run < fuel)%nat ->
    forallb p run = true ->
    stops p rest = true ->
    skip_while fuel p (pre ++ run ++ rest) (len (pre ++ run ++ rest)) (len pre)
    = Ok (len pre + len run).
Proof.
  induction run as [|c run IH]; intros pre rest fuel Hfuel Hrun Hstop;
    destruct fuel as [|fuel]; try (simpl in Hfuel; lia);
    cbn [skip_while app].
  - destruct rest as [|d rest].
    + rewrite ltb_len_end. f_equal. len_simpl. lia.
    + rewrite ltb_len_prefix, index_after. cbn [bind].
      simpl in Hstop. apply negb_true_iff in Hstop. rewrite Hstop.
      f_equal. len_simpl. lia.
  - rewrite ltb_len_prefix, index_after. cbn [bind].
    simpl in Hrun. apply andb_true_iff in Hrun as [Hc Hrun]. rewrite Hc.
    rewrite app_cons_assoc.
    replace (len pre + 1) with (len (pre ++ [c])) by (len_simpl; lia).
    rewrite IH by (simpl in Hfuel; lia || assumption).
    f_equal. len_simpl. lia.
Qed.

(** ** Prioritized slices *)

Lemma slice_middle {A : Type} (a b c : list A) :
  slice (a ++ b ++ c) (len a) (len a + len b) = Ok b.
Proof.
  unfold slice.
  pose proof (len_nonneg a). pose proof (len_nonneg b). pose proof (len_nonneg c).
  replace ((0 <=? len a) && (len a <=? len a + len b)
           && (len a + len b <=? len (a ++ b ++ c))) with true.
  - f_equal. unfold len. rewrite Nat2Z.id.
    rewrite skipn_app, skipn_all, Nat.sub_diag. cbn [app skipn].
    replace (Z.to_nat (Z.of_nat (length a) + Z.of_nat (length b) - Z.of_nat (length a)))
      with (length b) by lia.
    rewrite firstn_app, firstn_all, Nat.sub_diag. cbn [firstn].
    apply app_nil_r.
  - symmetry. rewrite !andb_true_iff, !Z.leb_le. len_simpl. lia.
Qed.

Lemma slice_prefix {A : Type} (a c : list A) :
  slice (a ++ c) 0 (len a) = Ok a.
Proof.
  pose proof (slice_middle [] a c) as H.
  cbn [app] in H. change (len []) with 0 in H. rewrite Z.add_0_l in H. exact H.
Qed.

Lemma slice_from_suffix {A : Type} (a c : list A) (i : Z) :
  i = len a -> slice_from (a ++ c) i = Ok c.
Proof.
  intros ->. unfold slice_from.
  pose proof (slice_middle a c []) as H. rewrite app_nil_r in H.
  replace (len (a ++ c)) with (len a + len c) by (len_simpl; lia). exact H.
Qed.

Section PrioritizedFacts.

Variable V : Type.
Variable Value_eq : V -> V -> result bool.

Abbreviation entry := (PrioritizedValue V).

(** The search loop of [Remove] runs over the entries whose value is
    compared with [v] and found different. *)
Lemma Remove_find_skip (l1 : list entry) (v : V) :
  forall (pre rest : list entry) (fuel : nat),
    (forall e, In e l1 -> Value_eq (Value e) v = Ok false) ->
    Remove_find V Value_eq (length l1 + fuel) (pre ++ l1 ++ rest) v (len pre)
    = Remove_find V Value_eq fuel (pre ++ l1 ++ rest) v (len pre + len l1).
Proof.
  induction l1 as [|x l1 IH]; intros pre rest fuel Hno.
  - cbn [length Nat.add]. f_equal. len_simpl. lia.
  - cbn [length Nat.add Remove_find app].
    rewrite ltb_len_prefix, index_after. cbn [bind].
    rewrite (Hno x) by (left; reflexivity). cbn [bind].
    rewrite app_cons_assoc.
    replace (len pre + 1) with (len (pre ++ [x])) by (len_simpl; lia).
    rewrite IH by (intros e He; apply Hno; right; assumption).
    f_equal. len_simpl. lia.
Qed.

Lemma Remove_absent (s : list entry) (v : V) :
  (forall e, In e s -> Value_eq (Value e) v = Ok false) ->
  Remove Value_eq s v = Ok s.
Proof.
  intros Hno. unfold Remove.
  pose proof (Remove_find_skip s v [] [] 1 Hno) as H.
  cbn [app] in H. rewrite app_nil_r in H. change (len []) with 0 in H.
  rewrite Z.add_0_l in H.
  replace (S (length s)) with (length s + 1)%nat by lia.
  rewrite H. cbn [Remove_find]. rewrite Z.ltb_irrefl. reflexivity.
Qed.

(** The search loop at the first entry whose comparison with [v] is not
    [false]. *)
Lemma Remove_find_first (l1 : list entry) (x : entry) (l2 : list entry) (v : V) :
  (forall e, In e l1 -> Value_eq (Value e) v = Ok false) ->
  Remove_find V Value_eq (S (length (l1 ++ x :: l2))) (l1 ++ x :: l2) v 0
  = (equal <- Value_eq (Value x) v ;;
     if equal then Ok (len l1, true)
     else Remove_find V Value_eq (S (length l2)) (l1 ++ x :: l2) v (len l1 + 1)).
Proof.
  intros Hno.
  pose proof (Remove_find_skip l1 v [] (x :: l2) (S (S (length l2))) Hno) as H.
  cbn [app] in H. change (len []) with 0 in H. rewrite Z.add_0_l in H.
  replace (S (length (l1 ++ x :: l2))) with (length l1 + S (S (length l2)))%nat
    by (rewrite length_app; simpl; lia).
  rewrite H. cbn [Remove_find].
  rewrite ltb_len_prefix, index_after. reflexivity.
Qed.

Lemma Remove_first (l1 : list entry) (x : entry) (l2 : list entry) (v : V) :
  (forall e, In e l1 -> Value_eq (Value e) v = Ok false) ->
  Value_eq (Value x) v = Ok true ->
  Remove Value_eq (l1 ++ x :: l2) v = Ok (l1 ++ l2).
Proof.
  intros Hno Hx. unfold Remove.
  rewrite Remove_find_first by assumption. rewrite Hx.
  cbn [bind negb]. rewrite slice_prefix. cbn [bind].
  rewrite app_cons_assoc.
  rewrite (slice_from_suffix (l1 ++ [x]) l2) by (len_simpl; lia).
  reflexivity.
Qed.

Lemma Remove_panic (l1 : list entry) (x : entry) (l2 : list entry) (v : V) :
  (forall e, In e l1 -> Value_eq (Value e) v = Ok false) ->
  Value_eq (Value x) v = Panic ->
  Remove Value_eq (l1 ++ x :: l2) v = Panic.
Proof.
  intros Hno Hx. unfold Remove.
  rewrite Remove_find_first by assumption. rewrite Hx. reflexivity.
Qed.

End PrioritizedFacts.

(** ** Inputs cut short *)

Lemma index_out_of_range {A : Type} (b : list A) (i : Z) :
  len b <= i -> index b i = Panic.
Proof.
  intros Hi. unfold index.
  replace (i <? len b) with false by (symmetry; apply Z.ltb_ge; assumption).
  rewrite andb_false_r. reflexivity.
Qed.

(** The search for [{] passes over bytes that are neither a backslash nor
    a [{]. *)
Lemma find_open_brace_skip (plain : bytes) :
  forall (pre rest : bytes) (fuel : nat),
    no_brace plain = true ->
    find_open_brace (length plain + fuel) (pre ++ plain ++ rest) (len pre)
    = find_open_brace fuel (pre ++ plain ++ rest) (len pre + len plain).
Proof.
  induction plain as [|c plain IH]; intros pre rest fuel Hplain.
  - cbn [length Nat.add]. f_equal. len_simpl. lia.
  - cbn [length Nat.add find_open_brace app].
    rewrite ltb_len_prefix. unfold IsEscapedPunctuation.
    rewrite index_after. cbn [bind].
    simpl in Hplain. apply andb_true_iff in Hplain as [Hc Hplain].
    apply negb_true_iff, orb_false_iff in Hc as [Hbs Hbr].
    rewrite Hbs, Hbr. cbn [and_then bind].
    rewrite app_cons_assoc.
    replace (len pre + 1) with (len (pre ++ [c])) by (len_simpl; lia).
    rewrite IH by assumption.
    f_equal. len_simpl. lia.
Qed.

(** ** Iteration bounds

    Every loop advances its index by at least one per iteration, so the
    bound of one iteration more than the slice has bytes is never
    exhausted: no call ends in [OutOfFuel]. *)

Lemma within_fuel_bind {A B : Type} (P : A -> Prop) (Q : B -> Prop)
    (r : result A) (k : A -> result B) :
  within_fuel P r ->
  (forall a, P a -> within_fuel Q (k a)) ->
  within_fuel Q (bind r k).
Proof. destruct r; simpl; auto. Qed.

Lemma within_fuel_weaken {A : Type} (P Q : A -> Prop) (r : result A) :
  within_fuel P r -> (forall a, P a -> Q a) -> within_fuel Q r.
Proof. destruct r; simpl; auto. Qed.

Lemma within_fuel_index {A : Type} (b : list A) (i : Z) :
  within_fuel (fun _ => 0 <= i < len b) (index b i).
Proof.
  unfold index.
  destruct (0 <=? i) eqn:H0; destruct (i <? len b) eqn:H1; simpl; auto.
  apply Z.leb_le in H0. apply Z.ltb_lt in H1.
  destruct (nth_error b (Z.to_nat i)); simpl; auto.
Qed.

Lemma within_fuel_slice {A : Type} (b : list A) (lo hi : Z) :
  within_fuel (fun s => len s = hi - lo /\ 0 <= lo <= hi /\ hi <= len b)
    (slice b lo hi).
Proof.
  unfold slice.
  destruct (0 <=? lo) eqn:H0; destruct (lo <=? hi) eqn:H1;
    destruct (hi <=? len b) eqn:H2; simpl; auto.
  apply Z.leb_le in H0, H1, H2. unfold len in *.
  rewrite length_firstn, length_skipn. lia.
Qed.

Lemma within_fuel_and_then (a : bool) (rb : result bool) :
  within_fuel (fun _ => True) rb -> within_fuel (fun _ => True) (a &&> rb).
Proof. destruct a; simpl; auto. Qed.

Lemma bind_assoc {A B C : Type} (r : result A) (f : A -> result B)
    (g : B -> result C) :
  bind (bind r f) g = bind r (fun a => bind (f a) g).
Proof. destruct r; reflexivity. Qed.

(** One step of a proof that a monadic expression stays within its bound:
    the reads first, then the branches. *)
Ltac fuel_step :=
  match goal with
  | |- within_fuel _ (Ok _) => cbn [within_fuel]
  | |- within_fuel _ Panic => exact I
  | |- within_fuel _ (bind (bind _ _) _) => rewrite bind_assoc
  | |- within_fuel _ (bind (Ok _) _) => cbn [bind]
  | |- within_fuel _ (bind (index _ _) _) =>
      eapply within_fuel_bind; [apply within_fuel_index | cbv beta; intros ? ?]
  | |- within_fuel _ (bind (slice _ _ _) _) =>
      eapply within_fuel_bind; [apply within_fuel_slice | cbv beta; intros ? ?]
  | |- within_fuel _ (bind (slice_from _ _) _) =>
      unfold slice_from;
      eapply within_fuel_bind; [apply within_fuel_slice | cbv beta; intros ? ?]
  | |- within_fuel _ (bind (_ &&> _) _) =>
      eapply within_fuel_bind;
      [apply within_fuel_and_then | cbv beta; intros ? _]
  | |- within_fuel _ (_ &&> _) => apply within_fuel_and_then
  | |- within_fuel _ (if ?c then _ else _) => destruct c eqn:?
  | |- within_fuel _ (let '(_, _) := ?p in _) => destruct p
  end.

Ltac fuel_arith :=
  repeat match goal with
         | H : (_ <? _) = true |- _ => apply Z.ltb_lt in H
         | H : (_ <? _) = false |- _ => apply Z.ltb_ge in H
         | H : (_ <=? _) = true |- _ => apply Z.leb_le in H
         | H : (_ <=? _) = false |- _ => apply Z.leb_gt in H
         | H : (_ =? _) = true |- _ => apply Z.eqb_eq in H
         | H : (_ =? _) = false |- _ => apply Z.eqb_neq in H
         | H : _ /\ _ |- _ => destruct H
         end;
  try lia.

Lemma skip_while_within (p : byte -> bool) (b : bytes) (l : Z) (fuel : nat) :
  forall i : Z,
    (Z.to_nat (l - i) < fuel)%nat ->
    within_fuel (fun j => i <= j /\ (j <= l \/ j = i)) (skip_while fuel p b l i).
Proof.
  induction fuel as [|fuel IH]; intros i Hfuel; [lia|].
  cbn [skip_while]. repeat fuel_step; fuel_arith.
  eapply within_fuel_weaken; [apply IH; fuel_arith|].
  cbv beta. intros j Hj. fuel_arith.
Qed.

Lemma ReadWhile_within (source : bytes) (start stop : Z) (pred : byte -> bool) :
  within_fuel (fun r => start <= fst r) (ReadWhile source (start, stop) pred).
Proof.
  unfold ReadWhile. cbn [fst snd].
  generalize false as ok.
  assert (H : forall fuel j ok,
             (Z.to_nat (stop - j) < fuel)%nat ->
             within_fuel (fun r => j <= fst r)
               (ReadWhile_loop fuel source stop pred j ok)).
  { induction fuel as [|fuel IH]; intros j ok Hfuel; [lia|].
    cbn [ReadWhile_loop]. repeat fuel_step; cbn [fst]; fuel_arith.
    eapply within_fuel_weaken; [apply IH; fuel_arith|].
    cbv beta. intros r Hr. lia. }
  intros ok. apply H. lia.
Qed.

Lemma backtick_run_within (bs : bytes) (fuel : nat) :
  forall i count : Z,
    (Z.to_nat (len bs - i) < fuel)%nat ->
    within_fuel (fun r => i <= fst r) (backtick_run fuel bs i count).
Proof.
  induction fuel as [|fuel IH]; intros i count Hfuel; [lia|].
  cbn [backtick_run]. repeat fuel_step; cbn [fst]; fuel_arith.
  eapply within_fuel_weaken; [apply IH; fuel_arith|].
  cbv beta. intros r Hr. lia.
Qed.

Lemma FindClosure_loop_within (bs : bytes) (opener closure : byte)
    (codeSpan allowNesting : bool) (fuel : nat) :
  forall i opened codeSpanOpener : Z,
    0 <= i ->
    (Z.to_nat (len bs - i) < fuel)%nat ->
    within_fuel (fun r => -1 <= r < len bs)
      (FindClosure_loop fuel bs opener closure codeSpan allowNesting
         i opened codeSpanOpener).
Proof.
  pose proof (len_nonneg bs) as Hlen.
  induction fuel as [|fuel IH]; intros i opened cso Hi Hfuel; [lia|].
  cbn [FindClosure_loop]. cbv zeta.
  repeat first
    [ fuel_step
    | eapply within_fuel_bind;
      [ apply backtick_run_within; unfold len; lia
      | cbv beta; intros [? ?] ?; cbn [fst] in *; cbv beta iota ] ];
    fuel_arith; try (apply IH; fuel_arith).
Qed.

(** [FindClosure] stays within its bound, and what it returns is -1 or an
    offset into the slice. *)
Lemma FindClosure_within (bs : bytes) (opener closure : byte)
    (codeSpan allowNesting : bool) :
  within_fuel (fun r => -1 <= r < len bs)
    (FindClosure bs opener closure codeSpan allowNesting).
Proof.
  unfold FindClosure. apply FindClosure_loop_within; unfold len; lia.
Qed.

Lemma EscapeHTML_within (v : bytes) :
  within_fuel (fun _ => True) (EscapeHTML v).
Proof.
  assert (H : forall fuel i cob n,
             (Z.to_nat (len v - i) < fuel)%nat ->
             within_fuel (fun _ => True) (EscapeHTML_loop fuel v cob n i)).
  { induction fuel as [|fuel IH]; intros i cob n Hfuel; [lia|].
    cbn [EscapeHTML_loop].
    repeat first [fuel_step | destruct (htmlEscapeTable _)];
      fuel_arith; try exact I; apply IH; fuel_arith. }
  unfold EscapeHTML, EscapeHTML_cob.
  eapply within_fuel_bind with (P := fun _ => True); [|intros ? _; exact I].
  eapply within_fuel_bind; [apply H; unfold len; lia|].
  cbv beta. intros [cob n] _. repeat fuel_step; exact I.
Qed.

Lemma UnescapePunctuations_within (source : bytes) :
  within_fuel (fun _ => True) (UnescapePunctuations source).
Proof.
  assert (H : forall fuel i cob n,
             (Z.to_nat (len source - i) < fuel)%nat ->
             within_fuel (fun _ => True)
               (UnescapePunctuations_loop fuel source cob n i)).
  { induction fuel as [|fuel IH]; intros i cob n Hfuel; [lia|].
    cbn [UnescapePunctuations_loop]. cbv zeta.
    repeat fuel_step; fuel_arith; try exact I; apply IH; fuel_arith. }
  unfold UnescapePunctuations, UnescapePunctuations_cob.
  eapply within_fuel_bind with (P := fun _ => True); [|intros ? _; exact I].
  eapply within_fuel_bind; [apply H; unfold len; lia|].
  cbv beta. intros [cob n] _. repeat fuel_step; exact I.
Qed.

(** A call of [ReadWhile] inside a loop body. *)
Ltac fuel_read_while :=
  match goal with
  | |- within_fuel _ (bind (ReadWhile _ _ _) _) =>
      eapply within_fuel_bind;
      [ apply ReadWhile_within
      | cbv beta; intros [? ?] ?; cbn [fst] in *; cbv beta iota ]
  end.

Lemma ResolveNumericReferences_within (source : bytes) :
  within_fuel (fun _ => True) (ResolveNumericReferences source).
Proof.
  assert (H : forall fuel i cob n,
             (Z.to_nat (len source - i) < fuel)%nat ->
             within_fuel (fun _ => True)
               (ResolveNumericReferences_loop fuel source cob n i)).
  { induction fuel as [|fuel IH]; intros i cob n Hfuel; [lia|].
    cbn [ResolveNumericReferences_loop]. cbv zeta. unfold write_rune.
    repeat first [fuel_step | fuel_read_while];
      fuel_arith; try exact I; apply IH; fuel_arith. }
  unfold ResolveNumericReferences, ResolveNumericReferences_cob.
  eapply within_fuel_bind with (P := fun _ => True); [|intros ? _; exact I].
  eapply within_fuel_bind; [apply H; unfold len; lia|].
  cbv beta. intros [cob n] _. repeat fuel_step; exact I.
Qed.

Lemma utf8lenTable_positive (c : byte) : 1 <= lookup utf8lenTable c.
Proof. destruct c; vm_compute; discriminate. Qed.

Section EntityNamesWithin.

Variable LookUpHTML5EntityByName : bytes -> option bytes.

Lemma ResolveEntityNames_within (source : bytes) :
  within_fuel (fun _ => True)
    (ResolveEntityNames LookUpHTML5EntityByName source).
Proof.
  assert (H : forall fuel i cob n,
             (Z.to_nat (len source - i) < fuel)%nat ->
             within_fuel (fun _ => True)
               (ResolveEntityNames_loop LookUpHTML5EntityByName fuel source
                  cob n i)).
  { induction fuel as [|fuel IH]; intros i cob n Hfuel; [lia|].
    cbn [ResolveEntityNames_loop]. cbv zeta.
    repeat first [fuel_step | fuel_read_while
                 | destruct (LookUpHTML5EntityByName _)];
      fuel_arith; try exact I; apply IH; fuel_arith. }
  unfold ResolveEntityNames, ResolveEntityNames_cob.
  eapply within_fuel_bind with (P := fun _ => True); [|intros ? _; exact I].
  eapply within_fuel_bind; [apply H; unfold len; lia|].
  cbv beta. intros [cob n] _. repeat fuel_step; exact I.
Qed.

Lemma URLEscape_within (v : bytes) (resolveReference : bool) :
  within_fuel (fun _ => True)
    (URLEscape LookUpHTML5EntityByName v resolveReference).
Proof.
  assert (H : forall (v : bytes) fuel i cob n,
             (Z.to_nat (len v - i) < fuel)%nat ->
             within_fuel (fun _ => True) (URLEscape_loop fuel v cob n i)).
  { clear v. intros v.
    induction fuel as [|fuel IH]; intros i cob n Hfuel; [lia|].
    cbn [URLEscape_loop]. cbv zeta.
    repeat fuel_step; fuel_arith; try exact I; apply IH; fuel_arith.
    match goal with
    | |- context [lookup utf8lenTable ?c] =>
        pose proof (utf8lenTable_positive c); lia
    end. }
  unfold URLEscape, URLEscape_cob.
  eapply within_fuel_bind with (P := fun _ => True); [|intros ? _; exact I].
  eapply within_fuel_bind with (P := fun _ => True).
  - destruct resolveReference; [|exact I].
    eapply within_fuel_bind; [apply UnescapePunctuations_within|].
    intros v1 _.
    eapply within_fuel_bind; [apply ResolveNumericReferences_within|].
    intros v2 _. apply ResolveEntityNames_within.
  - intros v' _.
    eapply within_fuel_bind; [apply H; unfold len; lia|].
    cbv beta. intros [cob n] _. repeat fuel_step; exact I.
Qed.

End EntityNamesWithin.

(** *** Attribute scanners *)

(** A call of [skip_while] over the whole slice [b]. *)
Ltac fuel_skip_while :=
  match goal with
  | |- within_fuel _ (bind (skip_while _ _ _ _ _) _) =>
      eapply within_fuel_bind;
      [ apply skip_while_within; unfold len in *; lia
      | cbv beta; intros ? ? ]
  end.

Lemma quoted_value_within (b : bytes) (canEscapeQuotes : bool) (q : byte)
    (r0 r1 i : Z) :
  0 <= i ->
  within_fuel token_advances (quoted_value b canEscapeQuotes q r0 r1 i).
Proof.
  intros Hi. unfold quoted_value. cbv zeta.
  destruct canEscapeQuotes.
  - fuel_step.
    eapply within_fuel_bind; [apply FindClosure_within | cbv beta; intros pos Hpos].
    repeat fuel_step; unfold token_advances, not_found; fuel_arith.
  - fuel_skip_while.
    eapply within_fuel_bind with (P := fun _ => True);
      [repeat fuel_step; exact I | intros ? _].
    repeat fuel_step; unfold token_advances, not_found; fuel_arith.
Qed.

Lemma FindHTMLAttributeIndex_within (b : bytes) (canEscapeQuotes : bool) :
  within_fuel token_advances (FindHTMLAttributeIndex b canEscapeQuotes).
Proof.
  unfold FindHTMLAttributeIndex. cbv zeta.
  repeat first
    [ fuel_skip_while
    | match goal with
      | |- within_fuel _ (quoted_value _ _ _ _ _ _) =>
          apply quoted_value_within; fuel_arith
      end
    | fuel_step ];
    unfold token_advances, not_found; fuel_arith.
Qed.

Lemma FindAttributeIndex_within (b : bytes) (canEscapeQuotes : bool) :
  within_fuel token_advances (FindAttributeIndex b canEscapeQuotes).
Proof.
  unfold FindAttributeIndex. cbv zeta.
  repeat first
    [ fuel_skip_while
    | match goal with
      | |- within_fuel _ (FindHTMLAttributeIndex _ _) =>
          apply FindHTMLAttributeIndex_within
      end
    | fuel_step ];
    unfold token_advances, not_found; fuel_arith.
Qed.

Lemma IsEscapedPunctuation_within (source : bytes) (i : Z) :
  within_fuel (fun _ => 0 <= i < len source) (IsEscapedPunctuation source i).
Proof.
  unfold IsEscapedPunctuation. fuel_step.
  eapply within_fuel_weaken with (P := fun _ => True);
    [repeat fuel_step; exact I | auto].
Qed.

Lemma find_open_brace_within (b : bytes) (fuel : nat) :
  forall i : Z,
    0 <= i ->
    (Z.to_nat (len b - i) < fuel)%nat ->
    within_fuel
      (fun r => snd r = -1 \/ (snd r = fst r /\ i < fst r <= len b))
      (find_open_brace fuel b i).
Proof.
  induction fuel as [|fuel IH]; intros i Hi Hfuel; [lia|].
  cbn [find_open_brace].
  destruct (i <? len b) eqn:Hlt; [|cbn; auto].
  eapply within_fuel_bind;
    [apply IsEscapedPunctuation_within | cbv beta; intros escaped Hrange].
  repeat fuel_step; cbn [fst snd]; fuel_arith;
    (eapply within_fuel_weaken; [apply IH; fuel_arith|]);
    cbv beta; intros [i' as_]; cbn [fst snd]; lia.
Qed.

Lemma read_attributes_within (b : bytes) (canEscapeQuotes : bool) (fuel : nat) :
  forall (i as_ : Z) (attrs : list attribute),
    0 <= i <= as_ ->
    (Z.to_nat (len b - as_) < fuel)%nat ->
    within_fuel (fun r => i <= fst (fst r))
      (read_attributes fuel b canEscapeQuotes i as_ attrs).
Proof.
  induction fuel as [|fuel IH]; intros i as_ attrs Hi Hfuel; [lia|].
  cbn [read_attributes].
  destruct (as_ <? len b) eqn:Hlt; [|cbn; lia].
  fuel_step.
  eapply within_fuel_bind;
    [apply FindAttributeIndex_within | cbv beta].
  intros [[[[a0 a1] a2] a3] skip] Htoken. cbv beta iota.
  unfold token_advances in Htoken.
  destruct (a0 <? 0) eqn:Ha0; [cbn; lia|].
  fuel_arith.
  eapply within_fuel_weaken; [apply IH; fuel_arith|].
  cbv beta. intros r Hr. lia.
Qed.

Lemma FindAttributeIndiciesReverse_within (b : bytes) (canEscapeQuotes : bool) :
  within_fuel (fun _ => True) (FindAttributeIndiciesReverse b canEscapeQuotes).
Proof.
  unfold FindAttributeIndiciesReverse.
  assert (H : forall fuel i,
             0 <= i ->
             (Z.to_nat (len b - i) < fuel)%nat ->
             within_fuel (fun _ => True)
               (FindAttributeIndiciesReverse_retry fuel b canEscapeQuotes i)).
  { induction fuel as [|fuel IH]; intros i Hi Hfuel; [lia|].
    cbn [FindAttributeIndiciesReverse_retry].
    eapply within_fuel_bind;
      [apply find_open_brace_within; unfold len; lia | cbv beta].
    intros [i1 as_] Hbrace. cbn [fst snd] in Hbrace. cbv beta iota.
    destruct (as_ <? 0) eqn:Has; [exact I|]. fuel_arith.
    eapply within_fuel_bind;
      [apply read_attributes_within; unfold len; lia | cbv beta].
    intros [[i2 as2] attrs] Hread. cbn [fst] in Hread. cbv beta iota.
    repeat fuel_step; try exact I. apply IH; lia. }
  apply H; unfold len; lia.
Qed.

Lemma FindURLIndex_within (b : bytes) :
  within_fuel (fun r => -1 <= r) (FindURLIndex b).
Proof.
  unfold FindURLIndex. cbv zeta.
  eapply within_fuel_bind with (P := fun _ => True);
    [repeat fuel_step; exact I | intros first _].
  repeat first [fuel_skip_while | fuel_step]; fuel_arith.
Qed.
(** * Further properties *)

(** ** Reads and slices in range *)

Lemma returns_bind {A B : Type} (P : A -> Prop) (Q : B -> Prop)
    (r : result A) (k : A -> result B) :
  returns P r ->
  (forall a, P a -> returns Q (k a)) ->
  returns Q (bind r k).
Proof. destruct r; simpl; auto; contradiction. Qed.

Lemma returns_weaken {A : Type} (P Q : A -> Prop) (r : result A) :
  returns P r -> (forall a, P a -> Q a) -> returns Q r.
Proof. destruct r; simpl; auto. Qed.

Lemma index_in_range {A : Type} (b : list A) (i : Z) :
  0 <= i < len b -> exists c, index b i = Ok c.
Proof.
  intros Hi. unfold index.
  replace (0 <=? i) with true by (symmetry; apply Z.leb_le; lia).
  replace (i <? len b) with true by (symmetry; apply Z.ltb_lt; lia).
  simpl. destruct (nth_error b (Z.to_nat i)) eqn:E; [eauto|].
  apply nth_error_None in E. unfold len in Hi. lia.
Qed.

(** Every slice splits into its longest prefix of bytes that pass [p] and
    a rest that stops the scan. *)
Lemma span (p : byte -> bool) (b : bytes) :
  exists pre rest,
    b = pre ++ rest /\ forallb p pre = true /\ stops p rest = true.
Proof.
  induction b as [|c b (pre & rest & E & Hpre & Hrest)].
  - exists [], []. auto.
  - destruct (p c) eqn:Hc.
    + exists (c :: pre), rest. subst b. simpl. rewrite Hc. auto.
    + exists [], (c :: b). simpl. rewrite Hc. auto.
Qed.

(** The same from the right: the longest suffix of bytes that pass [p]. *)
Lemma span_right (p : byte -> bool) (b : bytes) :
  exists rest suf,
    b = rest ++ suf /\ forallb p suf = true /\ stops p (rev rest) = true.
Proof.
  destruct (span p (rev b)) as (pre & rest & E & Hpre & Hrest).
  exists (rev rest), (rev pre). rewrite rev_involutive. repeat split.
  - rewrite <- rev_app_distr, <- E, rev_involutive. reflexivity.
  - rewrite forallb_forall in *. intros x Hx. apply Hpre, in_rev, Hx.
  - assumption.
Qed.

(** ** Indentation *)

Lemma TabWidth_bounds (p : Z) :
  0 <= p -> 1 <= TabWidth p <= 4 /\ (p + TabWidth p) mod 4 = 0.
Proof.
  intros Hp. unfold TabWidth. rewrite Z.rem_mod_nonneg by lia.
  pose proof (Z.mod_pos_bound p 4 ltac:(lia)) as Hm.
  split; [lia|].
  rewrite (Z.div_mod p 4) at 1 by lia.
  replace (4 * (p / 4) + p mod 4 + (4 - p mod 4)) with ((p / 4 + 1) * 4) by lia.
  apply Z.mod_mul. lia.
Qed.

(** X1: for a column [p >= 0], [TabWidth p] is between 1 and 4 and leads
    to the next tab stop: [p + TabWidth p] is the least multiple of 4
    above [p]. *)
Theorem TabWidth_next_tab_stop (p : Z) :
  0 <= p ->
  1 <= TabWidth p <= 4 /\ (p + TabWidth p) mod 4 = 0.
Proof.
  intros Hp. unfold TabWidth. rewrite Z.rem_mod_nonneg by lia.
  pose proof (Z.mod_pos_bound p 4 ltac:(lia)) as Hm.
  split; [lia|].
  rewrite (Z.div_mod p 4) at 1 by lia.
  replace (4 * (p / 4) + p mod 4 + (4 - p mod 4)) with ((p / 4 + 1) * 4) by lia.
  apply Z.mod_mul. lia.
Qed.

Lemma TabWidth_next_tab_stop_witness :
  1 <= TabWidth 6 <= 4 /\ (6 + TabWidth 6) mod 4 = 0.
Proof. apply (TabWidth_next_tab_stop 6). lia. Defined.

Lemma blank_cases (c : byte) :
  blank c = true -> c = " "%byte \/ c = tab.
Proof. destruct c; try discriminate; auto. Qed.

Lemma not_blank (d : byte) :
  negb (blank d) = true -> (d =? " ")%byte = false /\ (d =? tab)%byte = false.
Proof.
  intros H. apply negb_true_iff in H. unfold blank in H.
  apply orb_false_iff in H. exact H.
Qed.

Lemma column_after_app (a b : bytes) :
  forall col, column_after col (a ++ b) = column_after (column_after col a) b.
Proof. induction a as [|c a IH]; intros col; simpl; [reflexivity | apply IH]. Qed.

Lemma column_after_bounds (run : bytes) :
  forall col, 0 <= col ->
    col + len run <= column_after col run <= col + 4 * len run.
Proof.
  induction run as [|c run IH]; intros col Hcol; cbn [column_after].
  - len_simpl. lia.
  - pose proof (TabWidth_bounds col Hcol) as [Ht _].
    len_simpl. destruct (c =? tab)%byte.
    + specialize (IH (col + TabWidth col) ltac:(lia)). lia.
    + specialize (IH (col + 1) ltac:(lia)). lia.
Qed.

Lemma IndentWidth_loop_run (run : bytes) :
  forall (done rest : bytes) (fuel : nat) (currentPos w pos : Z),
    (length run < fuel)%nat ->
    forallb blank run = true ->
    stops blank rest = true ->
    IndentWidth_loop fuel (done ++ run ++ rest) currentPos (len done) w pos
    = Ok (column_after (currentPos + w) run - currentPos, pos + len run).
Proof.
  induction run as [|c run IH]; intros done rest fuel cp w pos Hfuel Hrun Hstop;
    destruct fuel as [|fuel]; try (simpl in Hfuel; lia);
    cbn [IndentWidth_loop app column_after].
  - destruct rest as [|d rest].
    + rewrite ltb_len_end. f_equal. f_equal; len_simpl; lia.
    + rewrite ltb_len_prefix, index_after. cbn [bind].
      simpl in Hstop. apply not_blank in Hstop as [-> ->].
      f_equal. f_equal; len_simpl; lia.
  - rewrite ltb_len_prefix, index_after. cbn [bind].
    simpl in Hrun. apply andb_true_iff in Hrun as [Hc Hrun].
    rewrite app_cons_assoc.
    replace (len done + 1) with (len (done ++ [c])) by (len_simpl; lia).
    simpl in Hfuel.
    apply blank_cases in Hc as [-> | ->].
    + change (" " =? " ")%byte with true. change (" " =? tab)%byte with false.
      cbv iota. rewrite IH by (lia || assumption).
      f_equal. f_equal; [f_equal; f_equal; lia | len_simpl; lia].
    + change (tab =? " ")%byte with false. change (tab =? tab)%byte with true.
      cbv iota. rewrite IH by (lia || assumption).
      f_equal. f_equal; [f_equal; f_equal; lia | len_simpl; lia].
Qed.

Lemma IndentWidth_run (run rest : bytes) (currentPos : Z) :
  forallb blank run = true ->
  stops blank rest = true ->
  IndentWidth (run ++ rest) currentPos
  = Ok (column_after currentPos run - currentPos, len run).
Proof.
  intros Hrun Hstop. unfold IndentWidth.
  pose proof (IndentWidth_loop_run run [] rest (S (length (run ++ rest)))
                currentPos 0 0) as H.
  cbn [app] in H. change (len []) with 0 in H.
  rewrite H; [| rewrite length_app; lia | assumption | assumption].
  rewrite Z.add_0_r. reflexivity.
Qed.

(** X2: [IndentWidth] counts the blanks (spaces and tabs) at the start of
    the slice: the position is their number, the width lies between that
    number and four times it, and after a final tab the column
    [currentPos + width] is a tab stop. *)
Theorem IndentWidth_leading_blanks (pre rest : bytes) (currentPos : Z) :
  0 <= currentPos ->
  forallb blank pre = true ->
  stops blank rest = true ->
  exists width,
    IndentWidth (pre ++ rest) currentPos = Ok (width, len pre)
    /\ len pre <= width <= 4 * len pre
    /\ (forall pre', pre = pre' ++ [tab] -> (currentPos + width) mod 4 = 0).
Proof.
  intros Hcp Hpre Hstop.
  exists (column_after currentPos pre - currentPos). split; [|split].
  - apply IndentWidth_run; assumption.
  - pose proof (column_after_bounds pre currentPos Hcp). lia.
  - intros pre' ->. rewrite column_after_app. cbn [column_after].
    change (tab =? tab)%byte with true. cbv iota.
    pose proof (column_after_bounds pre' currentPos Hcp) as Hb.
    pose proof (len_nonneg pre').
    pose proof (TabWidth_bounds (column_after currentPos pre') ltac:(lia)) as [_ Hm].
    replace (currentPos + (column_after currentPos pre'
                           + TabWidth (column_after currentPos pre') - currentPos))
      with (column_after currentPos pre' + TabWidth (column_after currentPos pre'))
      by lia.
    exact Hm.
Qed.

Lemma IndentWidth_leading_blanks_witness :
  exists width,
    IndentWidth ([" "; tab] ++ ["a"])%byte 2 = Ok (width, len [" "; tab]%byte)
    /\ len [" "; tab]%byte <= width <= 4 * len [" "; tab]%byte
    /\ (forall pre', [" "; tab]%byte = pre' ++ [tab] -> (2 + width) mod 4 = 0).
Proof.
  apply (IndentWidth_leading_blanks [" "; tab]%byte ["a"]%byte 2);
    [lia | reflexivity | reflexivity].
Defined.

(** X3: the width of a run of blanks is the width of its first part plus
    the width of the rest measured from the column where the first part
    ends. *)
Theorem IndentWidth_app (pre1 pre2 rest : bytes) (currentPos : Z) :
  forallb blank pre1 = true ->
  forallb blank pre2 = true ->
  stops blank rest = true ->
  exists w1 w2,
    IndentWidth pre1 currentPos = Ok (w1, len pre1)
    /\ IndentWidth (pre2 ++ rest) (currentPos + w1) = Ok (w2, len pre2)
    /\ IndentWidth (pre1 ++ pre2 ++ rest) currentPos
       = Ok (w1 + w2, len pre1 + len pre2).
Proof.
  intros H1 H2 Hstop.
  exists (column_after currentPos pre1 - currentPos),
         (column_after (column_after currentPos pre1) pre2
          - column_after currentPos pre1).
  split; [|split].
  - rewrite <- (app_nil_r pre1) at 1. apply IndentWidth_run; auto.
  - rewrite IndentWidth_run by assumption.
    replace (currentPos + (column_after currentPos pre1 - currentPos))
      with (column_after currentPos pre1) by lia.
    reflexivity.
  - rewrite app_assoc, IndentWidth_run;
      [| rewrite forallb_app, H1, H2; reflexivity | assumption].
    rewrite column_after_app. len_simpl. f_equal. f_equal. lia.
Qed.

Lemma IndentWidth_app_witness :
  exists w1 w2,
    IndentWidth [" "]%byte 0 = Ok (w1, len [" "]%byte)
    /\ IndentWidth ([tab] ++ ["a"]%byte) (0 + w1) = Ok (w2, len [tab])
    /\ IndentWidth ([" "]%byte ++ [tab] ++ ["a"]%byte) 0
       = Ok (w1 + w2, len [" "]%byte + len [tab]).
Proof.
  apply (IndentWidth_app [" "]%byte [tab] ["a"]%byte 0); reflexivity.
Defined.






Lemma dedent_columns_app (a b : bytes) :
  dedent_columns (a ++ b) = dedent_columns a + dedent_columns b.
Proof. induction a as [|c a IH]; simpl; [reflexivity | rewrite IH; lia]. Qed.

Lemma DedentPosition_loop_inv (suffix : bytes) :
  forall (done : bytes) (fuel : nat) (width : Z),
    (length suffix < fuel)%nat ->
    forallb blank done = true ->
    dedent_columns done <= width + 3 ->
    exists done' suffix',
      done ++ suffix = done' ++ suffix'
      /\ DedentPosition_loop fuel (done ++ suffix) width (len done)
           (dedent_columns done)
         = Ok (len done', dedent_columns done')
      /\ forallb blank done' = true
      /\ dedent_columns done' <= width + 3
      /\ (dedent_columns done' < width -> stops blank suffix' = true).
Proof.
  induction suffix as [|c suffix IH]; intros done fuel width Hfuel Hdone Hw;
    destruct fuel as [|fuel]; try (simpl in Hfuel; lia);
    cbn [DedentPosition_loop].
  - rewrite ltb_len_end. cbn [andb].
    exists done, []. repeat split; auto.
  - rewrite ltb_len_prefix, index_after. cbn [andb bind].
    destruct (dedent_columns done <? width) eqn:E.
    + apply Z.ltb_lt in E. simpl in Hfuel.
      destruct (c =? " ")%byte eqn:Hsp; [|destruct (c =? tab)%byte eqn:Htab].
      * rewrite app_cons_assoc.
        replace (len done + 1) with (len (done ++ [c])) by (len_simpl; lia).
        assert (Hc : dedent_columns (done ++ [c]) = dedent_columns done + 1).
        { rewrite dedent_columns_app. cbn [dedent_columns].
          apply Byte.byte_dec_bl in Hsp. subst c.
          change (" " =? tab)%byte with false. cbv iota. lia. }
        rewrite <- Hc. apply IH; [lia | | lia].
        rewrite forallb_app, Hdone. simpl. unfold blank. rewrite Hsp. reflexivity.
      * rewrite app_cons_assoc.
        replace (len done + 1) with (len (done ++ [c])) by (len_simpl; lia).
        assert (Hc : dedent_columns (done ++ [c]) = dedent_columns done + 4).
        { rewrite dedent_columns_app. cbn [dedent_columns]. rewrite Htab. lia. }
        rewrite <- Hc. apply IH; [lia | | lia].
        rewrite forallb_app, Hdone. simpl. unfold blank.
        rewrite Htab, orb_true_r. reflexivity.
      * exists done, (c :: suffix). repeat split; auto.
        intros _. simpl. unfold blank. rewrite Hsp, Htab. reflexivity.
    + apply Z.ltb_ge in E.
      exists done, (c :: suffix). repeat split; auto. lia.
Qed.

(** X5: [DedentPosition] consumes leading blanks, a space counting one
    column and a tab four, until [width] columns are removed or the blanks
    end: the position is the number of blanks consumed, and the padding is
    what the last tab removed beyond [width], at most 3 columns. *)
Theorem DedentPosition_consumes_blanks (bs : bytes) (width : Z) :
  0 <= width ->
  exists pre rest padding,
    bs = pre ++ rest
    /\ DedentPosition bs width = Ok (len pre, padding)
    /\ forallb blank pre = true
    /\ 0 <= padding <= 3
    /\ (dedent_columns pre = width + padding
        \/ (dedent_columns pre < width /\ padding = 0
            /\ stops blank rest = true)).
Proof.
  intros Hwidth. unfold DedentPosition.
  destruct (width =? 0) eqn:E0.
  - apply Z.eqb_eq in E0. subst width.
    exists [], bs, 0. repeat split; try reflexivity; try lia.
    left. reflexivity.
  - apply Z.eqb_neq in E0.
    destruct (DedentPosition_loop_inv bs [] (S (length bs)) width)
      as (pre & rest & E & Hr & Hpre & Hw & Hstop);
      [lia | reflexivity | cbn [dedent_columns]; lia |].
    cbn [app] in E, Hr. change (len []) with 0 in Hr.
    change (dedent_columns []) with 0 in Hr. rewrite Hr. cbn [bind].
    cbv zeta.
    destruct (dedent_columns pre - width <? 0) eqn:Ep.
    + apply Z.ltb_lt in Ep.
      exists pre, rest, 0. repeat split; try assumption; try lia.
      right. repeat split; [lia | apply Hstop; lia].
    + apply Z.ltb_ge in Ep.
      exists pre, rest, (dedent_columns pre - width).
      repeat split; try assumption; lia.
Qed.

Lemma DedentPosition_consumes_blanks_witness :
  exists pre rest padding,
    [" "; tab; "a"]%byte = pre ++ rest
    /\ DedentPosition [" "; tab; "a"]%byte 2 = Ok (len pre, padding)
    /\ forallb blank pre = true
    /\ 0 <= padding <= 3
    /\ (dedent_columns pre = 2 + padding
        \/ (dedent_columns pre < 2 /\ padding = 0
            /\ stops blank rest = true)).
Proof.
  apply (DedentPosition_consumes_blanks [" "; tab; "a"]%byte 2). lia.
Defined.

Lemma FirstNonSpacePosition_loop_run (run : bytes) :
  forall (done rest : bytes) (fuel : nat),
    (length run < fuel)%nat ->
    forallb blank run = true ->
    stops blank rest = true ->
    FirstNonSpacePosition_loop fuel (done ++ run ++ rest) (len done)
    = Ok (match rest with
          | [] => -1
          | c :: _ => if (c =? newline)%byte then -1 else len done + len run
          end).
Proof.
  induction run as [|c run IH]; intros done rest fuel Hfuel Hrun Hstop;
    destruct fuel as [|fuel]; try (simpl in Hfuel; lia);
    cbn [FirstNonSpacePosition_loop app].
  - destruct rest as [|d rest].
    + rewrite ltb_len_end. reflexivity.
    + rewrite ltb_len_prefix, index_after. cbn [bind].
      simpl in Hstop. apply not_blank in Hstop as [-> ->]. cbn [orb].
      destruct (d =? newline)%byte; [reflexivity|].
      f_equal. len_simpl. lia.
  - rewrite ltb_len_prefix, index_after. cbn [bind].
    simpl in Hrun. apply andb_true_iff in Hrun as [Hc Hrun].
    unfold blank in Hc. rewrite Hc.
    rewrite app_cons_assoc.
    replace (len done + 1) with (len (done ++ [c])) by (len_simpl; lia).
    simpl in Hfuel. rewrite IH by (lia || assumption).
    destruct rest as [|d rest]; [reflexivity|].
    destruct (d =? newline)%byte; [reflexivity|].
    f_equal. len_simpl. lia.
Qed.

(** X6: [FirstNonSpacePosition] passes over the leading spaces and tabs
    and returns the position of the byte that follows them; it returns -1
    when that byte is a line feed or when the slice ends there. *)
Theorem FirstNonSpacePosition_after_blanks (pre rest : bytes) :
  forallb blank pre = true ->
  stops blank rest = true ->
  FirstNonSpacePosition (pre ++ rest)
  = Ok (match rest with
        | [] => -1
        | c :: _ => if (c =? newline)%byte then -1 else len pre
        end).
Proof.
  intros Hpre Hstop. unfold FirstNonSpacePosition.
  pose proof (FirstNonSpacePosition_loop_run pre [] rest
                (S (length (pre ++ rest)))) as H.
  cbn [app] in H. change (len []) with 0 in H.
  rewrite H; [| rewrite length_app; lia | assumption | assumption].
  destruct rest as [|c rest]; [reflexivity|].
  destruct (c =? newline)%byte; reflexivity.
Qed.

Lemma FirstNonSpacePosition_after_blanks_witness :
  FirstNonSpacePosition ([" "; tab] ++ bytes_of "ab")%byte
  = Ok (len [" "; tab]%byte).
Proof.
  apply (FirstNonSpacePosition_after_blanks [" "; tab]%byte (bytes_of "ab"));
    reflexivity.
Defined.

(** ** Trimming *)

(** [skip_back_while] from the end of a run of bytes that all pass [p]
    stops right before the run. *)
Lemma skip_back_while_run (p : byte -> bool) (run : bytes) :
  forall (rest post : bytes) (fuel : nat),
    (length run < fuel)%nat ->
    forallb p run = true ->
    stops p (rev rest) = true ->
    skip_back_while fuel p (rest ++ run ++ post) (len rest + len run - 1)
    = Ok (len rest - 1).
Proof.
  induction run as [|c run IH] using rev_ind;
    intros rest post fuel Hfuel Hrun Hstop;
    destruct fuel as [|fuel]; try (simpl in Hfuel; lia);
    cbn [skip_back_while app].
  - len_simpl. rewrite Z.add_0_r.
    destruct rest as [|d rest _] using rev_ind.
    + reflexivity.
    + pose proof (len_nonneg rest).
      len_simpl.
      replace (0 <=? len rest + (0 + 1) - 1) with true
        by (symmetry; apply Z.leb_le; lia).
      rewrite <- app_assoc. cbn [app].
      rewrite index_after' by lia. cbn [bind].
      rewrite rev_app_distr in Hstop. simpl in Hstop.
      apply negb_true_iff in Hstop. rewrite Hstop. reflexivity.
  - pose proof (len_nonneg rest). pose proof (len_nonneg run).
    len_simpl.
    replace (0 <=? len rest + (len run + (0 + 1)) - 1) with true
      by (symmetry; apply Z.leb_le; lia).
    rewrite <- app_assoc. cbn [app].
    rewrite app_assoc.
    rewrite index_after' by (len_simpl; lia). cbn [bind].
    rewrite forallb_app in Hrun. apply andb_true_iff in Hrun as [Hrun Hc].
    simpl in Hc. rewrite andb_true_r in Hc. rewrite Hc.
    rewrite <- app_assoc.
    replace (len rest + (len run + (0 + 1)) - 1 - 1)
      with (len rest + len run - 1) by lia.
    apply IH; [rewrite length_app in Hfuel; simpl in Hfuel; lia | assumption
              | assumption].
Qed.

Lemma skip_while_prefix (p : byte -> bool) (pre rest : bytes) :
  forallb p pre = true ->
  stops p rest = true ->
  skip_while (S (length (pre ++ rest))) p (pre ++ rest) (len (pre ++ rest)) 0
  = Ok (len pre).
Proof.
  intros Hpre Hrest.
  pose proof (skip_while_run p pre [] rest (S (length (pre ++ rest)))) as H.
  cbn [app] in H. change (len []) with 0 in H.
  rewrite H; [reflexivity | rewrite length_app; lia | assumption | assumption].
Qed.

Lemma skip_back_while_suffix (p : byte -> bool) (rest suf : bytes) :
  forallb p suf = true ->
  stops p (rev rest) = true ->
  skip_back_while (S (length (rest ++ suf))) p (rest ++ suf)
    (len (rest ++ suf) - 1)
  = Ok (len rest - 1).
Proof.
  intros Hsuf Hrest.
  pose proof (skip_back_while_run p suf rest [] (S (length (rest ++ suf)))) as H.
  rewrite app_nil_r in H. len_simpl.
  apply H; [rewrite length_app; lia | assumption | assumption].
Qed.

Lemma TrimLeft_split (pre rest b : bytes) :
  forallb (fun c => found_in c b) pre = true ->
  stops (fun c => found_in c b) rest = true ->
  TrimLeft (pre ++ rest) b = Ok rest.
Proof.
  intros Hpre Hrest. unfold TrimLeft.
  rewrite skip_while_prefix by assumption. cbn [bind].
  apply slice_from_suffix. reflexivity.
Qed.

Lemma TrimRight_split (rest suf b : bytes) :
  forallb (fun c => found_in c b) suf = true ->
  stops (fun c => found_in c b) (rev rest) = true ->
  TrimRight (rest ++ suf) b = Ok rest.
Proof.
  intros Hsuf Hrest. unfold TrimRight.
  rewrite skip_back_while_suffix by assumption. cbn [bind].
  replace (len rest - 1 + 1) with (len rest) by lia.
  apply slice_prefix.
Qed.

(** X7: [TrimLeft] removes the longest prefix made of bytes of [b] and
    returns the rest of the slice, whose first byte, if any, is not in
    [b]. *)
Theorem TrimLeft_removes_prefix (pre rest b : bytes) :
  forallb (fun c => found_in c b) pre = true ->
  stops (fun c => found_in c b) rest = true ->
  TrimLeft (pre ++ rest) b = Ok rest.
Proof.
  intros Hpre Hrest. unfold TrimLeft.
  rewrite skip_while_prefix by assumption. cbn [bind].
  apply slice_from_suffix. reflexivity.
Qed.

Lemma TrimLeft_removes_prefix_witness :
  TrimLeft (bytes_of "xyx" ++ bytes_of "abx") (bytes_of "xy")
  = Ok (bytes_of "abx").
Proof.
  apply (TrimLeft_removes_prefix (bytes_of "xyx") (bytes_of "abx") (bytes_of "xy"));
    reflexivity.
Defined.

(** X8: [TrimRight] removes the longest suffix made of bytes of [b] and
    returns what is before it, whose last byte, if any, is not in [b]. *)
Theorem TrimRight_removes_suffix (rest suf b : bytes) :
  forallb (fun c => found_in c b) suf = true ->
  stops (fun c => found_in c b) (rev rest) = true ->
  TrimRight (rest ++ suf) b = Ok rest.
Proof.
  intros Hsuf Hrest. unfold TrimRight.
  rewrite skip_back_while_suffix by assumption. cbn [bind].
  replace (len rest - 1 + 1) with (len rest) by lia.
  apply slice_prefix.
Qed.

Lemma TrimRight_removes_suffix_witness :
  TrimRight (bytes_of "xab" ++ bytes_of "xyx") (bytes_of "xy")
  = Ok (bytes_of "xab").
Proof.
  apply (TrimRight_removes_suffix (bytes_of "xab") (bytes_of "xyx") (bytes_of "xy"));
    reflexivity.
Defined.

Lemma stops_forallb_nil (p : byte -> bool) (l : bytes) :
  forallb p l = true -> stops p l = true -> l = [].
Proof.
  destruct l as [|c l]; [reflexivity|]. simpl. intros H1 H2.
  apply andb_true_iff in H1 as [H1 _]. rewrite H1 in H2. discriminate.
Qed.

(** X9: trimming on the left and trimming on the right commute: both
    orders return the same middle part of the slice, and neither
    panics. *)
Theorem TrimLeft_TrimRight_commute (source b : bytes) :
  exists mid,
    (t <- TrimLeft source b ;; TrimRight t b) = Ok mid
    /\ (t <- TrimRight source b ;; TrimLeft t b) = Ok mid.
Proof.
  set (p := fun c => found_in c b).
  destruct (span p source) as (pre & rest & -> & Hpre & Hrest).
  destruct (span_right p rest) as (mid & suf & -> & Hsuf & Hmid).
  exists mid.
  rewrite TrimLeft_split by assumption. cbn [bind].
  rewrite TrimRight_split by assumption. split; [reflexivity|].
  destruct mid as [|m mid].
  - cbn [app] in *.
    rewrite (stops_forallb_nil p suf Hsuf Hrest) in *.
    rewrite app_nil_r.
    pose proof (TrimRight_split [] pre b Hpre eq_refl) as H.
    cbn [app] in H. rewrite H. reflexivity.
  - rewrite app_assoc.
    rewrite TrimRight_split; [| assumption |].
    + cbn [bind]. apply TrimLeft_split; [assumption|].
      simpl in Hrest |- *. exact Hrest.
    + fold p. rewrite rev_app_distr.
      destruct (rev (m :: mid)) as [|d l] eqn:E.
      * apply (f_equal (@length byte)) in E. rewrite length_rev in E.
        discriminate.
      * simpl in Hmid |- *. exact Hmid.
Qed.

Lemma IsSpace_spaces (c : byte) : IsSpace c = found_in c spaces.
Proof. destruct c; reflexivity. Qed.

Lemma forallb_ext (p q : byte -> bool) (l : bytes) :
  (forall c, p c = q c) -> forallb p l = forallb q l.
Proof.
  intros Hpq. induction l as [|c l IH]; simpl; [reflexivity|].
  rewrite Hpq, IH. reflexivity.
Qed.

(** X10: the table-driven [TrimLeftSpaceLength] agrees with the generic
    [TrimLeftLength] called with the set [spaces], and neither panics: both
    return the number of leading space bytes. *)
Theorem TrimLeftSpaceLength_TrimLeftLength (source : bytes) :
  exists n,
    TrimLeftSpaceLength source = Ok n
    /\ TrimLeftLength source spaces = Ok n
    /\ 0 <= n <= len source.
Proof.
  destruct (span IsSpace source) as (pre & rest & -> & Hpre & Hrest).
  exists (len pre).
  assert (Hpre' : forallb (fun c => found_in c spaces) pre = true).
  { rewrite <- Hpre. apply forallb_ext. intros c. symmetry. apply IsSpace_spaces. }
  assert (Hrest' : stops (fun c => found_in c spaces) rest = true).
  { destruct rest as [|d rest]; [reflexivity|]. cbn [stops] in *.
    rewrite <- IsSpace_spaces. exact Hrest. }
  split; [|split].
  - unfold TrimLeftSpaceLength. apply skip_while_prefix; assumption.
  - unfold TrimLeftLength. rewrite TrimLeft_split by assumption.
    cbn [bind]. f_equal. len_simpl. lia.
  - pose proof (len_nonneg pre). pose proof (len_nonneg rest). len_simpl. lia.
Qed.

(** X11: the table-driven [TrimRightSpaceLength] agrees with the generic
    [TrimRightLength] called with the set [spaces], and neither panics:
    both return the number of trailing space bytes. *)
Theorem TrimRightSpaceLength_TrimRightLength (source : bytes) :
  exists n,
    TrimRightSpaceLength source = Ok n
    /\ TrimRightLength source spaces = Ok n
    /\ 0 <= n <= len source.
Proof.
  destruct (span_right IsSpace source) as (rest & suf & -> & Hsuf & Hrest).
  exists (len suf).
  assert (Hsuf' : forallb (fun c => found_in c spaces) suf = true).
  { rewrite <- Hsuf. apply forallb_ext. intros c. symmetry. apply IsSpace_spaces. }
  assert (Hrest' : stops (fun c => found_in c spaces) (rev rest) = true).
  { destruct (rev rest) as [|d l]; [reflexivity|]. cbn [stops] in *.
    rewrite <- IsSpace_spaces. exact Hrest. }
  pose proof (len_nonneg suf). pose proof (len_nonneg rest).
  split; [|split].
  - unfold TrimRightSpaceLength. rewrite skip_back_while_suffix by assumption.
    cbn [bind]. len_simpl.
    destruct (len rest - 1 <? 0) eqn:E.
    + apply Z.ltb_lt in E. f_equal. lia.
    + f_equal. lia.
  - unfold TrimRightLength. rewrite TrimRight_split by assumption.
    cbn [bind]. f_equal. len_simpl. lia.
  - len_simpl. lia.
Qed.

Lemma IsBlank_forallb (bs : bytes) : IsBlank bs = forallb IsSpace bs.
Proof.
  induction bs as [|c bs IH]; simpl; [reflexivity|].
  rewrite IH. destruct (IsSpace c); reflexivity.
Qed.

(** X12: a slice is blank exactly when trimming its spaces on the left
    leaves nothing. *)
Theorem IsBlank_TrimLeftSpace (bs : bytes) :
  IsBlank bs = true <-> TrimLeftSpace bs = Ok [].
Proof.
  unfold TrimLeftSpace.
  destruct (span (fun c => found_in c spaces) bs)
    as (pre & rest & -> & Hpre & Hrest).
  rewrite TrimLeft_split by assumption.
  rewrite IsBlank_forallb, forallb_app.
  assert (Hpre' : forallb IsSpace pre = true).
  { rewrite <- Hpre. apply forallb_ext. intros c. apply IsSpace_spaces. }
  rewrite Hpre'. cbn [andb]. split.
  - intros H. destruct rest as [|d rest]; [reflexivity|].
    cbn [forallb stops] in H, Hrest. rewrite IsSpace_spaces in H.
    apply andb_true_iff in H as [H _]. rewrite H in Hrest. discriminate.
  - intros H. injection H as ->. reflexivity.
Qed.

(** ** Collapsing spaces *)

Lemma ReplaceSpaces_loop_word (source : bytes) (repl : byte) (word : bytes) :
  forall (tail : bytes) (i : Z),
    forallb (fun c => negb (IsSpace c)) word = true ->
    ReplaceSpaces_loop source repl (word ++ tail) i None (-1)
    = ReplaceSpaces_loop source repl tail (i + len word) None (-1).
Proof.
  induction word as [|c word IH]; intros tail i Hword; cbn [app].
  - len_simpl. rewrite Z.add_0_r. reflexivity.
  - simpl in Hword. apply andb_true_iff in Hword as [Hc Hword].
    apply negb_true_iff in Hc.
    cbn [ReplaceSpaces_loop]. rewrite Hc. cbn [andb bind].
    change (0 <=? -1) with false. cbn [andb bind].
    rewrite IH by assumption.
    replace (i + 1 + len word) with (i + len (c :: word)) by (len_simpl; lia).
    reflexivity.
Qed.

Lemma ReplaceSpaces_loop_run (source : bytes) (repl : byte) (run : bytes) :
  forall (tail : bytes) (i : Z) (ret : option bytes) (start : Z),
    forallb IsSpace run = true ->
    0 <= start ->
    ReplaceSpaces_loop source repl (run ++ tail) i ret start
    = ReplaceSpaces_loop source repl tail (i + len run) ret start.
Proof.
  induction run as [|c run IH]; intros tail i ret start Hrun Hstart; cbn [app].
  - len_simpl. rewrite Z.add_0_r. reflexivity.
  - simpl in Hrun. apply andb_true_iff in Hrun as [Hc Hrun].
    cbn [ReplaceSpaces_loop]. rewrite Hc.
    replace (start <? 0) with false by (symmetry; apply Z.ltb_ge; lia).
    replace (0 <=? start) with true by (symmetry; apply Z.leb_le; lia).
    cbn [andb].
    rewrite IH by assumption.
    replace (i + 1 + len run) with (i + len (c :: run)) by (len_simpl; lia).
    reflexivity.
Qed.

Lemma ReplaceSpaces_loop_copied (source : bytes) (repl : byte) (rest : bytes) :
  forall (i : Z) (r : bytes) (start : Z),
    0 <= i ->
    exists r' start',
      ReplaceSpaces_loop source repl rest i (Some r) start = Ok (Some r', start')
      /\ r' ++ (if 0 <=? start' then [repl] else [])
         = r ++ collapse repl (0 <=? start) rest.
Proof.
  induction rest as [|c rest IH]; intros i r start Hi;
    cbn [ReplaceSpaces_loop collapse].
  - exists r, start. split; reflexivity.
  - destruct (IsSpace c) eqn:Hc.
    + destruct (start <? 0) eqn:Hs; cbn [andb].
      * destruct (IH (i + 1) r i ltac:(lia)) as (r' & start' & Hr & E).
        exists r', start'. split; [assumption|].
        rewrite E. replace (0 <=? i) with true
          by (symmetry; apply Z.leb_le; lia).
        reflexivity.
      * apply Z.ltb_ge in Hs.
        replace (0 <=? start) with true by (symmetry; apply Z.leb_le; lia).
        cbn [andb].
        destruct (IH (i + 1) r start ltac:(lia)) as (r' & start' & Hr & E).
        exists r', start'. split; [assumption|].
        rewrite E. replace (0 <=? start) with true
          by (symmetry; apply Z.leb_le; lia).
        reflexivity.
    + rewrite !andb_false_r.
      destruct (0 <=? start) eqn:Hs; cbn [bind].
      * destruct (IH (i + 1) ((r ++ [repl]) ++ [c]) (-1) ltac:(lia))
          as (r' & start' & Hr & E).
        exists r', start'. split; [assumption|].
        rewrite E. change (0 <=? -1) with false.
        rewrite <- !app_assoc. reflexivity.
      * destruct (IH (i + 1) (r ++ [c]) start ltac:(lia))
          as (r' & start' & Hr & E).
        exists r', start'. split; [assumption|].
        rewrite E, Hs. rewrite <- !app_assoc. reflexivity.
Qed.

(** X13: when no run of spaces is followed by another byte, that is when
    the spaces of the slice are all at its end, [ReplaceSpaces] returns the
    slice it was given, trailing spaces included: nothing is replaced and
    nothing is copied. *)
Theorem ReplaceSpaces_keeps_trailing_spaces (word run : bytes) (repl : byte) :
  forallb (fun c => negb (IsSpace c)) word = true ->
  forallb IsSpace run = true ->
  ReplaceSpaces_ret (word ++ run) repl = Ok None
  /\ ReplaceSpaces (word ++ run) repl = Ok (word ++ run).
Proof.
  intros Hword Hrun.
  assert (H : ReplaceSpaces_ret (word ++ run) repl = Ok None).
  { unfold ReplaceSpaces_ret.
    rewrite ReplaceSpaces_loop_word by assumption.
    destruct run as [|c run]; [reflexivity|].
    simpl in Hrun. apply andb_true_iff in Hrun as [Hc Hrun].
    cbn [ReplaceSpaces_loop]. rewrite Hc.
    change (-1 <? 0) with true. cbn [andb].
    pose proof (len_nonneg word).
    pose proof (ReplaceSpaces_loop_run (word ++ c :: run) repl run []
                  (0 + len word + 1) None (0 + len word) Hrun ltac:(lia)) as E.
    rewrite app_nil_r in E. rewrite E. reflexivity. }
  split; [exact H|]. unfold ReplaceSpaces. rewrite H. reflexivity.
Qed.

Lemma ReplaceSpaces_keeps_trailing_spaces_witness :
  ReplaceSpaces_ret (bytes_of "ab" ++ bytes_of "   ") "_" = Ok None
  /\ ReplaceSpaces (bytes_of "ab" ++ bytes_of "   ") "_"
     = Ok (bytes_of "ab" ++ bytes_of "   ").
Proof.
  apply (ReplaceSpaces_keeps_trailing_spaces (bytes_of "ab") (bytes_of "   ") "_");
    reflexivity.
Defined.

(** X14: when a run of spaces is followed by another byte, [ReplaceSpaces]
    returns a copy in which every run of spaces, a trailing one included,
    is replaced by one [repl]. *)
Theorem ReplaceSpaces_collapses_runs
    (word : bytes) (s : byte) (run : bytes) (c : byte) (rest : bytes)
    (repl : byte) :
  forallb (fun c => negb (IsSpace c)) word = true ->
  forallb IsSpace (s :: run) = true ->
  IsSpace c = false ->
  ReplaceSpaces (word ++ (s :: run) ++ c :: rest) repl
  = Ok (word ++ repl :: c :: collapse repl false rest).
Proof.
  intros Hword Hrun Hc.
  unfold ReplaceSpaces, ReplaceSpaces_ret.
  rewrite ReplaceSpaces_loop_word by assumption.
  simpl in Hrun. apply andb_true_iff in Hrun as [Hs Hrun].
  pose proof (len_nonneg word) as Hl. pose proof (len_nonneg run) as Hl'.
  cbn [app ReplaceSpaces_loop]. rewrite Hs.
  change (-1 <? 0) with true. cbn [andb].
  rewrite ReplaceSpaces_loop_run by (assumption || lia).
  cbn [ReplaceSpaces_loop]. rewrite Hc, !andb_false_r.
  replace (0 <=? 0 + len word) with true by (symmetry; apply Z.leb_le; lia).
  replace (0 + len word) with (len word) by lia.
  rewrite slice_prefix. cbn [bind].
  destruct (ReplaceSpaces_loop_copied (word ++ s :: run ++ c :: rest) repl rest
              (len word + 1 + len run + 1) ((word ++ [repl]) ++ [c]) (-1)
              ltac:(lia)) as (r' & start' & Hr & E).
  unfold bytes in *. rewrite Hr. cbn [bind].
  change (0 <=? -1) with false in E.
  rewrite <- !app_assoc in E. cbn [app] in E.
  destruct (0 <=? start'); cbn [bind]; rewrite ?app_nil_r in E;
    rewrite E; reflexivity.
Qed.

Lemma ReplaceSpaces_collapses_runs_witness :
  ReplaceSpaces (bytes_of "a" ++ (" " :: bytes_of " ") ++ "b" :: bytes_of " c  ")%byte
    "_"
  = Ok (bytes_of "a" ++ "_" :: "b" :: collapse "_" false (bytes_of " c  "))%byte.
Proof.
  apply (ReplaceSpaces_collapses_runs (bytes_of "a") " " (bytes_of " ") "b"
           (bytes_of " c  ") "_"); reflexivity.
Defined.

(** ** Copy-on-write buffer *)

Lemma written_Write (cob : CopyOnWriteBuffer) (value : bytes) :
  written (Write cob value) = written cob ++ value
  /\ copied (Write cob value) = true.
Proof. destruct cob as [buf []]; unfold written, Write; simpl; auto. Qed.

Lemma WriteByte_Write (cob : CopyOnWriteBuffer) (c : byte) :
  WriteByte cob c = Write cob [c].
Proof. reflexivity. Qed.

Lemma fold_Write (ws : list bytes) :
  forall cob,
    copied cob = true ->
    copied (fold_left Write ws cob) = true
    /\ buffer (fold_left Write ws cob) = buffer cob ++ concat ws.
Proof.
  induction ws as [|w ws IH]; intros cob Hc; cbn [fold_left concat].
  - rewrite app_nil_r. auto.
  - destruct (IH (Write cob w)) as [H1 H2].
    + apply written_Write.
    + split; [assumption|]. rewrite H2. unfold Write. rewrite Hc. simpl.
      rewrite app_assoc. reflexivity.
Qed.

(** X15: the first write to a [CopyOnWriteBuffer] drops the slice it was
    created with: after one or more writes the buffer is marked as copied
    and holds exactly the written values, one after the other, and nothing
    of the original slice. *)
Theorem CopyOnWriteBuffer_holds_writes
    (source w : bytes) (ws : list bytes) :
  let cob := fold_left Write ws (Write (NewCopyOnWriteBuffer source) w) in
  IsCopied cob = true /\ Bytes cob = w ++ concat ws.
Proof.
  cbv zeta. unfold IsCopied, Bytes.
  destruct (fold_Write ws (Write (NewCopyOnWriteBuffer source) w)) as [H1 H2];
    [reflexivity|].
  split; [assumption|]. rewrite H2. reflexivity.
Qed.

(** ** Escaping and unescaping *)

(** One step of a scan with a buffer: [done] is the part of the slice
    already flushed to the buffer, [plain] the part read since. *)
Lemma flush_step (cob : CopyOnWriteBuffer) (plain out : bytes) :
  written (Write (Write cob plain) out) = written cob ++ plain ++ out
  /\ copied (Write (Write cob plain) out) = true.
Proof.
  destruct (written_Write (Write cob plain) out) as [H1 H2].
  destruct (written_Write cob plain) as [H3 _].
  rewrite H1, H3, <- app_assoc. auto.
Qed.

Lemma index_after2 {A : Type} (done plain : list A) (c : A) (suffix : list A) :
  index (done ++ plain ++ c :: suffix) (len done + len plain) = Ok c.
Proof. rewrite app_assoc. apply index_after'. len_simpl. reflexivity. Qed.

Lemma index_after3 {A : Type} (done plain : list A) (c c1 : A) (suffix : list A) :
  index (done ++ plain ++ c :: c1 :: suffix) (len done + len plain + 1) = Ok c1.
Proof.
  rewrite app_assoc, app_cons_assoc. apply index_after'. len_simpl. lia.
Qed.

Lemma ltb_len2 {A : Type} (done plain : list A) (c : A) (suffix : list A) :
  (len done + len plain <? len (done ++ plain ++ c :: suffix)) = true.
Proof.
  apply Z.ltb_lt. pose proof (len_nonneg suffix). len_simpl. lia.
Qed.

Lemma ltb_len2_end {A : Type} (done plain : list A) :
  (len done + len plain <? len (done ++ plain ++ [])) = false.
Proof. apply Z.ltb_ge. len_simpl. lia. Qed.

Lemma EscapeHTML_loop_spec (suffix : bytes) :
  forall (done plain : bytes) (fuel : nat) (cob : CopyOnWriteBuffer),
    (length suffix < fuel)%nat ->
    (copied cob = false -> done = []) ->
    exists done' plain' cob',
      done ++ plain ++ suffix = done' ++ plain'
      /\ EscapeHTML_loop fuel (done ++ plain ++ suffix) cob
           (len done) (len done + len plain)
         = Ok (cob', len done')
      /\ written cob' ++ plain'
         = written cob ++ plain ++ flat_map escaped_byte suffix
      /\ (copied cob' = false -> cob' = cob /\ done' = []).
Proof.
  induction suffix as [|c suffix IH]; intros done plain fuel cob Hfuel Hcob;
    destruct fuel as [|fuel]; try (simpl in Hfuel; lia);
    cbn [EscapeHTML_loop].
  - rewrite ltb_len2_end. exists done, plain, cob.
    cbn [flat_map]. rewrite !app_nil_r. repeat split; auto.
  - rewrite ltb_len2, index_after2. cbn [bind]. simpl in Hfuel.
    destruct (htmlEscapeTable c) as [escaped|] eqn:Hc.
    + rewrite slice_middle. cbn [bind].
      assert (Hv : done ++ plain ++ c :: suffix
                   = (done ++ plain ++ [c]) ++ [] ++ suffix).
      { rewrite <- !app_assoc. reflexivity. }
      rewrite Hv.
      replace (len done + len plain + 1)
        with (len (done ++ plain ++ [c])) by (len_simpl; lia).
      destruct (flush_step cob plain escaped) as [Hw Hcopied].
      destruct (IH (done ++ plain ++ [c]) [] fuel
                  (Write (Write cob plain) escaped) ltac:(lia))
        as (done' & plain' & cob' & E & Hr & Hout & Hsame).
      { rewrite Hcopied. discriminate. }
      exists done', plain', cob'. split; [exact E|]. split.
      { rewrite <- Hr. f_equal. len_simpl. lia. }
      split.
      { rewrite Hout, Hw. cbn [flat_map app]. unfold escaped_byte at 2.
        unfold EscapeHTMLByte. rewrite Hc. rewrite <- !app_assoc. reflexivity. }
      intros Hf. destruct (Hsame Hf) as [-> _]. rewrite Hcopied in Hf.
      discriminate.
    + assert (Hv : done ++ plain ++ c :: suffix
                   = done ++ (plain ++ [c]) ++ suffix).
      { rewrite <- !app_assoc. reflexivity. }
      rewrite Hv.
      replace (len done + len plain + 1)
        with (len done + len (plain ++ [c])) by (len_simpl; lia).
      destruct (IH done (plain ++ [c]) fuel cob ltac:(lia) Hcob)
        as (done' & plain' & cob' & E & Hr & Hout & Hsame).
      exists done', plain', cob'. repeat split; try assumption;
        try (apply Hsame; assumption).
      rewrite Hout. cbn [flat_map]. unfold escaped_byte at 2.
      unfold EscapeHTMLByte. rewrite Hc. rewrite <- !app_assoc. reflexivity.
Qed.

Lemma EscapeHTML_flat_map (v : bytes) :
  EscapeHTML v = Ok (flat_map escaped_byte v).
Proof.
  unfold EscapeHTML, EscapeHTML_cob.
  destruct (EscapeHTML_loop_spec v [] [] (S (length v)) (NewCopyOnWriteBuffer v))
    as (done' & plain' & cob' & E & Hr & Hout & Hsame); [lia | reflexivity |].
  cbn [app] in E, Hr, Hout. change (len [] + len []) with 0 in Hr.
  change (len []) with 0 in Hr.
  rewrite Hr. cbn [bind]. unfold IsCopied, Bytes.
  destruct (copied cob') eqn:Hc.
  - rewrite E at 1. rewrite slice_from_suffix by reflexivity. cbn [bind].
    f_equal. unfold written in Hout. rewrite Hc in Hout. cbn in Hout.
    rewrite <- Hout. unfold Write. rewrite Hc. reflexivity.
  - destruct (Hsame eq_refl) as [-> ->]. cbn [bind]. f_equal.
    cbn in Hout. cbn [app] in E. rewrite <- Hout. exact E.
Qed.

(** X16: [EscapeHTML] returns the input with each of the four reserved
    bytes replaced by what [EscapeHTMLByte] gives for it ([&quot;],
    [&amp;], [&lt;], [&gt;]) and every other byte kept, in order; it never
    panics. *)
Theorem EscapeHTML_escapes_each_byte (v : bytes) :
  EscapeHTML v
  = Ok (flat_map (fun c => match EscapeHTMLByte c with
                           | Some escaped => escaped
                           | None => [c]
                           end) v).
Proof.
  change (EscapeHTML v = Ok (flat_map escaped_byte v)).
  unfold EscapeHTML, EscapeHTML_cob.
  destruct (EscapeHTML_loop_spec v [] [] (S (length v)) (NewCopyOnWriteBuffer v))
    as (done' & plain' & cob' & E & Hr & Hout & Hsame); [lia | reflexivity |].
  cbn [app] in E, Hr, Hout. change (len [] + len []) with 0 in Hr.
  change (len []) with 0 in Hr.
  rewrite Hr. cbn [bind]. unfold IsCopied, Bytes.
  destruct (copied cob') eqn:Hc.
  - rewrite E at 1. rewrite slice_from_suffix by reflexivity. cbn [bind].
    f_equal. unfold written in Hout. rewrite Hc in Hout. cbn in Hout.
    rewrite <- Hout. unfold Write. rewrite Hc. reflexivity.
  - destruct (Hsame eq_refl) as [-> ->]. cbn [bind]. f_equal.
    cbn in Hout. cbn [app] in E. rewrite <- Hout. exact E.
Qed.

Lemma escaped_byte_safe (c : byte) :
  forallb (fun c => negb ((c =? "<")%byte || (c =? ">")%byte
                          || (c =? dquote)%byte)) (escaped_byte c) = true.
Proof. destruct c; reflexivity. Qed.

(** X17: the output of [EscapeHTML] contains no [<], no [>] and no double
    quote, whatever the input. *)
Theorem EscapeHTML_output_has_no_markup (v : bytes) :
  exists out,
    EscapeHTML v = Ok out
    /\ forallb (fun c => negb ((c =? "<")%byte || (c =? ">")%byte
                               || (c =? dquote)%byte)) out = true.
Proof.
  exists (flat_map escaped_byte v). split; [apply EscapeHTML_flat_map|].
  induction v as [|c v IH]; [reflexivity|].
  cbn [flat_map]. rewrite forallb_app, IH, escaped_byte_safe. reflexivity.
Qed.

Lemma UnescapePunctuations_loop_spec (fuel : nat) :
  forall (suffix done plain : bytes) (cob : CopyOnWriteBuffer),
    (length suffix < fuel)%nat ->
    (copied cob = false -> done = []) ->
    exists done' plain' cob',
      done ++ plain ++ suffix = done' ++ plain'
      /\ UnescapePunctuations_loop fuel (done ++ plain ++ suffix) cob
           (len done) (len done + len plain)
         = Ok (cob', len done')
      /\ written cob' ++ plain' = written cob ++ plain ++ unescape suffix
      /\ (copied cob' = false -> cob' = cob /\ done' = []).
Proof.
  induction fuel as [|fuel IH]; intros suffix done plain cob Hfuel Hcob;
    [lia|].
  cbn [UnescapePunctuations_loop]. cbv zeta.
  destruct suffix as [|c suffix].
  - rewrite ltb_len2_end. exists done, plain, cob.
    cbn [unescape]. rewrite !app_nil_r. repeat split; auto.
  - rewrite ltb_len2, index_after2. cbn [bind]. simpl in Hfuel.
    assert (Hplain :
      forall tail,
        unescape (c :: suffix) = c :: tail ->
        tail = unescape suffix ->
        exists done' plain' cob',
          done ++ plain ++ c :: suffix = done' ++ plain'
          /\ UnescapePunctuations_loop fuel (done ++ plain ++ c :: suffix) cob
               (len done) (len done + len plain + 1)
             = Ok (cob', len done')
          /\ written cob' ++ plain'
             = written cob ++ plain ++ unescape (c :: suffix)
          /\ (copied cob' = false -> cob' = cob /\ done' = [])).
    { intros tail Hu ->.
      assert (Hv : done ++ plain ++ c :: suffix
                   = done ++ (plain ++ [c]) ++ suffix).
      { rewrite <- !app_assoc. reflexivity. }
      rewrite Hv.
      replace (len done + len plain + 1)
        with (len done + len (plain ++ [c])) by (len_simpl; lia).
      destruct (IH suffix done (plain ++ [c]) cob ltac:(lia) Hcob)
        as (done' & plain' & cob' & E & Hr & Hout & Hsame).
      exists done', plain', cob'. repeat split; try assumption;
        try (apply Hsame; assumption).
      rewrite Hout, Hu. rewrite <- !app_assoc. reflexivity. }
    destruct suffix as [|c1 suffix].
    + replace (len done + len plain <? len (done ++ plain ++ [c]) - 1)
        with false by (symmetry; apply Z.ltb_ge; len_simpl; lia).
      cbn [andb and_then bind].
      apply (Hplain []); reflexivity.
    + replace (len done + len plain <? len (done ++ plain ++ c :: c1 :: suffix) - 1)
        with true
        by (symmetry; apply Z.ltb_lt; pose proof (len_nonneg suffix);
            len_simpl; lia).
      cbn [andb].
      destruct (c =? "\")%byte eqn:Hbs; cbn [and_then bind];
        [rewrite index_after3; cbn [bind];
         destruct (IsPunct c1) eqn:Hp |].
      * rewrite slice_middle. cbn [bind].
        rewrite WriteByte_Write.
        assert (Hv : done ++ plain ++ c :: c1 :: suffix
                     = (done ++ plain ++ [c; c1]) ++ [] ++ suffix).
        { rewrite <- !app_assoc. reflexivity. }
        rewrite Hv.
        replace (len done + len plain + 2)
          with (len (done ++ plain ++ [c; c1])) by (len_simpl; lia).
        destruct (flush_step cob plain [c1]) as [Hw Hcopied].
        destruct (IH suffix (done ++ plain ++ [c; c1]) []
                    (Write (Write cob plain) [c1]) ltac:(simpl in Hfuel; lia))
          as (done' & plain' & cob' & E & Hr & Hout & Hsame).
        { rewrite Hcopied. discriminate. }
        exists done', plain', cob'. split; [exact E|]. split.
        { rewrite <- Hr. f_equal. len_simpl. lia. }
        split.
        { rewrite Hout, Hw. cbn [unescape app]. rewrite Hbs, Hp. cbn [andb].
          rewrite <- !app_assoc. reflexivity. }
        intros Hf. destruct (Hsame Hf) as [-> _]. rewrite Hcopied in Hf.
        discriminate.
      * apply (Hplain (unescape (c1 :: suffix))); [|reflexivity].
        cbn [unescape]. rewrite Hbs, Hp. reflexivity.
      * apply (Hplain (unescape (c1 :: suffix))); [|reflexivity].
        cbn [unescape]. rewrite Hbs. reflexivity.
Qed.

(** X18: [UnescapePunctuations] removes, reading from the left, every
    backslash that stands before a punctuation byte and keeps that byte and
    all others; a backslash before any other byte, or at the end, stays.
    It never panics. *)
Theorem UnescapePunctuations_unescape (source : bytes) :
  UnescapePunctuations source = Ok (unescape source).
Proof.
  unfold UnescapePunctuations, UnescapePunctuations_cob.
  destruct (UnescapePunctuations_loop_spec (S (length source)) source [] []
              (NewCopyOnWriteBuffer source))
    as (done' & plain' & cob' & E & Hr & Hout & Hsame); [lia | reflexivity |].
  cbn [app] in E, Hr, Hout. change (len [] + len []) with 0 in Hr.
  change (len []) with 0 in Hr.
  rewrite Hr. cbn [bind]. unfold IsCopied, Bytes.
  destruct (copied cob') eqn:Hc.
  - rewrite E at 1. rewrite slice_from_suffix by reflexivity. cbn [bind].
    f_equal. unfold written in Hout. rewrite Hc in Hout. cbn in Hout.
    rewrite <- Hout. unfold Write. rewrite Hc. reflexivity.
  - destruct (Hsame eq_refl) as [-> ->]. cbn [bind]. f_equal.
    cbn in Hout. cbn [app] in E. rewrite <- Hout. exact E.
Qed.

(** ** Scanners that never panic *)

Lemma returns_index {A : Type} (b : list A) (i : Z) :
  0 <= i < len b -> returns (fun c => index b i = Ok c) (index b i).
Proof.
  intros Hi. destruct (index_in_range b i Hi) as [c Hc].
  rewrite Hc. reflexivity.
Qed.

Lemma returns_slice {A : Type} (b : list A) (lo hi : Z) :
  0 <= lo <= hi -> hi <= len b ->
  returns (fun s => len s = hi - lo) (slice b lo hi).
Proof.
  intros H1 H2. unfold slice.
  replace ((0 <=? lo) && (lo <=? hi) && (hi <=? len b)) with true
    by (symmetry; rewrite !andb_true_iff, !Z.leb_le; lia).
  cbn [returns]. unfold len in *. rewrite length_firstn, length_skipn. lia.
Qed.

Lemma returns_and_then (a : bool) (rb : result bool) :
  (a = true -> returns (fun _ => True) rb) ->
  returns (fun _ => True) (a &&> rb).
Proof. destruct a; simpl; auto. Qed.

(** The same, keeping what a true result tells about the left operand. *)
Lemma returns_and_then_guard (a : bool) (rb : result bool) :
  (a = true -> returns (fun _ => True) rb) ->
  returns (fun r => r = true -> a = true) (a &&> rb).
Proof.
  destruct a; simpl; [|discriminate].
  intros H. eapply returns_weaken; [apply H; reflexivity | auto].
Qed.

Ltac ret_arith :=
  repeat match goal with
         | H : true = true -> _ |- _ => specialize (H eq_refl)
         | H : (_ && _) = true |- _ => apply andb_true_iff in H; destruct H
         end;
  fuel_arith.

(** One step of a proof that a monadic expression returns: each read and
    each slice is shown to be in range. *)
Ltac ret_step :=
  match goal with
  | |- returns _ (Ok _) => cbn [returns]
  | |- returns _ (bind (bind _ _) _) => rewrite bind_assoc
  | |- returns _ (bind (Ok _) _) => cbn [bind]
  | |- returns _ (bind (index _ _) _) =>
      eapply returns_bind;
      [apply returns_index; solve [ret_arith] | cbv beta; intros ? ?]
  | |- returns _ (bind (slice _ _ _) _) =>
      eapply returns_bind;
      [apply returns_slice; solve [ret_arith] | cbv beta; intros ? ?]
  | |- returns _ (bind (slice_from _ _) _) =>
      unfold slice_from;
      eapply returns_bind;
      [apply returns_slice; solve [ret_arith] | cbv beta; intros ? ?]
  | |- returns _ (bind (_ &&> _) _) =>
      eapply returns_bind;
      [apply returns_and_then_guard; intros ? | cbv beta; intros ? ?]
  | |- returns _ (_ &&> _) => apply returns_and_then; intros ?
  | |- returns _ (if ?c then _ else _) => destruct c eqn:?
  | |- returns _ (let '(_, _) := ?p in _) => destruct p
  | |- True => exact I
  end.

Lemma skip_while_returns (p : byte -> bool) (b : bytes) (fuel : nat) :
  forall i : Z,
    0 <= i ->
    (Z.to_nat (len b - i) < fuel)%nat ->
    returns (fun j => i <= j /\ j <= Z.max i (len b))
      (skip_while fuel p b (len b) i).
Proof.
  induction fuel as [|fuel IH]; intros i Hi Hfuel; [lia|].
  cbn [skip_while]. repeat ret_step; fuel_arith.
  eapply returns_weaken; [apply IH; fuel_arith|].
  cbv beta. intros j Hj. lia.
Qed.

Lemma backtick_run_returns (bs : bytes) (fuel : nat) :
  forall i count : Z,
    0 <= i ->
    (Z.to_nat (len bs - i) < fuel)%nat ->
    returns (fun r => i <= fst r) (backtick_run fuel bs i count).
Proof.
  induction fuel as [|fuel IH]; intros i count Hi Hfuel; [lia|].
  cbn [backtick_run]. repeat ret_step; cbn [fst]; fuel_arith.
  eapply returns_weaken; [apply IH; fuel_arith|].
  cbv beta. intros r Hr. lia.
Qed.

Lemma FindClosure_loop_returns (bs : bytes) (opener closure : byte)
    (codeSpan allowNesting : bool) (fuel : nat) :
  forall i opened codeSpanOpener : Z,
    0 <= i ->
    (Z.to_nat (len bs - i) < fuel)%nat ->
    returns (fun r => r = -1 \/ (0 <= r < len bs /\ index bs r = Ok closure))
      (FindClosure_loop fuel bs opener closure codeSpan allowNesting
         i opened codeSpanOpener).
Proof.
  pose proof (len_nonneg bs) as Hlen.
  induction fuel as [|fuel IH]; intros i opened cso Hi Hfuel; [lia|].
  cbn [FindClosure_loop]. cbv zeta.
  repeat first
    [ ret_step
    | eapply returns_bind;
      [ apply backtick_run_returns; [lia | unfold len; lia]
      | cbv beta; intros [? ?] ?; cbn [fst] in *; cbv beta iota ] ];
    fuel_arith; try (apply IH; fuel_arith); try (left; reflexivity).
  right. split; [lia|].
  match goal with
  | H : index bs i = Ok ?c, E : (?c =? closure)%byte = true |- _ =>
      apply Byte.byte_dec_bl in E; subst; exact H
  end.
Qed.

Lemma FindClosure_returns (bs : bytes) (opener closure : byte)
    (codeSpan allowNesting : bool) :
  returns (fun r => r = -1 \/ (0 <= r < len bs /\ index bs r = Ok closure))
    (FindClosure bs opener closure codeSpan allowNesting).
Proof.
  unfold FindClosure. apply FindClosure_loop_returns; unfold len; lia.
Qed.

(** X19: [FindClosure] never panics: on every input it returns -1 or the
    offset of a byte of the slice that is the closure byte. *)
Theorem FindClosure_returns_closure_offset (bs : bytes) (opener closure : byte)
    (codeSpan allowNesting : bool) :
  returns (fun r => r = -1 \/ (0 <= r < len bs /\ index bs r = Ok closure))
    (FindClosure bs opener closure codeSpan allowNesting).
Proof.
  unfold FindClosure.
  apply FindClosure_loop_returns; [lia|].
  pose proof (len_nonneg bs). unfold len in *. lia.
Qed.

(** A call of [skip_while] over the whole slice [b]. *)
Ltac ret_skip_while :=
  match goal with
  | |- returns _ (bind (skip_while _ _ _ _ _) _) =>
      eapply returns_bind;
      [ apply skip_while_returns; [solve [ret_arith] | unfold len in *; lia]
      | cbv beta; intros ? ? ]
  end.

(** X20: [FindURLIndex] never panics: it returns -1, or an offset of at
    least 3 within the slice that lies after a colon found at an offset
    between 2 and 33. *)
Theorem FindURLIndex_returns_offset_after_colon (b : bytes) :
  returns (fun r => r = -1
                    \/ (3 <= r <= len b
                        /\ exists j, 2 <= j <= 33 /\ j < r
                                     /\ index b j = Ok ":"%byte))
    (FindURLIndex b).
Proof.
  unfold FindURLIndex. cbv zeta.
  repeat first [ret_skip_while | ret_step]; ret_arith;
    try (left; reflexivity).
  right. split; [lia|].
  match goal with
  | H : index b ?j = Ok ?c, E : negb (?c =? ":")%byte = false |- _ =>
      exists j; apply negb_false_iff, Byte.byte_dec_bl in E; subst;
      repeat split; try lia; exact H
  end.
Qed.

Lemma quoted_value_returns (b : bytes) (canEscapeQuotes : bool) (q : byte)
    (r0 r1 i : Z) :
  0 <= r0 -> r0 <= r1 -> r1 <= i -> i < len b ->
  returns (token_in_range b) (quoted_value b canEscapeQuotes q r0 r1 i).
Proof.
  intros H0 H1 H2 H3. unfold quoted_value. cbv zeta.
  destruct canEscapeQuotes.
  - ret_step.
    eapply returns_bind;
      [apply FindClosure_returns | cbv beta; intros pos Hpos].
    repeat ret_step; unfold token_in_range, not_found; ret_arith;
      try (left; reflexivity).
  - ret_skip_while.
    eapply returns_bind with (P := fun _ => True);
      [repeat ret_step; ret_arith | intros ? _].
    repeat ret_step; unfold token_in_range, not_found; ret_arith;
      try (left; reflexivity).
Qed.

Lemma FindHTMLAttributeIndex_returns (b : bytes) (canEscapeQuotes : bool) :
  returns (token_in_range b) (FindHTMLAttributeIndex b canEscapeQuotes).
Proof.
  unfold FindHTMLAttributeIndex. cbv zeta.
  repeat first
    [ ret_skip_while
    | match goal with
      | |- returns _ (quoted_value _ _ _ _ _ _) =>
          apply quoted_value_returns; ret_arith
      end
    | ret_step ];
    unfold token_in_range, not_found; ret_arith; try (left; reflexivity).
Qed.

(** X21: [FindHTMLAttributeIndex] never panics: it returns the not-found
    record with skip 0, or offsets in order within the slice
    ([0 <= name_start <= name_stop <= value_start <= value_stop <= len(b)])
    with a skip of 0 or 1. *)
Theorem FindHTMLAttributeIndex_in_range (b : bytes) (canEscapeQuotes : bool) :
  returns (token_in_range b) (FindHTMLAttributeIndex b canEscapeQuotes).
Proof.
  unfold FindHTMLAttributeIndex. cbv zeta.
  repeat first
    [ ret_skip_while
    | match goal with
      | |- returns _ (quoted_value _ _ _ _ _ _) =>
          apply quoted_value_returns; ret_arith
      end
    | ret_step ];
    unfold token_in_range, not_found; ret_arith; try (left; reflexivity).
Qed.

(** X22: [FindAttributeIndex] never panics, for the [#id] and [.class]
    tokens as for [name=value]: it returns the not-found record with skip
    0, or offsets in order within the slice with a skip of 0 or 1. *)
Theorem FindAttributeIndex_in_range (b : bytes) (canEscapeQuotes : bool) :
  returns (token_in_range b) (FindAttributeIndex b canEscapeQuotes).
Proof.
  unfold FindAttributeIndex. cbv zeta.
  repeat first
    [ ret_skip_while
    | match goal with
      | |- returns _ (FindHTMLAttributeIndex _ _) =>
          apply FindHTMLAttributeIndex_returns
      end
    | ret_step ];
    unfold token_in_range, not_found; ret_arith; try (left; reflexivity).
Qed.

Lemma ReadWhile_returns (source : bytes) (start stop : Z) (pred : byte -> bool) :
  0 <= start ->
  stop <= len source ->
  returns (fun r => start <= fst r /\ fst r <= Z.max start stop)
    (ReadWhile source (start, stop) pred).
Proof.
  intros Hstart Hstop. unfold ReadWhile. cbn [fst snd].
  generalize false as ok.
  assert (H : forall fuel j ok,
             0 <= j ->
             (Z.to_nat (stop - j) < fuel)%nat ->
             returns (fun r => j <= fst r /\ fst r <= Z.max j stop)
               (ReadWhile_loop fuel source stop pred j ok)).
  { induction fuel as [|fuel IH]; intros j ok Hj Hfuel; [lia|].
    cbn [ReadWhile_loop]. repeat ret_step; cbn [fst]; ret_arith.
    eapply returns_weaken; [apply IH; ret_arith|].
    cbv beta. intros r Hr. lia. }
  intros ok. apply H; lia.
Qed.

Ltac ret_read_while :=
  match goal with
  | |- returns _ (bind (ReadWhile _ _ _) _) =>
      eapply returns_bind;
      [ apply ReadWhile_returns; solve [ret_arith]
      | cbv beta; intros [? ?] ?; cbn [fst] in *; cbv beta iota ]
  end.

Section EntityNamesReturn.

Variable LookUpHTML5EntityByName : bytes -> option bytes.

Lemma ResolveEntityNames_loop_returns (source : bytes) (fuel : nat) :
  forall (cob : CopyOnWriteBuffer) (n i : Z),
    0 <= n <= i ->
    n <= len source ->
    (Z.to_nat (len source - i) < fuel)%nat ->
    returns (fun r => 0 <= snd r <= len source)
      (ResolveEntityNames_loop LookUpHTML5EntityByName fuel source cob n i).
Proof.
  induction fuel as [|fuel IH]; intros cob n i Hn Hlen Hfuel; [lia|].
  cbn [ResolveEntityNames_loop]. cbv zeta.
  repeat first
    [ ret_read_while
    | ret_step
    | match goal with
      | |- returns _ (match ?o with Some _ => _ | None => _ end) =>
          destruct o
      end ];
    cbn [snd]; ret_arith; try (apply IH; ret_arith).
Qed.

(** X23: [ResolveEntityNames] never panics, whatever the entity table
    holds and also on inputs cut short after [&] or in the middle of a
    name. *)
Theorem ResolveEntityNames_never_panics (source : bytes) :
  returns (fun _ => True) (ResolveEntityNames LookUpHTML5EntityByName source).
Proof.
  unfold ResolveEntityNames, ResolveEntityNames_cob.
  rewrite bind_assoc.
  eapply returns_bind;
    [ apply ResolveEntityNames_loop_returns;
      pose proof (len_nonneg source); unfold len in *; lia
    | cbv beta; intros [cob n] Hn; cbn [snd] in Hn ].
  cbv beta iota. destruct (IsCopied cob); repeat ret_step; ret_arith.
Qed.

End EntityNamesReturn.

(** ** References *)

Lemma ReadWhile_loop_run (pred : byte -> bool) (run : bytes) :
  forall (pre rest : bytes) (fuel : nat) (ok : bool),
    (length run < fuel)%nat ->
    forallb pred run = true ->
    stops pred rest = true ->
    ReadWhile_loop fuel (pre ++ run ++ rest) (len (pre ++ run ++ rest)) pred
      (len pre) ok
    = Ok (len pre + len run, match run with [] => ok | _ => true end).
Proof.
  induction run as [|c run IH]; intros pre rest fuel ok Hfuel Hrun Hstop;
    destruct fuel as [|fuel]; try (simpl in Hfuel; lia);
    cbn [ReadWhile_loop app].
  - destruct rest as [|d rest].
    + rewrite ltb_len_end. f_equal. f_equal. len_simpl. lia.
    + rewrite ltb_len_prefix, index_after. cbn [bind].
      simpl in Hstop. apply negb_true_iff in Hstop. rewrite Hstop.
      f_equal. f_equal. len_simpl. lia.
  - rewrite ltb_len_prefix, index_after. cbn [bind].
    simpl in Hrun. apply andb_true_iff in Hrun as [Hc Hrun]. rewrite Hc.
    rewrite app_cons_assoc.
    replace (len pre + 1) with (len (pre ++ [c])) by (len_simpl; lia).
    rewrite IH by (simpl in Hfuel; lia || assumption).
    f_equal. f_equal; [len_simpl; lia | destruct run; reflexivity].
Qed.

Lemma ReadWhile_run (pred : byte -> bool) (pre : bytes) (c : byte)
    (run rest : bytes) (start limit : Z) :
  start = len pre ->
  limit = len (pre ++ (c :: run) ++ rest) ->
  forallb pred (c :: run) = true ->
  stops pred rest = true ->
  ReadWhile (pre ++ (c :: run) ++ rest) (start, limit) pred
  = Ok (len pre + len (c :: run), true).
Proof.
  intros -> -> Hrun Hstop. unfold ReadWhile. cbn [fst snd].
  apply (ReadWhile_loop_run pred (c :: run) pre rest); [|assumption..].
  pose proof (len_nonneg rest). pose proof (len_nonneg run).
  len_simpl. unfold len in *. simpl length. lia.
Qed.

Lemma decimal_step_bound (ds : bytes) :
  forall n,
    0 <= n ->
    forallb IsNumeric ds = true ->
    n <= fold_left (fun n c => 10 * n + (code c - code "0")) ds n
      < (n + 1) * 10 ^ len ds.
Proof.
  induction ds as [|c ds IH]; intros n Hn Hds; cbn [fold_left].
  - change (len []) with 0. lia.
  - simpl in Hds. apply andb_true_iff in Hds as [Hc Hds].
    unfold IsNumeric in Hc. apply andb_true_iff in Hc as [Hc0 Hc9].
    apply Z.leb_le in Hc0, Hc9.
    change (code "0") with 48 in *. change (code "9") with 57 in *.
    specialize (IH (10 * n + (code c - 48)) ltac:(lia) Hds).
    pose proof (len_nonneg ds).
    len_simpl. rewrite Z.pow_add_r by lia. change (10 ^ 1) with 10.
    pose proof (Z.pow_pos_nonneg 10 (len ds) ltac:(lia) ltac:(lia)).
    nia.
Qed.

Lemma ParseUint_digits_decimal (cutoff maxVal : Z) (ds : bytes) :
  maxVal < cutoff -> maxVal < 2 ^ 64 ->
  forall n,
    0 <= n ->
    forallb IsNumeric ds = true ->
    fold_left (fun n c => 10 * n + (code c - code "0")) ds n <= maxVal ->
    ParseUint_digits ds 10 cutoff maxVal n
    = fold_left (fun n c => 10 * n + (code c - code "0")) ds n.
Proof.
  intros Hcut Hmax.
  induction ds as [|c ds IH]; intros n Hn Hds Hle;
    cbn [ParseUint_digits fold_left]; [reflexivity|].
  cbn [fold_left] in Hle.
  simpl in Hds. apply andb_true_iff in Hds as [Hc Hds].
  pose proof Hc as Hc'.
  unfold IsNumeric in Hc'. rewrite Hc'.
  apply andb_true_iff in Hc' as [Hc0 Hc9].
  apply Z.leb_le in Hc0, Hc9.
  change (code "0") with 48 in *. change (code "9") with 57 in *.
  pose proof (decimal_step_bound ds (10 * n + (code c - 48)) ltac:(lia) Hds)
    as [Hb _].
  change (code "0") with 48 in *.
  replace (10 <=? code c - 48) with false by (symmetry; apply Z.leb_gt; lia).
  replace (cutoff <=? n) with false by (symmetry; apply Z.leb_gt; lia).
  cbv zeta.
  replace ((n * 10 + (code c - 48)) mod 2 ^ 64) with (10 * n + (code c - 48))
    by (symmetry; rewrite Z.mod_small; lia).
  replace (10 * n + (code c - 48) <? n * 10) with false
    by (symmetry; apply Z.ltb_ge; lia).
  replace (maxVal <? 10 * n + (code c - 48)) with false
    by (symmetry; apply Z.ltb_ge; lia).
  cbn [orb]. apply IH; [lia | assumption | assumption].
Qed.

(** [strconv.ParseUint] with base 0 reads a short run of decimal digits
    without a leading zero in base 10. *)
Lemma ParseUint_decimal (d : byte) (ds : bytes) :
  forallb IsNumeric (d :: ds) = true ->
  (d =? "0")%byte = false ->
  (length (d :: ds) < 8)%nat ->
  ParseUint (d :: ds) 0 32 = decimal (d :: ds)
  /\ 0 <= decimal (d :: ds) < 10 ^ 7.
Proof.
  intros Hds Hd Hlen.
  pose proof (decimal_step_bound (d :: ds) 0 ltac:(lia) Hds) as Hb.
  fold (decimal (d :: ds)) in Hb.
  assert (Hpow : 10 ^ len (d :: ds) <= 10 ^ 7).
  { apply Z.pow_le_mono_r; unfold len; lia. }
  split; [|lia].
  unfold ParseUint. change (0 =? 0) with true. cbv iota. rewrite Hd.
  cbv zeta.
  apply ParseUint_digits_decimal;
    [reflexivity | reflexivity | lia | assumption |].
  fold (decimal (d :: ds)). change (2 ^ 32 - 1) with 4294967295.
  change (10 ^ 7) with 10000000 in *. lia.
Qed.

Lemma IsNumeric_not_x (d : byte) :
  IsNumeric d = true -> (d =? "x")%byte = false /\ (d =? "X")%byte = false.
Proof. destruct d; try discriminate; auto. Qed.

Lemma ResolveNumericReferences_loop_decimal
    (pre : bytes) (d : byte) (ds post : bytes) (fuel : nat)
    (cob : CopyOnWriteBuffer) (n : Z) :
  forallb IsNumeric (d :: ds) = true ->
  (length (d :: ds) < 8)%nat ->
  ResolveNumericReferences_loop (S fuel)
    (pre ++ "&" :: "#" :: d :: ds ++ ";" :: post)%byte cob n (len pre)
  = (cob <- write_rune (pre ++ "&" :: "#" :: d :: ds ++ ";" :: post)%byte
              cob n (len pre) (ParseUint (d :: ds) 0 32) ;;
     ResolveNumericReferences_loop fuel
       (pre ++ "&" :: "#" :: d :: ds ++ ";" :: post)%byte cob
       (len pre + 2 + len (d :: ds) + 1) (len pre + 2 + len (d :: ds) + 1)).
Proof.
  intros Hds Hlen.
  set (source := (pre ++ "&" :: "#" :: d :: ds ++ ";" :: post)%byte).
  pose proof (len_nonneg pre) as Hp. pose proof (len_nonneg ds) as Hd.
  pose proof (len_nonneg post) as Hq.
  assert (Hsrc : len source = len pre + 2 + len (d :: ds) + 1 + len post).
  { unfold source. len_simpl. lia. }
  assert (H0 : index source (len pre) = Ok "&"%byte).
  { apply index_after. }
  assert (H1 : index source (len pre + 1) = Ok "#"%byte).
  { unfold source. rewrite app_cons_assoc. apply index_after'. len_simpl. lia. }
  assert (H2 : index source (len pre + 1 + 1) = Ok d).
  { unfold source. rewrite app_cons_assoc, (app_cons_assoc _ "#"%byte).
    apply index_after'. len_simpl. lia. }
  assert (E3 : source = (pre ++ ["&"; "#"]%byte) ++ (d :: ds) ++ ";"%byte :: post).
  { unfold source. rewrite <- app_assoc. reflexivity. }
  assert (H3 : ReadWhile source (len pre + 1 + 1, len source) IsNumeric
               = Ok (len pre + 2 + len (d :: ds), true)).
  { rewrite E3 at 1. rewrite ReadWhile_run; try assumption; try reflexivity.
    - f_equal. f_equal. len_simpl. lia.
    - len_simpl. lia.
    - rewrite <- E3. reflexivity. }
  assert (H4 : index source (len pre + 2 + len (d :: ds)) = Ok ";"%byte).
  { rewrite E3, app_assoc. apply index_after'. len_simpl. lia. }
  assert (H5 : slice source (len pre + 1 + 1) (len pre + 2 + len (d :: ds))
               = Ok (d :: ds)).
  { rewrite E3.
    replace (len pre + 1 + 1) with (len (pre ++ ["&"; "#"]%byte))
      by (len_simpl; lia).
    replace (len pre + 2 + len (d :: ds))
      with (len (pre ++ ["&"; "#"]%byte) + len (d :: ds)) by (len_simpl; lia).
    apply slice_middle. }
  simpl in Hds. apply andb_true_iff in Hds as [Hd' Hds].
  assert (Hdds : len (d :: ds) = len ds + 1) by (len_simpl; lia).
  cbn [ResolveNumericReferences_loop]. cbv zeta.
  replace (len pre <? len source) with true by (symmetry; apply Z.ltb_lt; lia).
  rewrite H0. cbn [bind]. change ("&" =? "&")%byte with true. cbv iota.
  replace (len pre + 1 <? len source) with true
    by (symmetry; apply Z.ltb_lt; lia).
  cbn [and_then]. rewrite H1. cbn [bind].
  change ("#" =? "#")%byte with true. cbv iota.
  rewrite H2. cbn [bind].
  destruct (IsNumeric_not_x d Hd') as [-> ->]. rewrite andb_false_r. cbn [orb].
  change ((code "0" <=? code d) && (code d <=? code "9")) with (IsNumeric d).
  rewrite Hd'. rewrite H3. cbn [bind]. cbv beta iota.
  replace (len pre + 2 + len (d :: ds) <? len source) with true
    by (symmetry; apply Z.ltb_lt; lia).
  replace (len pre + 2 + len (d :: ds) - (len pre + 1 + 1) <? 8) with true
    by (symmetry; apply Z.ltb_lt; unfold len in *; lia).
  cbn [andb and_then]. rewrite H4. cbn [bind].
  change (";" =? ";")%byte with true. cbv iota.
  rewrite H5. cbn [bind]. reflexivity.
Qed.

Lemma rune_small (v : Z) : 0 <= v < 2 ^ 31 -> rune v = v.
Proof.
  intros Hv. unfold rune. change (2 ^ 31) with 2147483648 in *.
  change (2 ^ 32) with 4294967296.
  rewrite Z.mod_small by lia. cbv zeta.
  replace (v <? 2147483648) with true by (symmetry; apply Z.ltb_lt; lia).
  reflexivity.
Qed.

Lemma ResolveNumericReferences_loop_end (source : bytes) (fuel : nat)
    (cob : CopyOnWriteBuffer) (n i : Z) :
  len source <= i ->
  ResolveNumericReferences_loop (S fuel) source cob n i = Ok (cob, n).
Proof.
  intros Hi. cbn [ResolveNumericReferences_loop]. cbv zeta.
  replace (i <? len source) with false by (symmetry; apply Z.ltb_ge; lia).
  reflexivity.
Qed.

(** X24: a decimal character reference [&#digits;] of one to seven digits
    without a leading zero, in a text with no other [&], is replaced by the
    UTF-8 encoding of the code point the digits denote in base 10 (U+FFFD
    for a surrogate or a value above U+10FFFF); the text before and after
    is kept. *)
Theorem ResolveNumericReferences_decimal_reference
    (pre : bytes) (d : byte) (ds post : bytes) :
  no_reference pre = true ->
  no_reference post = true ->
  forallb IsNumeric (d :: ds) = true ->
  (d =? "0")%byte = false ->
  (length (d :: ds) < 8)%nat ->
  ResolveNumericReferences
    (pre ++ "&" :: "#" :: (d :: ds) ++ ";" :: post)%byte
  = Ok (pre ++ EncodeRune (ToValidRune (decimal (d :: ds))) ++ post).
Proof.
  intros Hpre Hpost Hds Hd Hlen.
  destruct (ParseUint_decimal d ds Hds Hd Hlen) as [Hparse Hrange].
  cbn [app].
  set (source := (pre ++ "&" :: "#" :: d :: ds ++ ";" :: post)%byte).
  pose proof (len_nonneg pre) as Hp. pose proof (len_nonneg ds) as Hl.
  pose proof (len_nonneg post) as Hq.
  assert (Hdds : len (d :: ds) = len ds + 1) by (len_simpl; lia).
  unfold ResolveNumericReferences, ResolveNumericReferences_cob.
  replace (S (length source))
    with (length pre + S (length post + S (length ds + 3)))%nat
    by (unfold source; rewrite length_app; simpl; rewrite length_app;
        simpl; lia).
  pose proof (ResolveNumericReferences_loop_skip pre []
                ("&" :: "#" :: d :: ds ++ ";" :: post)%byte
                (S (length post + S (length ds + 3)))
                (NewCopyOnWriteBuffer source) 0 Hpre) as Hskip.
  cbn [app] in Hskip. change (len []) with 0 in Hskip.
  rewrite Z.add_0_l in Hskip. fold source in Hskip. rewrite Hskip.
  unfold source at 1.
  rewrite ResolveNumericReferences_loop_decimal by assumption.
  fold source. unfold write_rune.
  unfold source at 1. rewrite slice_prefix. fold source. cbn [bind].
  rewrite Hparse, rune_small
    by (change (2 ^ 31) with 2147483648; change (10 ^ 7) with 10000000 in *; lia).
  assert (E : source
              = (pre ++ "&" :: "#" :: d :: ds ++ [";"])%byte ++ post ++ []).
  { unfold source. rewrite app_nil_r, <- !app_assoc. cbn [app].
    rewrite <- app_assoc. reflexivity. }
  pose proof (ResolveNumericReferences_loop_skip post
                (pre ++ "&" :: "#" :: d :: ds ++ [";"])%byte []
                (S (length ds + 3))
                (Write (Write (NewCopyOnWriteBuffer source) pre)
                   (EncodeRune (ToValidRune (decimal (d :: ds)))))
                (len pre + 2 + len (d :: ds) + 1) Hpost) as Hskip2.
  rewrite <- E in Hskip2.
  replace (len (pre ++ "&" :: "#" :: d :: ds ++ [";"])%byte)
    with (len pre + 2 + len (d :: ds) + 1) in Hskip2
    by (len_simpl; lia).
  rewrite Hskip2.
  rewrite ResolveNumericReferences_loop_end
    by (unfold source; len_simpl; lia).
  cbn [bind]. cbv beta iota.
  change (IsCopied (Write (Write (NewCopyOnWriteBuffer source) pre)
                      (EncodeRune (ToValidRune (decimal (d :: ds))))))
    with true.
  cbv iota.
  rewrite E at 1. rewrite app_nil_r.
  rewrite slice_from_suffix by (len_simpl; lia).
  cbn [bind]. f_equal. unfold Bytes, Write, NewCopyOnWriteBuffer. simpl.
  rewrite <- app_assoc. reflexivity.
Qed.

Lemma ResolveNumericReferences_decimal_reference_witness :
  ResolveNumericReferences
    (bytes_of "a " ++ "&" :: "#" :: ("6" :: bytes_of "5") ++ ";" :: bytes_of " b")%byte
  = Ok (bytes_of "a "
        ++ EncodeRune (ToValidRune (decimal ("6" :: bytes_of "5")%byte))
        ++ bytes_of " b").
Proof.
  apply (ResolveNumericReferences_decimal_reference
           (bytes_of "a ") "6" (bytes_of "5") (bytes_of " b"));
    try reflexivity.
  simpl. lia.
Defined.

Section EntityNamesResolve.

Variable LookUpHTML5EntityByName : bytes -> option bytes.

Lemma ResolveEntityNames_loop_skip (plain : bytes) :
  forall (pre rest : bytes) (fuel : nat) (cob : CopyOnWriteBuffer) (n : Z),
    no_reference plain = true ->
    ResolveEntityNames_loop LookUpHTML5EntityByName (length plain + fuel)
      (pre ++ plain ++ rest) cob n (len pre)
    = ResolveEntityNames_loop LookUpHTML5EntityByName fuel
        (pre ++ plain ++ rest) cob n (len pre + len plain).
Proof.
  induction plain as [|c plain IH]; intros pre rest fuel cob n Hplain.
  - cbn [length Nat.add]. f_equal. len_simpl. lia.
  - cbn [length Nat.add ResolveEntityNames_loop app].
    rewrite ltb_len_prefix, index_after. cbn [bind].
    simpl in Hplain. apply andb_true_iff in Hplain as [Hc Hplain].
    apply negb_true_iff in Hc. rewrite Hc.
    rewrite app_cons_assoc.
    replace (len pre + 1) with (len (pre ++ [c])) by (len_simpl; lia).
    rewrite IH by assumption.
    f_equal. len_simpl. lia.
Qed.

Lemma IsAlphaNumeric_plain (c : byte) :
  IsAlphaNumeric c = true ->
  (c =? "#")%byte = false /\ (c =? "&")%byte = false.
Proof. destruct c; try discriminate; auto. Qed.

Lemma IsAlphaNumeric_no_reference (name : bytes) :
  forallb IsAlphaNumeric name = true -> no_reference name = true.
Proof.
  induction name as [|c name IH]; [reflexivity|]. simpl.
  intros H. apply andb_true_iff in H as [Hc H].
  destruct (IsAlphaNumeric_plain c Hc) as [_ ->]. simpl. apply IH, H.
Qed.

(** One iteration at the [&] of a well-formed named reference. *)
Lemma ResolveEntityNames_loop_name
    (pre : bytes) (c : byte) (name post : bytes) (fuel : nat)
    (cob : CopyOnWriteBuffer) (n : Z) :
  forallb IsAlphaNumeric (c :: name) = true ->
  ResolveEntityNames_loop LookUpHTML5EntityByName (S fuel)
    (pre ++ "&" :: c :: name ++ ";" :: post)%byte cob n (len pre)
  = match LookUpHTML5EntityByName (c :: name) with
    | Some characters =>
        mid <- slice (pre ++ "&" :: c :: name ++ ";" :: post)%byte n (len pre) ;;
        ResolveEntityNames_loop LookUpHTML5EntityByName fuel
          (pre ++ "&" :: c :: name ++ ";" :: post)%byte
          (Write (Write cob mid) characters)
          (len pre + 1 + len (c :: name) + 1) (len pre + 1 + len (c :: name) + 1)
    | None =>
        ResolveEntityNames_loop LookUpHTML5EntityByName fuel
          (pre ++ "&" :: c :: name ++ ";" :: post)%byte cob n (len pre + 1)
    end.
Proof.
  intros Hname.
  set (source := (pre ++ "&" :: c :: name ++ ";" :: post)%byte).
  pose proof (len_nonneg pre) as Hp. pose proof (len_nonneg name) as Hd.
  pose proof (len_nonneg post) as Hq.
  assert (Hcn : len (c :: name) = len name + 1) by (len_simpl; lia).
  assert (Hsrc : len source = len pre + 1 + len (c :: name) + 1 + len post).
  { unfold source. len_simpl. lia. }
  assert (H0 : index source (len pre) = Ok "&"%byte).
  { apply index_after. }
  assert (H1 : index source (len pre + 1) = Ok c).
  { unfold source. rewrite app_cons_assoc. apply index_after'. len_simpl. lia. }
  assert (E3 : source = (pre ++ ["&"]%byte) ++ (c :: name) ++ ";"%byte :: post).
  { unfold source. rewrite <- app_assoc. reflexivity. }
  assert (H3 : ReadWhile source (len pre + 1, len source) IsAlphaNumeric
               = Ok (len pre + 1 + len (c :: name), true)).
  { rewrite E3 at 1. rewrite ReadWhile_run; try assumption; try reflexivity.
    - f_equal. f_equal. len_simpl. lia.
    - len_simpl. lia.
    - rewrite <- E3. reflexivity. }
  assert (H4 : index source (len pre + 1 + len (c :: name)) = Ok ";"%byte).
  { rewrite E3, app_assoc. apply index_after'. len_simpl. lia. }
  assert (H5 : slice source (len pre + 1) (len pre + 1 + len (c :: name))
               = Ok (c :: name)).
  { rewrite E3.
    replace (len pre + 1) with (len (pre ++ ["&"]%byte)) by (len_simpl; lia).
    apply slice_middle. }
  simpl in Hname. apply andb_true_iff in Hname as [Hc Hname].
  cbn [ResolveEntityNames_loop]. cbv zeta.
  replace (len pre <? len source) with true by (symmetry; apply Z.ltb_lt; lia).
  rewrite H0. cbn [bind]. change ("&" =? "&")%byte with true. cbv iota.
  replace (len pre + 1 <? len source) with true
    by (symmetry; apply Z.ltb_lt; lia).
  cbn [and_then]. rewrite H1. cbn [bind].
  destruct (IsAlphaNumeric_plain c Hc) as [-> _]. cbn [negb].
  rewrite H3. cbn [bind]. cbv beta iota.
  replace (len pre + 1 + len (c :: name) <? len source) with true
    by (symmetry; apply Z.ltb_lt; lia).
  cbn [andb and_then]. rewrite H4. cbn [bind].
  change (";" =? ";")%byte with true. cbv iota.
  rewrite H5. cbn [bind]. unfold BytesToReadOnlyString.
  destruct (LookUpHTML5EntityByName (c :: name)); [reflexivity|].
  f_equal. lia.
Qed.

Lemma ResolveEntityNames_loop_end (source : bytes) (fuel : nat)
    (cob : CopyOnWriteBuffer) (n i : Z) :
  len source <= i ->
  ResolveEntityNames_loop LookUpHTML5EntityByName (S fuel) source cob n i
  = Ok (cob, n).
Proof.
  intros Hi. cbn [ResolveEntityNames_loop]. cbv zeta.
  replace (i <? len source) with false by (symmetry; apply Z.ltb_ge; lia).
  reflexivity.
Qed.

(** X25: a named reference [&name;] with an alphanumeric name, in a text
    with no other [&], is replaced by the characters the entity table
    gives for the name, the text before and after being kept; when the
    table has no such name the text is returned unchanged. *)
Theorem ResolveEntityNames_named_reference
    (pre : bytes) (c : byte) (name post : bytes) :
  no_reference pre = true ->
  no_reference post = true ->
  forallb IsAlphaNumeric (c :: name) = true ->
  ResolveEntityNames LookUpHTML5EntityByName
    (pre ++ "&" :: (c :: name) ++ ";" :: post)%byte
  = Ok (match LookUpHTML5EntityByName (c :: name) with
        | Some characters => pre ++ characters ++ post
        | None => (pre ++ "&" :: (c :: name) ++ ";" :: post)%byte
        end).
Proof.
  intros Hpre Hpost Hname. cbn [app].
  set (source := (pre ++ "&" :: c :: name ++ ";" :: post)%byte).
  pose proof (len_nonneg pre) as Hp. pose proof (len_nonneg name) as Hl.
  pose proof (len_nonneg post) as Hq.
  assert (Hcn : len (c :: name) = len name + 1) by (len_simpl; lia).
  unfold ResolveEntityNames, ResolveEntityNames_cob.
  replace (S (length source))
    with (length pre + S (length (c :: name ++ ";" :: post)%byte + 1))%nat
    by (unfold source; rewrite length_app; simpl; lia).
  pose proof (ResolveEntityNames_loop_skip pre []
                ("&" :: c :: name ++ ";" :: post)%byte
                (S (length (c :: name ++ ";" :: post)%byte + 1))
                (NewCopyOnWriteBuffer source) 0 Hpre) as Hskip.
  cbn [app] in Hskip. change (len []) with 0 in Hskip.
  rewrite Z.add_0_l in Hskip. fold source in Hskip. rewrite Hskip.
  unfold source at 1.
  rewrite ResolveEntityNames_loop_name by assumption.
  fold source.
  destruct (LookUpHTML5EntityByName (c :: name)) as [characters|].
  - unfold source at 1. rewrite slice_prefix. fold source. cbn [bind].
    assert (E : source = (pre ++ "&" :: c :: name ++ [";"])%byte ++ post ++ []).
    { unfold source. rewrite app_nil_r, <- !app_assoc. cbn [app].
      rewrite <- app_assoc. reflexivity. }
    replace (length (c :: name ++ ";" :: post)%byte + 1)%nat
      with (length post + S (length name + 2))%nat
      by (simpl; rewrite length_app; simpl; lia).
    pose proof (ResolveEntityNames_loop_skip post
                  (pre ++ "&" :: c :: name ++ [";"])%byte []
                  (S (length name + 2))
                  (Write (Write (NewCopyOnWriteBuffer source) pre) characters)
                  (len pre + 1 + len (c :: name) + 1) Hpost) as Hskip2.
    rewrite <- E in Hskip2.
    replace (len (pre ++ "&" :: c :: name ++ [";"])%byte)
      with (len pre + 1 + len (c :: name) + 1) in Hskip2
      by (len_simpl; lia).
    rewrite Hskip2.
    rewrite ResolveEntityNames_loop_end by (unfold source; len_simpl; lia).
    cbn [bind]. cbv beta iota.
    change (IsCopied (Write (Write (NewCopyOnWriteBuffer source) pre) characters))
      with true.
    cbv iota.
    rewrite E at 1. rewrite app_nil_r.
    rewrite slice_from_suffix by (len_simpl; lia).
    cbn [bind]. f_equal. unfold Bytes, Write, NewCopyOnWriteBuffer. simpl.
    rewrite <- app_assoc. reflexivity.
  - assert (E : source = (pre ++ ["&"]%byte) ++ (c :: name ++ ";" :: post)%byte).
    { unfold source. rewrite <- app_assoc. reflexivity. }
    rewrite E.
    replace (len pre + 1) with (len (pre ++ ["&"]%byte)) by (len_simpl; lia).
    rewrite ResolveEntityNames_loop_plain; [reflexivity | lia |].
    change (c :: name ++ ";" :: post)%byte
      with ((c :: name) ++ ";" :: post)%byte.
    unfold no_reference. rewrite forallb_app.
    fold (no_reference (c :: name)).
    rewrite IsAlphaNumeric_no_reference by assumption.
    simpl. exact Hpost.
Qed.

End EntityNamesResolve.

Lemma ResolveEntityNames_named_reference_witness :
  ResolveEntityNames (fun _ => Some (bytes_of "&"))
    (bytes_of "a " ++ "&" :: ("a" :: bytes_of "mp") ++ ";" :: bytes_of " b")%byte
  = Ok (bytes_of "a " ++ bytes_of "&" ++ bytes_of " b").
Proof.
  apply (ResolveEntityNames_named_reference (fun _ => Some (bytes_of "&"))
           (bytes_of "a ") "a" (bytes_of "mp") (bytes_of " b"));
    reflexivity.
Defined.

(** ** Autolinks *)

Section EmailIndex.

Variable emailDomainRegexp_FindSubmatchIndex : bytes -> option Z.

(** X26: [FindEmailIndex] reads the longest prefix of local-part bytes
    (bit 1 of [emailTable]) and returns -1 unless that prefix is not empty,
    is followed by [@], and at least one byte follows the [@]; then the
    result is decided by the domain pattern on the bytes after the [@]: -1
    without a match, otherwise the offset in the slice where the match
    ends.  It never panics. *)
Theorem FindEmailIndex_local_at_domain (local rest : bytes) :
  forallb (fun c => Z.land (lookup emailTable c) 1 =? 1) local = true ->
  stops (fun c => Z.land (lookup emailTable c) 1 =? 1) rest = true ->
  FindEmailIndex emailDomainRegexp_FindSubmatchIndex (local ++ rest)
  = Ok (match local, rest with
        | _ :: _, c :: (_ :: _) as domain =>
            if (c =? "@")%byte then
              match emailDomainRegexp_FindSubmatchIndex domain with
              | Some match1 => len local + 1 + match1
              | None => -1
              end
            else -1
        | _, _ => -1
        end).
Proof.
  intros Hlocal Hrest. unfold FindEmailIndex.
  rewrite skip_while_prefix by assumption. cbn [bind].
  pose proof (len_nonneg local) as Hl. pose proof (len_nonneg rest) as Hr.
  destruct local as [|l0 local]; [reflexivity|].
  replace (len (l0 :: local) =? 0) with false
    by (symmetry; apply Z.eqb_neq; pose proof (len_nonneg local);
        len_simpl; lia).
  destruct rest as [|c rest].
  - replace (len ((l0 :: local) ++ []) <=? len (l0 :: local)) with true
      by (symmetry; apply Z.leb_le; len_simpl; lia).
    reflexivity.
  - replace (len ((l0 :: local) ++ c :: rest) <=? len (l0 :: local)) with false
      by (symmetry; apply Z.leb_gt; pose proof (len_nonneg rest);
          len_simpl; lia).
    rewrite index_after. cbn [bind].
    destruct (c =? "@")%byte eqn:Hc; cbn [negb];
      [|destruct rest; reflexivity].
    destruct rest as [|d rest].
    + replace (len ((l0 :: local) ++ [c]) <=? len (l0 :: local) + 1) with true
        by (symmetry; apply Z.leb_le; len_simpl; lia).
      reflexivity.
    + replace (len ((l0 :: local) ++ c :: d :: rest) <=? len (l0 :: local) + 1)
        with false
        by (symmetry; apply Z.leb_gt; pose proof (len_nonneg rest);
            len_simpl; lia).
      rewrite (app_cons_assoc (l0 :: local) c (d :: rest)).
      rewrite slice_from_suffix by (len_simpl; lia).
      cbn [bind].
      destruct (emailDomainRegexp_FindSubmatchIndex (d :: rest));
        reflexivity.
Qed.

End EmailIndex.

Lemma FindEmailIndex_local_at_domain_witness :
  FindEmailIndex (fun domain => Some (len domain))
    (bytes_of "user" ++ bytes_of "@example.org")
  = Ok (len (bytes_of "user") + 1 + len (bytes_of "example.org")).
Proof.
  apply (FindEmailIndex_local_at_domain (fun domain => Some (len domain))
           (bytes_of "user") (bytes_of "@example.org")); reflexivity.
Defined.

(** X27: a slice that starts with a letter, continues with 1 to 32 scheme
    bytes (bit 4 of [urlTable]: letters, digits, [+], [.], [-]) and a
    colon is accepted by [FindURLIndex], which returns the offset where the
    run of URL bytes (bit 1 of [urlTable]) after the colon ends. *)
Theorem FindURLIndex_scheme_colon (a : byte) (scheme url rest : bytes) :
  (Z.land (lookup urlTable a) 7 =? 7) = true ->
  forallb (fun c => Z.land (lookup urlTable c) 4 =? 4) scheme = true ->
  (1 <= length scheme <= 32)%nat ->
  forallb (fun c => Z.land (lookup urlTable c) 1 =? 1) url = true ->
  stops (fun c => Z.land (lookup urlTable c) 1 =? 1) rest = true ->
  FindURLIndex (a :: scheme ++ ":" :: url ++ rest)%byte
  = Ok (len (a :: scheme) + 1 + len url).
Proof.
  intros Ha Hscheme Hlen Hurl Hrest.
  set (b := (a :: scheme ++ ":" :: url ++ rest)%byte).
  pose proof (len_nonneg scheme) as Hs. pose proof (len_nonneg url) as Hu.
  pose proof (len_nonneg rest) as Hr.
  assert (Hb : len b = 1 + len scheme + 1 + len url + len rest).
  { unfold b. len_simpl. lia. }
  assert (Hls : len scheme = Z.of_nat (length scheme)) by reflexivity.
  assert (H0 : index b 0 = Ok a) by (apply (index_after [] a)).
  assert (H1 : skip_while (S (length b))
                 (fun c => Z.land (lookup urlTable c) 4 =? 4) b (len b) (0 + 1)
               = Ok (1 + len scheme)).
  { change b with ([a] ++ scheme ++ (":" :: url ++ rest)%byte).
    change (0 + 1) with (len [a]).
    rewrite skip_while_run; [reflexivity | | assumption | reflexivity].
    rewrite !length_app. simpl. lia. }
  assert (E2 : b = (a :: scheme ++ [":"%byte]) ++ url ++ rest).
  { unfold b. cbn [app]. rewrite <- app_assoc. reflexivity. }
  assert (H2 : index b (1 + len scheme) = Ok ":"%byte).
  { change b with ((a :: scheme) ++ (":" :: url ++ rest)%byte).
    apply index_after'. len_simpl. lia. }
  assert (H3 : skip_while (S (length b))
                 (fun c => Z.land (lookup urlTable c) 1 =? 1) b (len b)
                 (1 + len scheme + 1)
               = Ok (len (a :: scheme) + 1 + len url)).
  { rewrite E2.
    replace (1 + len scheme + 1) with (len (a :: scheme ++ [":"%byte]))
      by (len_simpl; lia).
    rewrite skip_while_run; try assumption.
    - f_equal. len_simpl. lia.
    - rewrite !length_app. simpl. lia. }
  unfold FindURLIndex. cbv zeta. fold b.
  replace (0 <? len b) with true by (symmetry; apply Z.ltb_lt; lia).
  cbn [and_then]. rewrite H0. cbn [bind]. rewrite Ha. cbn [negb].
  rewrite H1. cbn [bind].
  replace (1 + len scheme =? 1) with false by (symmetry; apply Z.eqb_neq; lia).
  replace (33 <? 1 + len scheme) with false by (symmetry; apply Z.ltb_ge; lia).
  replace (len b <=? 1 + len scheme) with false
    by (symmetry; apply Z.leb_gt; lia).
  cbn [orb]. rewrite H2. cbn [bind].
  change (":" =? ":")%byte with true. cbn [negb].
  rewrite H3. reflexivity.
Qed.

Lemma FindURLIndex_scheme_colon_witness :
  FindURLIndex ("h" :: bytes_of "ttp" ++ ":" :: bytes_of "//a.b/c" ++ bytes_of " d")%byte
  = Ok (len ("h" :: bytes_of "ttp")%byte + 1 + len (bytes_of "//a.b/c")).
Proof.
  apply (FindURLIndex_scheme_colon "h" (bytes_of "ttp") (bytes_of "//a.b/c")
           (bytes_of " d")); try reflexivity.
  simpl. lia.
Defined.

(** ** URL escaping *)

Lemma ascii_no_percent_facts (c : byte) :
  ascii_no_percent c = true ->
  (c =? "%")%byte = false /\ lookup utf8lenTable c = 1.
Proof. destruct c; try discriminate; auto. Qed.

Lemma slice_one {A : Type} (a : list A) (c : A) (rest : list A) (i : Z) :
  i = len a -> slice (a ++ c :: rest) i (i + 1) = Ok [c].
Proof.
  intros ->. change (c :: rest) with ([c] ++ rest).
  change 1 with (len [c]). apply slice_middle.
Qed.

Lemma URLEscape_loop_spec (suffix : bytes) :
  forall (done plain : bytes) (fuel : nat) (cob : CopyOnWriteBuffer),
    (length suffix < fuel)%nat ->
    forallb ascii_no_percent suffix = true ->
    (copied cob = false -> done = []) ->
    exists done' plain' cob',
      done ++ plain ++ suffix = done' ++ plain'
      /\ URLEscape_loop fuel (done ++ plain ++ suffix) cob
           (len done) (len done + len plain)
         = Ok (cob', len done')
      /\ written cob' ++ plain'
         = written cob ++ plain ++ flat_map url_escaped_byte suffix
      /\ (copied cob' = false -> cob' = cob /\ done' = []).
Proof.
  induction suffix as [|c suffix IH];
    intros done plain fuel cob Hfuel Hascii Hcob;
    destruct fuel as [|fuel]; try (simpl in Hfuel; lia);
    cbn [URLEscape_loop]; cbv zeta.
  - rewrite ltb_len2_end. exists done, plain, cob.
    cbn [flat_map]. rewrite !app_nil_r. repeat split; auto.
  - rewrite ltb_len2, index_after2. cbn [bind]. simpl in Hfuel.
    simpl in Hascii. apply andb_true_iff in Hascii as [Hc Hascii].
    destruct (ascii_no_percent_facts c Hc) as [Hpct Hlen].
    assert (Hflush :
      forall out,
        url_escaped_byte c = out ->
        exists done' plain' cob',
          done ++ plain ++ c :: suffix = done' ++ plain'
          /\ URLEscape_loop fuel (done ++ plain ++ c :: suffix)
               (Write (Write cob plain) out)
               (len done + len plain + 1) (len done + len plain + 1)
             = Ok (cob', len done')
          /\ written cob' ++ plain'
             = written cob ++ plain ++ flat_map url_escaped_byte (c :: suffix)
          /\ (copied cob' = false -> cob' = cob /\ done' = [])).
    { intros out Hout.
      assert (Hv : done ++ plain ++ c :: suffix
                   = (done ++ plain ++ [c]) ++ [] ++ suffix).
      { rewrite <- !app_assoc. reflexivity. }
      rewrite Hv.
      replace (len done + len plain + 1)
        with (len (done ++ plain ++ [c])) by (len_simpl; lia).
      destruct (flush_step cob plain out) as [Hw Hcopied].
      destruct (IH (done ++ plain ++ [c]) [] fuel
                  (Write (Write cob plain) out) ltac:(lia) Hascii)
        as (done' & plain' & cob' & E & Hr & Hres & Hsame).
      { rewrite Hcopied. discriminate. }
      exists done', plain', cob'. split; [exact E|]. split.
      { rewrite <- Hr. f_equal. len_simpl. lia. }
      split.
      { rewrite Hres, Hw. cbn [flat_map app]. rewrite Hout.
        rewrite <- !app_assoc. reflexivity. }
      intros Hf. destruct (Hsame Hf) as [-> _]. rewrite Hcopied in Hf.
      discriminate. }
    destruct (lookup urlEscapeTable c =? 1) eqn:Hsafe.
    + assert (Hv : done ++ plain ++ c :: suffix
                   = done ++ (plain ++ [c]) ++ suffix).
      { rewrite <- !app_assoc. reflexivity. }
      rewrite Hv.
      replace (len done + len plain + 1)
        with (len done + len (plain ++ [c])) by (len_simpl; lia).
      destruct (IH done (plain ++ [c]) fuel cob ltac:(lia) Hascii Hcob)
        as (done' & plain' & cob' & E & Hr & Hres & Hsame).
      exists done', plain', cob'. repeat split; try assumption;
        try (apply Hsame; assumption).
      rewrite Hres. cbn [flat_map]. unfold url_escaped_byte at 2.
      unfold url_safe. rewrite Hsafe. rewrite <- !app_assoc. reflexivity.
    + rewrite Hpct. cbn [andb and_then bind]. rewrite Hlen.
      change (1 =? 99) with false. cbv iota.
      destruct (c =? " ")%byte eqn:Hsp.
      * rewrite slice_middle. cbn [bind].
        apply Hflush. unfold url_escaped_byte, url_safe.
        rewrite Hsafe, Hsp. reflexivity.
      * rewrite slice_middle. cbn [bind].
        rewrite app_assoc, slice_one by (len_simpl; lia).
        rewrite <- app_assoc. cbn [bind]. unfold StringToReadOnlyBytes.
        apply Hflush. unfold url_escaped_byte, url_safe.
        rewrite Hsafe, Hsp. reflexivity.
Qed.

Section EntityNamesEscape.

Variable LookUpHTML5EntityByName : bytes -> option bytes.

(** X28: on ASCII input without [%], [URLEscape] without reference
    resolution keeps every URL-safe byte, writes [%20] for a space (not the
    [+] of [url.QueryEscape]) and the percent-encoding of every other
    byte. *)
Theorem URLEscape_ascii (v : bytes) :
  forallb ascii_no_percent v = true ->
  URLEscape LookUpHTML5EntityByName v false
  = Ok (flat_map (fun c => if url_safe c then [c]
                           else if (c =? " ")%byte then htmlSpace
                           else QueryEscape [c]) v).
Proof.
  intros Hascii. unfold URLEscape, URLEscape_cob. cbn [bind].
  destruct (URLEscape_loop_spec v [] [] (S (length v)) (NewCopyOnWriteBuffer v))
    as (done' & plain' & cob' & E & Hr & Hout & Hsame);
    [lia | assumption | reflexivity |].
  cbn [app] in E, Hr, Hout. change (len [] + len []) with 0 in Hr.
  change (len []) with 0 in Hr.
  rewrite Hr. cbn [bind]. unfold IsCopied, Bytes.
  change (flat_map (fun c => if url_safe c then [c]
                             else if (c =? " ")%byte then htmlSpace
                             else QueryEscape [c]) v)
    with (flat_map url_escaped_byte v).
  destruct (copied cob') eqn:Hc.
  - rewrite E at 1. rewrite slice_from_suffix by reflexivity. cbn [bind].
    f_equal. unfold written in Hout. rewrite Hc in Hout. cbn in Hout.
    rewrite <- Hout. unfold Write. rewrite Hc. reflexivity.
  - destruct (Hsame eq_refl) as [-> ->]. cbn [bind]. f_equal.
    cbn in Hout. cbn [app] in E. rewrite <- Hout. exact E.
Qed.

End EntityNamesEscape.

Lemma URLEscape_ascii_witness :
  URLEscape (fun _ => None) (bytes_of "a b<c") false
  = Ok (bytes_of "a%20b%3Cc").
Proof.
  apply (URLEscape_ascii (fun _ => None) (bytes_of "a b<c")). reflexivity.
Defined.

(** ** Closers in plain text *)

Lemma byte_eqb_refl (c : byte) : (c =? c)%byte = true.
Proof. destruct c; reflexivity. Qed.

Lemma FindClosure_loop_plain (opener closure : byte)
    (codeSpan allowNesting : bool) (pre : bytes) :
  forall (done rest : bytes) (fuel : nat),
    (length pre < fuel)%nat ->
    forallb (fun c => negb ((c =? "\")%byte || (c =? "`")%byte
                            || (c =? opener)%byte || (c =? closure)%byte))
      pre = true ->
    negb ((closure =? "\")%byte || (closure =? "`")%byte) = true ->
    FindClosure_loop fuel (done ++ pre ++ closure :: rest) opener closure
      codeSpan allowNesting (len done) 1 0
    = Ok (len done + len pre).
Proof.
  induction pre as [|c pre IH]; intros done rest fuel Hfuel Hpre Hclosure;
    destruct fuel as [|fuel]; try (simpl in Hfuel; lia);
    cbn [FindClosure_loop app]; cbv zeta;
    rewrite ltb_len_prefix, index_after; cbn [bind];
    change (0 =? 0) with true; cbn [negb];
    rewrite andb_false_r; cbn [andb].
  - apply negb_true_iff, orb_false_iff in Hclosure as [Hbs Hbt].
    rewrite Hbs, Hbt. cbn [and_then bind]. rewrite andb_false_r.
    replace (codeSpan && true || negb codeSpan) with true
      by (destruct codeSpan; reflexivity).
    rewrite byte_eqb_refl. change (1 - 1 =? 0) with true. cbv iota.
    f_equal. len_simpl. lia.
  - simpl in Hpre. apply andb_true_iff in Hpre as [Hc Hpre].
    apply negb_true_iff in Hc.
    apply orb_false_iff in Hc as [Hc Hcl].
    apply orb_false_iff in Hc as [Hc Hop].
    apply orb_false_iff in Hc as [Hbs Hbt].
    rewrite Hbs, Hbt. cbn [and_then bind]. rewrite andb_false_r.
    replace (codeSpan && true || negb codeSpan) with true
      by (destruct codeSpan; reflexivity).
    rewrite Hcl, Hop.
    rewrite app_cons_assoc.
    replace (len done + 1) with (len (done ++ [c])) by (len_simpl; lia).
    rewrite IH by (simpl in Hfuel; lia || assumption).
    f_equal. len_simpl. lia.
Qed.

(** X29: in a text whose bytes before the first closure byte are neither
    a backslash, a backtick, the opener nor the closure, [FindClosure]
    returns the offset of that first closure byte, with or without code
    spans and nesting.  The closure byte is neither a backslash nor a
    backtick. *)
Theorem FindClosure_first_closure (pre rest : bytes) (opener closure : byte)
    (codeSpan allowNesting : bool) :
  forallb (fun c => negb ((c =? "\")%byte || (c =? "`")%byte
                          || (c =? opener)%byte || (c =? closure)%byte))
    pre = true ->
  negb ((closure =? "\")%byte || (closure =? "`")%byte) = true ->
  FindClosure (pre ++ closure :: rest) opener closure codeSpan allowNesting
  = Ok (len pre).
Proof.
  intros Hpre Hclosure. unfold FindClosure.
  pose proof (FindClosure_loop_plain opener closure codeSpan allowNesting pre
                [] rest (S (length (pre ++ closure :: rest)))) as H.
  cbn [app] in H. change (len []) with 0 in H.
  rewrite H; [reflexivity | rewrite length_app; lia | assumption | assumption].
Qed.

Lemma FindClosure_first_closure_witness :
  FindClosure (bytes_of "a b" ++ ")" :: bytes_of " c)")%byte "(" ")" true false
  = Ok (len (bytes_of "a b")).
Proof.
  apply (FindClosure_first_closure (bytes_of "a b") (bytes_of " c)") "(" ")"
           true false); reflexivity.
Defined.

(** X30: [ReadWhile], called as its callers do with the end of the slice
    as the stop, reads the longest run of bytes that satisfy the predicate
    from the start offset: it returns the offset after the run, and [true]
    exactly when the run is not empty.  It does not panic. *)
Theorem ReadWhile_reads_run (pred : byte -> bool) (pre run rest : bytes) :
  forallb pred run = true ->
  stops pred rest = true ->
  ReadWhile (pre ++ run ++ rest) (len pre, len (pre ++ run ++ rest)) pred
  = Ok (len pre + len run, match run with [] => false | _ :: _ => true end).
Proof.
  intros Hrun Hstop. unfold ReadWhile. cbn [fst snd].
  apply ReadWhile_loop_run; [|assumption..].
  pose proof (len_nonneg rest). pose proof (len_nonneg run).
  len_simpl. unfold len in *. lia.
Qed.

Lemma ReadWhile_reads_run_witness :
  ReadWhile (bytes_of "&#" ++ bytes_of "123" ++ bytes_of ";x")
    (len (bytes_of "&#"), len (bytes_of "&#" ++ bytes_of "123" ++ bytes_of ";x"))
    IsNumeric
  = Ok (len (bytes_of "&#") + len (bytes_of "123"), true).
Proof.
  apply (ReadWhile_reads_run IsNumeric (bytes_of "&#") (bytes_of "123")
           (bytes_of ";x")); reflexivity.
Defined.

(** ** Unresolved references *)




Section UnresolvedReferences.

Variable LookUpHTML5EntityByName : bytes -> option bytes.





End UnresolvedReferences.

(** ** [sort.Slice]: the slice as an array of keys *)

Lemma len_update {A : Type} (x : list A) (i : Z) (v : A) :
  len (update x i v) = len x.
Proof.
  unfold update, len. f_equal. generalize (Z.to_nat i) as n.
  induction x as [|y x IH]; intros [|n]; cbn [update_nat length]; auto.
Qed.

Lemma nth_error_update_nat {A : Type} (x : list A) (i k : nat) (v : A) :
  (i < length x)%nat ->
  nth_error (update_nat x i v) k =
  if Nat.eqb k i then Some v else nth_error x k.
Proof.
  revert i k. induction x as [|y x IH]; intros i k Hi; cbn [length] in Hi.
  - lia.
  - destruct i as [|i], k as [|k]; cbn [update_nat nth_error Nat.eqb]; auto.
    apply IH. lia.
Qed.

Lemma index_update {A : Type} (x : list A) (i k : Z) (v : A) :
  0 <= i < len x ->
  index (update x i v) k = if k =? i then Ok v else index x k.
Proof.
  intros Hi. unfold index. rewrite len_update.
  destruct ((0 <=? k) && (k <? len x)) eqn:Hk.
  - apply andb_true_iff in Hk. destruct Hk as [Hk1 Hk2].
    apply Z.leb_le in Hk1. apply Z.ltb_lt in Hk2.
    unfold update. rewrite nth_error_update_nat by (unfold len in Hi; lia).
    destruct (Z.eqb_spec k i) as [->|Hne].
    + rewrite Nat.eqb_refl. reflexivity.
    + destruct (Nat.eqb_spec (Z.to_nat k) (Z.to_nat i)) as [E|_]; [lia|].
      reflexivity.
  - destruct (Z.eqb_spec k i) as [->|Hne]; [|reflexivity].
    apply andb_false_iff in Hk. rewrite Z.leb_gt, Z.ltb_ge in Hk. lia.
Qed.

Lemma update_nat_middle {A : Type} (l1 : list A) (x v : A) (l2 : list A) :
  update_nat (l1 ++ x :: l2) (length l1) v = l1 ++ v :: l2.
Proof.
  induction l1 as [|y l1 IH]; cbn [app length update_nat]; [reflexivity|].
  rewrite IH. reflexivity.
Qed.

Lemma update_nat_same {A : Type} (x : list A) (i : nat) (v : A) :
  nth_error x i = Some v -> update_nat x i v = x.
Proof.
  revert i. induction x as [|y x IH]; intros [|i] H;
    cbn [nth_error update_nat] in *; try discriminate.
  - congruence.
  - rewrite IH by exact H. reflexivity.
Qed.

Lemma update_nat_middle2 {A : Type} (l1 : list A) (y : A) (l3 : list A)
    (x v : A) (l4 : list A) :
  update_nat (l1 ++ y :: l3 ++ x :: l4) (length l1 + S (length l3)) v =
  l1 ++ y :: l3 ++ v :: l4.
Proof.
  replace (l1 ++ y :: l3 ++ x :: l4) with ((l1 ++ y :: l3) ++ x :: l4)
    by (rewrite <- app_assoc; reflexivity).
  replace (length l1 + S (length l3))%nat with (length (l1 ++ y :: l3))
    by (rewrite length_app; reflexivity).
  rewrite update_nat_middle, <- app_assoc. reflexivity.
Qed.

(** Exchanging two elements of a slice permutes it. *)
Lemma update_nat_swap_perm {A : Type} (x : list A) (i j : nat) (xi xj : A) :
  (i < j)%nat ->
  nth_error x i = Some xi -> nth_error x j = Some xj ->
  Permutation x (update_nat (update_nat x i xj) j xi) /\
  Permutation x (update_nat (update_nat x j xi) i xj).
Proof.
  intros Hij Hi Hj.
  destruct (nth_error_split x i Hi) as (l1 & l2 & -> & Hl1).
  assert (Hj2 : nth_error l2 (j - i - 1) = Some xj).
  { rewrite nth_error_app2 in Hj by lia.
    replace (j - length l1)%nat with (S (j - i - 1)) in Hj by lia.
    exact Hj. }
  destruct (nth_error_split l2 _ Hj2) as (l3 & l4 & -> & Hl3).
  assert (Ej : j = (length l1 + S (length l3))%nat) by lia.
  subst i j.
  assert (P0 : Permutation (l1 ++ xi :: l3 ++ xj :: l4)
                           (l1 ++ xj :: l3 ++ xi :: l4)).
  { apply Permutation_app_head.
    apply Permutation_trans with (xi :: xj :: l3 ++ l4).
    - apply perm_skip. apply Permutation_sym. apply Permutation_middle.
    - apply Permutation_trans with (xj :: xi :: l3 ++ l4); [apply perm_swap|].
      apply perm_skip. apply Permutation_middle. }
  split.
  - rewrite update_nat_middle, update_nat_middle2. exact P0.
  - rewrite update_nat_middle2, update_nat_middle. exact P0.
Qed.

Section SortSliceFacts.

Variable A : Type.
Variable key : A -> Z.
Variable Less : list A -> Z -> Z -> result bool.

(** [Less] reads the two elements and compares their keys. *)
Hypothesis Less_key : forall data i j,
  Less data i j =
  (xi <- index data i ;; xj <- index data j ;; Ok (key xi <? key xj)).

(** In range, [Less] compares the keys and [Swap] exchanges two elements;
    neither panics. *)
Lemma Less_ok (data : list A) (i j : Z) :
  0 <= i < len data -> 0 <= j < len data ->
  Less data i j = Ok (key_at key data i <? key_at key data j).
Proof.
  intros Hi Hj. rewrite Less_key. unfold key_at.
  destruct (index_in_range data i Hi) as [xi ->].
  destruct (index_in_range data j Hj) as [xj ->]. reflexivity.
Qed.

Lemma Swap_ok (data : list A) (i j : Z) :
  0 <= i < len data -> 0 <= j < len data ->
  exists data', Swap data i j = Ok data' /\ swapped key data i j data'.
Proof.
  intros Hi Hj. unfold Swap.
  destruct (index_in_range data i Hi) as [xi Ei].
  destruct (index_in_range data j Hj) as [xj Ej].
  rewrite Ei, Ej. cbn [bind]. eexists. split; [reflexivity|].
  assert (Ni : nth_error data (Z.to_nat i) = Some xi).
  { unfold index in Ei.
    destruct ((0 <=? i) && (i <? len data)); [|discriminate].
    destruct (nth_error data (Z.to_nat i)); congruence. }
  assert (Nj : nth_error data (Z.to_nat j) = Some xj).
  { unfold index in Ej.
    destruct ((0 <=? j) && (j <? len data)); [|discriminate].
    destruct (nth_error data (Z.to_nat j)); congruence. }
  split; [|split].
  - rewrite !len_update. reflexivity.
  - unfold update.
    destruct (Z.lt_trichotomy i j) as [Hlt|[->|Hgt]].
    + apply (update_nat_swap_perm data (Z.to_nat i) (Z.to_nat j) xi xj);
        auto; lia.
    + assert (xi = xj) by congruence. subst xj.
      rewrite !(update_nat_same data _ xi Ni). apply Permutation_refl.
    + apply (update_nat_swap_perm data (Z.to_nat j) (Z.to_nat i) xj xi);
        auto; lia.
  - intros k. unfold key_at.
    rewrite index_update by (rewrite len_update; lia).
    rewrite index_update by lia.
    destruct (Z.eqb_spec k i) as [->|Hki].
    + destruct (Z.eqb_spec i j) as [->|Hij]; rewrite Ej; [|reflexivity].
      congruence.
    + destruct (Z.eqb_spec k j) as [->|Hkj]; [rewrite Ei|]; reflexivity.
Qed.

Lemma rearranged_refl (a b : Z) (data : list A) : rearranged key a b data data.
Proof. split; [|split; [|split]]; auto. Qed.

Lemma rearranged_trans (a b : Z) (d1 d2 d3 : list A) :
  rearranged key a b d1 d2 -> rearranged key a b d2 d3 -> rearranged key a b d1 d3.
Proof.
  intros (L1 & P1 & O1 & B1) (L2 & P2 & O2 & B2).
  split; [|split; [|split]].
  - congruence.
  - eapply Permutation_trans; eauto.
  - intros k Hk. rewrite O2, O1; auto.
  - intros P HP k Hk. apply B2; [|exact Hk].
    intros k' Hk'. apply B1; assumption.
Qed.

Lemma rearranged_mono (a b a' b' : Z) (d1 d2 : list A) :
  a' <= a -> b <= b' -> rearranged key a b d1 d2 -> rearranged key a' b' d1 d2.
Proof.
  intros Ha Hb (L1 & P1 & O1 & B1).
  split; [|split; [|split]]; auto.
  - intros k Hk. apply O1. lia.
  - intros P HP k Hk.
    destruct (Z_lt_dec k a) as [H1|H1]; [rewrite O1 by lia; apply HP; lia|].
    destruct (Z_le_dec b k) as [H2|H2]; [rewrite O1 by lia; apply HP; lia|].
    apply B1; [|lia]. intros k' Hk'. apply HP. lia.
Qed.

Lemma rearranged_swap (a b : Z) (data data' : list A) (i j : Z) :
  swapped key data i j data' -> a <= i < b -> a <= j < b ->
  rearranged key a b data data'.
Proof.
  intros (L & P & K) Hi Hj.
  split; [|split; [|split]]; auto.
  - intros k Hk. rewrite K.
    destruct (Z.eqb_spec k i); [lia|]. destruct (Z.eqb_spec k j); [lia|].
    reflexivity.
  - intros Q HQ k Hk. rewrite K.
    destruct (Z.eqb_spec k i); [apply HQ; lia|].
    destruct (Z.eqb_spec k j); apply HQ; lia.
Qed.


Lemma swapped_keys (data : list A) (i j : Z) (data' : list A) :
  swapped key data i j data' ->
  key_at key data' i = key_at key data j /\ key_at key data' j = key_at key data i /\
  forall k, k <> i -> k <> j -> key_at key data' k = key_at key data k.
Proof.
  intros (_ & _ & K). split; [|split].
  - rewrite K, Z.eqb_refl. reflexivity.
  - rewrite K, Z.eqb_refl. destruct (Z.eqb_spec j i); congruence.
  - intros k Hi Hj. rewrite K.
    destruct (Z.eqb_spec k i); [contradiction|].
    destruct (Z.eqb_spec k j); [contradiction|]. reflexivity.
Qed.

(** ** [insertionSort_func] *)

Ltac key_cases :=
  repeat match goal with
         | |- context [Z.eqb ?x ?y] => destruct (Z.eqb_spec x y); try lia
         end.

(** The inner loop moves [data[i]] down into the sorted run [a <= k < i]. *)
Lemma insertionSort_shift_sorts (fuel : nat) (data : list A) (a i j : Z) :
  0 <= a -> a <= j <= i -> i < len data ->
  (Z.to_nat (j - a) < fuel)%nat ->
  sorted_range key a j data -> sorted_range key j (i + 1) data ->
  (forall p q, a <= p < j -> j < q <= i -> key_at key data p <= key_at key data q) ->
  returns (fun data' => rearranged key a (i + 1) data data' /\
                        sorted_range key a (i + 1) data')
          (insertionSort_shift Less fuel data a j).
Proof.
  revert data j. induction fuel as [|fuel IH]; intros data j Ha Hj Hi Hf S1 S2 S3;
    [lia|].
  cbn [insertionSort_shift].
  assert (Hend : key_at key data (j - 1) <= key_at key data j \/ j = a ->
                 sorted_range key a (i + 1) data).
  { intros He p q Hp Hpq Hq.
    destruct (Z_lt_dec p j) as [Hpj|Hpj]; [|apply S2; lia].
    destruct (Z_lt_dec q j) as [Hqj|Hqj]; [apply S1; lia|].
    destruct He as [He|He]; [|lia].
    apply Z.le_trans with (key_at key data (j - 1)); [apply S1; lia|].
    apply Z.le_trans with (key_at key data j); [exact He | apply S2; lia]. }
  destruct (Z.ltb_spec a j) as [Haj|Haj]; cbn [and_then].
  - rewrite Less_ok by lia. cbn [bind].
    destruct (Z.ltb_spec (key_at key data j) (key_at key data (j - 1))) as [Hlt|Hge].
    + destruct (Swap_ok data j (j - 1)) as (data' & -> & Hsw); [lia|lia|].
      cbn [bind].
      assert (R : rearranged key a (i + 1) data data')
        by (eapply rearranged_swap; [exact Hsw|lia|lia]).
      destruct Hsw as (L & _ & K).
      eapply returns_weaken.
      * apply IH; try lia.
        -- intros p q Hp Hpq Hq. rewrite !K. key_cases. apply S1; lia.
        -- intros p q Hp Hpq Hq. rewrite !K.
           key_cases; first [apply S2; lia | apply S3; lia].
        -- intros p q Hp Hq. rewrite !K.
           key_cases; first [apply S1; lia | apply S3; lia].
      * intros data'' [R' S']. split; [|exact S'].
        eapply rearranged_trans; eassumption.
    + cbn [returns]. split; [apply rearranged_refl|]. apply Hend. lia.
  - cbn [bind returns]. split; [apply rearranged_refl|]. apply Hend. lia.
Qed.

Lemma insertionSort_loop_sorts (fuel : nat) (data : list A) (a b i : Z) :
  0 <= a -> a < i -> b <= len data ->
  (Z.to_nat (b - i) < fuel)%nat ->
  sorted_range key a (Z.min i b) data ->
  returns (fun data' => rearranged key a b data data' /\ sorted_range key a b data')
          (insertionSort_loop Less fuel data a b i).
Proof.
  revert data i. induction fuel as [|fuel IH]; intros data i Ha Hi Hb Hf S1;
    [lia|].
  cbn [insertionSort_loop].
  destruct (Z.ltb_spec i b) as [Hlt|Hge].
  - rewrite Z.min_l in S1 by lia.
    eapply returns_bind.
    + apply (insertionSort_shift_sorts _ data a i i); try lia.
      * exact S1.
      * intros p q Hp Hpq Hq. replace q with p by lia. lia.
    + cbn beta. intros data' [R S].
      eapply returns_weaken.
      * apply IH; try lia.
        -- destruct R as (L & _). lia.
        -- intros p q Hp Hpq Hq. apply S; lia.
      * intros data'' [R'' S'']. split; [|exact S''].
        eapply rearranged_trans; [|exact R''].
        eapply rearranged_mono; [| |exact R]; lia.
  - rewrite Z.min_r in S1 by lia.
    cbn [returns]. split; [apply rearranged_refl|exact S1].
Qed.

(** [insertionSort_func] returns, and sorts [a <= k < b]. *)
Lemma insertionSort_func_sorts (data : list A) (a b : Z) :
  0 <= a -> b <= len data ->
  returns (fun data' => rearranged key a b data data' /\ sorted_range key a b data')
          (insertionSort_func Less data a b).
Proof.
  intros Ha Hb. unfold insertionSort_func.
  apply insertionSort_loop_sorts; try lia.
  intros p q Hp Hpq Hq. replace q with p by lia. lia.
Qed.

(** ** The Shell pass and [medianOfThree_func] *)

(** The pass of gap 6 only rearranges [a <= k < b]. *)
Lemma quickSort_shell_rearranges (fuel : nat) (data : list A) (a b i : Z) :
  0 <= a -> a + 6 <= i -> b <= len data ->
  (Z.to_nat (b - i) < fuel)%nat ->
  returns (rearranged key a b data) (quickSort_shell Less fuel data b i).
Proof.
  revert data i. induction fuel as [|fuel IH]; intros data i Ha Hi Hb Hf; [lia|].
  cbn [quickSort_shell].
  destruct (Z.ltb_spec i b) as [Hlt|Hge];
    [|cbn [returns]; apply rearranged_refl].
  rewrite Less_ok by lia. cbn [bind].
  destruct (key_at key data i <? key_at key data (i - 6)).
  - destruct (Swap_ok data i (i - 6)) as (data' & -> & Hsw); [lia|lia|].
    cbn [bind].
    assert (R : rearranged key a b data data')
      by (eapply rearranged_swap; [exact Hsw|lia|lia]).
    eapply returns_weaken.
    + apply IH; try lia. destruct R as (L & _). lia.
    + intros data'' R'. eapply rearranged_trans; eassumption.
  - cbn [bind]. apply IH; lia.
Qed.

(** [medianOfThree_func] leaves the median of three distinct places in
    [m1]. *)
Lemma medianOfThree_func_orders (data : list A) (a b m1 m0 m2 : Z) :
  0 <= a -> b <= len data ->
  a <= m0 < b -> a <= m1 < b -> a <= m2 < b ->
  returns (fun data' =>
             rearranged key a b data data' /\
             (m0 <> m1 -> m1 <> m2 -> m0 <> m2 ->
              key_at key data' m0 <= key_at key data' m1 <= key_at key data' m2))
          (medianOfThree_func Less data m1 m0 m2).
Proof.
  intros Ha Hb H0 H1 H2. unfold medianOfThree_func.
  rewrite Less_ok by lia. cbn [bind].
  assert (Step1 : exists d1,
            (if key_at key data m1 <? key_at key data m0 then Swap data m1 m0
             else Ok data) = Ok d1 /\
            rearranged key a b data d1 /\
            (m0 <> m1 -> key_at key d1 m0 <= key_at key d1 m1)).
  { destruct (Z.ltb_spec (key_at key data m1) (key_at key data m0)) as [Hlt|Hge].
    - destruct (Swap_ok data m1 m0) as (d1 & -> & Hsw); [lia|lia|].
      exists d1. split; [reflexivity|]. split.
      + eapply rearranged_swap; [exact Hsw|lia|lia].
      + destruct Hsw as (_ & _ & K). intros Hne. rewrite !K.
        key_cases.
    - exists data. split; [reflexivity|]. split; [apply rearranged_refl|].
      intros _. lia. }
  destruct Step1 as (d1 & -> & R1 & O1). cbn [bind].
  assert (L1 : len d1 = len data) by apply R1.
  rewrite Less_ok by lia. cbn [bind].
  destruct (Z.ltb_spec (key_at key d1 m2) (key_at key d1 m1)) as [Hlt|Hge].
  - destruct (Swap_ok d1 m2 m1) as (d2 & -> & Hsw); [lia|lia|].
    cbn [bind].
    assert (R2 : rearranged key a b d1 d2)
      by (eapply rearranged_swap; [exact Hsw|lia|lia]).
    assert (L2 : len d2 = len d1) by apply R2.
    rename Hsw into Hsw2.
    rewrite Less_ok by lia. cbn [bind].
    destruct (Z.ltb_spec (key_at key d2 m1) (key_at key d2 m0)) as [Hlt'|Hge'].
    + destruct (Swap_ok d2 m1 m0) as (d3 & -> & Hsw); [lia|lia|].
      cbn [returns].
      assert (R3 : rearranged key a b d2 d3)
        by (eapply rearranged_swap; [exact Hsw|lia|lia]).
      split.
      * eapply rearranged_trans; [exact R1|].
        eapply rearranged_trans; eassumption.
      * intros N1 N2 N3. specialize (O1 N1).
        destruct (swapped_keys _ _ _ _ Hsw) as (K3a & K3b & K3c).
        destruct (swapped_keys _ _ _ _ Hsw2) as (K2a & K2b & K2c).
        rewrite K3a, K3b, (K3c m2), K2a, K2b, (K2c m0) by congruence.
        rewrite K2b, (K2c m0) in Hlt' by congruence. lia.
    + cbn [returns]. split.
      * eapply rearranged_trans; eassumption.
      * intros N1 N2 N3. specialize (O1 N1).
        destruct (swapped_keys _ _ _ _ Hsw2) as (K2a & K2b & K2c).
        rewrite K2b, (K2c m0) in Hge' by congruence.
        rewrite K2a, K2b, (K2c m0) by congruence. lia.
  - cbn [returns]. split; [exact R1|]. intros N1 N2 N3.
    specialize (O1 N1). lia.
Qed.

(** ** [doPivot_func]: the scans *)

(** Each scan stops inside its bounds, at the first element that fails its
    test. *)
Lemma doPivot_skip_less_stops (fuel : nat) (data : list A) (pivot c a : Z) :
  0 <= pivot < len data -> 0 <= a -> c <= len data ->
  (Z.to_nat (c - a) < fuel)%nat ->
  returns (fun a' =>
             a <= a' /\ a' <= Z.max a c /\
             (forall k, a <= k < a' -> key_at key data k < key_at key data pivot) /\
             (a' < c -> key_at key data pivot <= key_at key data a'))
          (doPivot_skip_less Less fuel data pivot c a).
Proof.
  revert a. induction fuel as [|fuel IH]; intros a Hp Ha Hc Hf; [lia|].
  cbn [doPivot_skip_less].
  destruct (Z.ltb_spec a c) as [Hlt|Hge]; cbn [and_then].
  - rewrite Less_ok by lia. cbn [bind].
    destruct (Z.ltb_spec (key_at key data a) (key_at key data pivot)) as [Hk|Hk].
    + eapply returns_weaken; [apply IH; lia|].
      cbn beta. intros a' (H1 & H2 & H3 & H4).
      split; [lia|]. split; [lia|]. split; [|exact H4].
      intros k Hk'. destruct (Z.eq_dec k a) as [->|Hne]; [exact Hk|].
      apply H3. lia.
    + cbn [returns]. split; [lia|]. split; [lia|]. split; [intros; lia|].
      intros _. exact Hk.
  - cbn [bind returns]. split; [lia|]. split; [lia|]. split; intros; lia.
Qed.

Lemma doPivot_skip_le_stops (fuel : nat) (data : list A) (pivot c b : Z) :
  0 <= pivot < len data -> 0 <= b -> c <= len data ->
  (Z.to_nat (c - b) < fuel)%nat ->
  returns (fun b' =>
             b <= b' /\ b' <= Z.max b c /\
             (forall k, b <= k < b' -> key_at key data k <= key_at key data pivot) /\
             (b' < c -> key_at key data pivot < key_at key data b'))
          (doPivot_skip_le Less fuel data pivot c b).
Proof.
  revert b. induction fuel as [|fuel IH]; intros b Hp Hb Hc Hf; [lia|].
  cbn [doPivot_skip_le].
  destruct (Z.ltb_spec b c) as [Hlt|Hge]; cbn [and_then].
  - rewrite Less_ok by lia. cbn [bind].
    destruct (Z.ltb_spec (key_at key data pivot) (key_at key data b)) as [Hk|Hk];
      cbn [negb].
    + cbn [returns]. split; [lia|]. split; [lia|]. split; [intros; lia|].
      intros _. exact Hk.
    + eapply returns_weaken; [apply IH; lia|].
      cbn beta. intros b' (H1 & H2 & H3 & H4).
      split; [lia|]. split; [lia|]. split; [|exact H4].
      intros k Hk'. destruct (Z.eq_dec k b) as [->|Hne]; [exact Hk|].
      apply H3. lia.
  - cbn [bind returns]. split; [lia|]. split; [lia|]. split; intros; lia.
Qed.

Lemma doPivot_skip_gt_stops (fuel : nat) (data : list A) (pivot b c : Z) :
  0 <= pivot < len data -> 0 <= b -> c <= len data ->
  (Z.to_nat (c - b) < fuel)%nat ->
  returns (fun c' =>
             c' <= c /\ Z.min b c <= c' /\
             (forall k, c' <= k < c -> key_at key data pivot < key_at key data k) /\
             (b < c' -> key_at key data (c' - 1) <= key_at key data pivot))
          (doPivot_skip_gt Less fuel data pivot b c).
Proof.
  revert c. induction fuel as [|fuel IH]; intros c Hp Hb Hc Hf; [lia|].
  cbn [doPivot_skip_gt].
  destruct (Z.ltb_spec b c) as [Hlt|Hge]; cbn [and_then].
  - rewrite Less_ok by lia. cbn [bind].
    destruct (Z.ltb_spec (key_at key data pivot) (key_at key data (c - 1))) as [Hk|Hk].
    + eapply returns_weaken; [apply IH; lia|].
      cbn beta. intros c' (H1 & H2 & H3 & H4).
      split; [lia|]. split; [lia|]. split; [|exact H4].
      intros k Hk'. destruct (Z.eq_dec k (c - 1)) as [->|Hne]; [exact Hk|].
      apply H3. lia.
    + cbn [returns]. split; [lia|]. split; [lia|]. split; [intros; lia|].
      intros _. exact Hk.
  - cbn [bind returns]. split; [lia|]. split; [lia|]. split; intros; lia.
Qed.

Lemma doPivot_skip_ge_stops (fuel : nat) (data : list A) (pivot a b : Z) :
  0 <= pivot < len data -> 0 <= a -> b <= len data ->
  (Z.to_nat (b - a) < fuel)%nat ->
  returns (fun b' =>
             b' <= b /\ Z.min a b <= b' /\
             (forall k, b' <= k < b -> key_at key data pivot <= key_at key data k) /\
             (a < b' -> key_at key data (b' - 1) < key_at key data pivot))
          (doPivot_skip_ge Less fuel data pivot a b).
Proof.
  revert b. induction fuel as [|fuel IH]; intros b Hp Ha Hb Hf; [lia|].
  cbn [doPivot_skip_ge].
  destruct (Z.ltb_spec a b) as [Hlt|Hge]; cbn [and_then].
  - rewrite Less_ok by lia. cbn [bind].
    destruct (Z.ltb_spec (key_at key data (b - 1)) (key_at key data pivot)) as [Hk|Hk];
      cbn [negb].
    + cbn [returns]. split; [lia|]. split; [lia|]. split; [intros; lia|].
      intros _. exact Hk.
    + eapply returns_weaken; [apply IH; lia|].
      cbn beta. intros b' (H1 & H2 & H3 & H4).
      split; [lia|]. split; [lia|]. split; [|exact H4].
      intros k Hk'. destruct (Z.eq_dec k (b - 1)) as [->|Hne]; [exact Hk|].
      apply H3. lia.
  - cbn [bind returns]. split; [lia|]. split; [lia|]. split; intros; lia.
Qed.

(** ** [doPivot_func]: the partition *)

(** The partitioning loop ends with [b = c], no more than the pivot below
    and no less from there on. *)
Lemma doPivot_partition_parts (fuel : nat) (data : list A) (lo hi b c p : Z) :
  0 <= lo -> hi <= len data -> lo < b <= c -> c <= hi - 1 ->
  (Z.to_nat (c - b) < fuel)%nat ->
  key_at key data lo = p ->
  (forall k, lo < k < b -> key_at key data k <= p) ->
  (forall k, c <= k < hi -> p <= key_at key data k) ->
  returns (fun '(data', b', c') =>
             rearranged key (lo + 1) (hi - 1) data data' /\
             lo < b' <= hi - 1 /\ partitioned key data' lo b' b' hi p /\ c' = b')
          (doPivot_partition Less fuel data lo b c).
Proof.
  revert data b c.
  induction fuel as [|fuel IH]; intros data b c Hlo Hhi Hb Hc Hf Hp HL HR; [lia|].
  cbn [doPivot_partition].
  eapply returns_bind; [apply doPivot_skip_le_stops; lia|].
  cbn beta. intros b1 (B1 & B2 & B3 & B4). rewrite Hp in B3, B4.
  eapply returns_bind; [apply doPivot_skip_gt_stops; lia|].
  cbn beta. intros c1 (C1 & C2 & C3 & C4). rewrite Hp in C3, C4.
  assert (HL1 : forall k, lo < k < b1 -> key_at key data k <= p).
  { intros k Hk. destruct (Z_lt_dec k b) as [H|H]; [apply HL|apply B3]; lia. }
  assert (HR1 : forall k, c1 <= k < hi -> p <= key_at key data k).
  { intros k Hk. destruct (Z_lt_dec k c) as [H|H]; [|apply HR; lia].
    assert (p < key_at key data k) by (apply C3; lia). lia. }
  destruct (Z.leb_spec c1 b1) as [Hle|Hgt].
  - cbn [returns]. assert (c1 = b1) by lia. subst c1.
    split; [apply rearranged_refl|]. split; [lia|]. split; [|reflexivity].
    split; [exact Hp|]. split; [exact HL1|]. split; [intros; lia|exact HR1].
  - assert (Hne : b1 < c1 - 1).
    { assert (p < key_at key data b1) by (apply B4; lia).
      assert (key_at key data (c1 - 1) <= p) by (apply C4; lia).
      destruct (Z.eq_dec b1 (c1 - 1)) as [E|E]; [rewrite E in *; lia|lia]. }
    destruct (Swap_ok data b1 (c1 - 1)) as (data' & -> & Hsw); [lia|lia|].
    cbn [bind].
    assert (R : rearranged key (lo + 1) (hi - 1) data data')
      by (eapply rearranged_swap; [exact Hsw|lia|lia]).
    destruct (swapped_keys _ _ _ _ Hsw) as (K1 & K2 & K3).
    assert (L : len data' = len data) by apply R.
    eapply returns_weaken.
    + apply (IH data' (b1 + 1) (c1 - 1)); try lia.
      * rewrite K3 by lia. exact Hp.
      * intros k Hk. destruct (Z.eq_dec k b1) as [->|Hkb].
        -- rewrite K1. apply C4. lia.
        -- rewrite K3 by lia. apply HL1. lia.
      * intros k Hk. destruct (Z.eq_dec k (c1 - 1)) as [->|Hkc].
        -- rewrite K2. assert (p < key_at key data b1) by (apply B4; lia). lia.
        -- rewrite K3 by lia. apply HR1. lia.
    + intros [[data'' b''] c''] (R' & H1 & H2 & H3).
      split; [|auto]. eapply rearranged_trans; eassumption.
Qed.

(** The loop against duplicates widens the run of pivot keys that ends at
    [c]. *)
Lemma doPivot_protect_parts (fuel : nat) (data : list A) (lo hi a b c p : Z) :
  0 <= lo -> hi <= len data -> lo < a -> lo < b <= c -> c <= hi ->
  (Z.to_nat (b - a) < fuel)%nat ->
  partitioned key data lo b c hi p ->
  returns (fun '(data', b') =>
             rearranged key (lo + 1) hi data data' /\
             lo < b' <= c /\ partitioned key data' lo b' c hi p)
          (doPivot_protect Less fuel data lo a b).
Proof.
  revert data a b.
  induction fuel as [|fuel IH]; intros data a b Hlo Hhi Ha Hb Hc Hf HP; [lia|].
  destruct HP as (Hp & HL & HM & HR).
  cbn [doPivot_protect].
  eapply returns_bind; [apply doPivot_skip_ge_stops; lia|].
  cbn beta. intros b1 (B1 & B2 & B3 & B4). rewrite Hp in B3, B4.
  eapply returns_bind; [apply doPivot_skip_less_stops; lia|].
  cbn beta. intros a1 (A1 & A2 & A3 & A4). rewrite Hp in A3, A4.
  assert (Hb1 : lo < b1) by lia.
  assert (HM1 : forall k, b1 <= k < c -> key_at key data k = p).
  { intros k Hk. destruct (Z_lt_dec k b) as [H|H]; [|apply HM; lia].
    assert (p <= key_at key data k) by (apply B3; lia).
    assert (key_at key data k <= p) by (apply HL; lia). lia. }
  assert (HL1 : forall k, lo < k < b1 -> key_at key data k <= p).
  { intros k Hk. apply HL. lia. }
  destruct (Z.leb_spec b1 a1) as [Hle|Hgt].
  - cbn [returns]. split; [apply rearranged_refl|]. split; [lia|].
    split; [exact Hp|]. split; [exact HL1|]. split; [exact HM1|exact HR].
  - destruct (Swap_ok data a1 (b1 - 1)) as (data' & -> & Hsw); [lia|lia|].
    cbn [bind].
    assert (R : rearranged key (lo + 1) hi data data')
      by (eapply rearranged_swap; [exact Hsw|lia|lia]).
    destruct (swapped_keys _ _ _ _ Hsw) as (K1 & K2 & K3).
    assert (L : len data' = len data) by apply R.
    assert (Ea : key_at key data a1 = p).
    { assert (p <= key_at key data a1) by (apply A4; lia).
      assert (key_at key data a1 <= p) by (apply HL; lia). lia. }
    eapply returns_weaken.
    + apply (IH data' (a1 + 1) (b1 - 1)); try lia.
      split; [|split; [|split]].
      * rewrite K3 by lia. exact Hp.
      * intros k Hk. destruct (Z.eq_dec k a1) as [->|Hka].
        -- rewrite K1. apply HL1. lia.
        -- rewrite K3 by lia. apply HL1. lia.
      * intros k Hk. destruct (Z.eq_dec k (b1 - 1)) as [->|Hkb].
        -- rewrite K2. exact Ea.
        -- destruct (Z.eq_dec k a1) as [->|Hka]; [lia|].
           rewrite K3 by lia. apply HM1. lia.
      * intros k Hk. rewrite K3 by lia. apply HR. lia.
    + intros [data'' b''] (R' & H1 & H2).
      split; [|split; [lia|exact H2]]. eapply rearranged_trans; eassumption.
Qed.

(** ** [doPivot_func] *)

Lemma quot_bounds (x d : Z) :
  0 <= x -> 0 < d -> d * Z.quot x d <= x < d * Z.quot x d + d.
Proof.
  intros Hx Hd. rewrite Z.quot_div_nonneg by lia.
  pose proof (Z.div_mod x d ltac:(lia)) as E.
  pose proof (Z.mod_pos_bound x d Hd). lia.
Qed.

Lemma mid_bounds (lo hi : Z) :
  2 * Z.shiftr (lo + hi) 1 <= lo + hi < 2 * Z.shiftr (lo + hi) 1 + 2.
Proof.
  rewrite Z.shiftr_div_pow2 by lia. change (2 ^ 1) with 2.
  pose proof (Z.div_mod (lo + hi) 2 ltac:(lia)) as E.
  pose proof (Z.mod_pos_bound (lo + hi) 2 ltac:(lia)). lia.
Qed.

Lemma doPivot_pivot_chooses (data : list A) (lo hi m : Z) :
  0 <= lo -> hi <= len data -> 3 <= hi - lo ->
  2 * m <= lo + hi < 2 * m + 2 ->
  returns (fun data' => rearranged key lo hi data data' /\
                        key_at key data' lo <= key_at key data' (hi - 1))
          (doPivot_pivot Less data lo hi m).
Proof.
  intros Hlo Hhi Hn Hm. unfold doPivot_pivot.
  apply returns_bind with (P := rearranged key lo hi data).
  - destruct (Z.ltb_spec 40 (hi - lo)) as [Hbig|_];
      [|cbn [returns]; apply rearranged_refl].
    pose proof (quot_bounds (hi - lo) 8 ltac:(lia) ltac:(lia)) as Hs.
    set (s := Z.quot (hi - lo) 8) in *.
    eapply returns_bind;
      [apply (medianOfThree_func_orders data lo hi); lia|].
    cbn beta. intros d1 [R1 _]. assert (L1 : len d1 = len data) by apply R1.
    eapply returns_bind;
      [apply (medianOfThree_func_orders d1 lo hi); lia|].
    cbn beta. intros d2 [R2 _]. assert (L2 : len d2 = len d1) by apply R2.
    eapply returns_weaken;
      [apply (medianOfThree_func_orders d2 lo hi); lia|].
    cbn beta. intros d3 [R3 _].
    eapply rearranged_trans; [exact R1|].
    eapply rearranged_trans; eassumption.
  - intros d1 R1. assert (L1 : len d1 = len data) by apply R1.
    eapply returns_weaken;
      [apply (medianOfThree_func_orders d1 lo hi); lia|].
    cbn beta. intros d2 [R2 O]. split.
    + eapply rearranged_trans; eassumption.
    + specialize (O ltac:(lia) ltac:(lia) ltac:(lia)). lia.
Qed.

Lemma doPivot_dups_parts (data : list A) (lo hi m b p : Z) (protect : bool) :
  0 <= lo -> hi <= len data -> 12 < hi - lo ->
  2 * m <= lo + hi < 2 * m + 2 ->
  lo < b <= hi - 1 ->
  partitioned key data lo b b hi p ->
  protect = (hi - b <? 5) ->
  returns (fun '(data', b', c', protect') =>
             rearranged key (lo + 1) hi data data' /\
             lo < b' <= c' /\ c' <= hi /\ partitioned key data' lo b' c' hi p)
          (doPivot_dups Less data lo lo hi m b b protect).
Proof.
  intros Hlo Hhi Hn Hm Hb HP ->. unfold doPivot_dups.
  destruct (Z.ltb_spec (hi - b) 5) as [Hprot|Hprot]; cbn [negb andb].
  { cbn [returns]. split; [apply rearranged_refl|]. split; [lia|].
    split; [lia|exact HP]. }
  destruct (Z.ltb_spec (hi - b) (Z.quot (hi - lo) 4)) as [Hfew|Hfew].
  2:{ cbn [returns]. split; [apply rearranged_refl|]. split; [lia|].
      split; [lia|exact HP]. }
  pose proof (quot_bounds (hi - lo) 4 ltac:(lia) ltac:(lia)) as Hq.
  set (q := Z.quot (hi - lo) 4) in *.
  rewrite Less_ok by lia. cbn [bind].
  assert (Step1 : exists d1 c1 dups1,
            (if negb (key_at key data lo <? key_at key data (hi - 1))
             then d <- Swap data b (hi - 1) ;; Ok (d, b + 1, 0 + 1)
             else Ok (data, b, 0)) = Ok (d1, c1, dups1) /\
            rearranged key (lo + 1) hi data d1 /\ b <= c1 <= b + 1 /\
            partitioned key d1 lo b c1 hi p).
  { destruct HP as (Hp & HL & HM & HR).
    destruct (Z.ltb_spec (key_at key data lo) (key_at key data (hi - 1))) as [Hk|Hk];
      cbn [negb].
    - exists data, b, 0. split; [reflexivity|].
      split; [apply rearranged_refl|]. split; [lia|].
      split; [exact Hp|]. split; [exact HL|]. split; [exact HM|exact HR].
    - destruct (Swap_ok data b (hi - 1)) as (d1 & -> & Hsw); [lia|lia|].
      cbn [bind]. exists d1, (b + 1), (0 + 1). split; [reflexivity|].
      split; [eapply rearranged_swap; [exact Hsw|lia|lia]|]. split; [lia|].
      destruct (swapped_keys _ _ _ _ Hsw) as (K1 & K2 & K3).
      assert (E : key_at key data (hi - 1) = p).
      { assert (p <= key_at key data (hi - 1)) by (apply HR; lia). lia. }
      split; [|split; [|split]].
      + rewrite K3 by lia. exact Hp.
      + intros k Hk'. rewrite K3 by lia. apply HL. lia.
      + intros k Hk'. replace k with b by lia. rewrite K1. exact E.
      + intros k Hk'. destruct (Z.eq_dec k (hi - 1)) as [->|Hne].
        * rewrite K2. apply HR. lia.
        * rewrite K3 by lia. apply HR. lia. }
  destruct Step1 as (d1 & c1 & dups1 & -> & R1 & Hc1 & HP1). cbn [bind].
  assert (L1 : len d1 = len data) by apply R1.
  rewrite Less_ok by lia. cbn [bind].
  assert (Step2 : exists b2 dups2,
            (if negb (key_at key d1 (b - 1) <? key_at key d1 lo)
             then (b - 1, dups1 + 1) else (b, dups1)) = (b2, dups2) /\
            b - 1 <= b2 <= b /\ partitioned key d1 lo b2 c1 hi p).
  { destruct HP1 as (Hp & HL & HM & HR).
    destruct (Z.ltb_spec (key_at key d1 (b - 1)) (key_at key d1 lo)) as [Hk|Hk];
      cbn [negb].
    - exists b, dups1. split; [reflexivity|]. split; [lia|].
      split; [exact Hp|]. split; [exact HL|]. split; [exact HM|exact HR].
    - exists (b - 1), (dups1 + 1). split; [reflexivity|]. split; [lia|].
      split; [exact Hp|]. split; [|split; [|exact HR]].
      + intros k Hk'. apply HL. lia.
      + intros k Hk'. destruct (Z.eq_dec k (b - 1)) as [->|Hne];
          [|apply HM; lia].
        assert (key_at key d1 (b - 1) <= p) by (apply HL; lia). lia. }
  destruct Step2 as (b2 & dups2 & -> & Hb2 & HP2).
  rewrite Less_ok by lia. cbn [bind].
  destruct HP2 as (Hp & HL & HM & HR).
  destruct (Z.ltb_spec (key_at key d1 m) (key_at key d1 lo)) as [Hk|Hk]; cbn [negb].
  - cbn [bind returns]. split; [exact R1|]. split; [lia|]. split; [lia|].
    split; [exact Hp|]. split; [exact HL|]. split; [exact HM|exact HR].
  - destruct (Swap_ok d1 m (b2 - 1)) as (d3 & -> & Hsw); [lia|lia|].
    cbn [bind returns].
    assert (R3 : rearranged key (lo + 1) hi d1 d3)
      by (eapply rearranged_swap; [exact Hsw|lia|lia]).
    split; [eapply rearranged_trans; eassumption|]. split; [lia|].
    split; [lia|].
    destruct (swapped_keys _ _ _ _ Hsw) as (K1 & K2 & K3).
    assert (E : key_at key d1 m = p).
    { assert (key_at key d1 m <= p) by (apply HL; lia). lia. }
    split; [|split; [|split]].
    + rewrite K3 by lia. exact Hp.
    + intros k Hk'. destruct (Z.eq_dec k m) as [->|Hne].
      * rewrite K1. apply HL. lia.
      * rewrite K3 by lia. apply HL. lia.
    + intros k Hk'. destruct (Z.eq_dec k (b2 - 1)) as [->|Hne].
      * rewrite K2. exact E.
      * rewrite K3 by lia. apply HM. lia.
    + intros k Hk'. rewrite K3 by lia. apply HR. lia.
Qed.

(** [doPivot_func] returns [lo <= midlo < midhi <= hi] with the pivot key
    on [midlo <= k < midhi], no more than it below and no less above. *)
Lemma doPivot_func_partitions (data : list A) (lo hi : Z) :
  0 <= lo -> hi <= len data -> 12 < hi - lo ->
  returns (fun '(data', midlo, midhi) =>
             rearranged key lo hi data data' /\
             lo <= midlo < midhi /\ midhi <= hi /\
             exists p,
               (forall k, lo <= k < midlo -> key_at key data' k <= p) /\
               (forall k, midlo <= k < midhi -> key_at key data' k = p) /\
               (forall k, midhi <= k < hi -> p <= key_at key data' k))
          (doPivot_func Less data lo hi).
Proof.
  intros Hlo Hhi Hn. unfold doPivot_func.
  pose proof (mid_bounds lo hi) as Hm.
  set (m := Z.shiftr (lo + hi) 1) in *.
  eapply returns_bind; [apply doPivot_pivot_chooses; lia|].
  cbn beta. intros d1 [R1 O1]. assert (L1 : len d1 = len data) by apply R1.
  eapply returns_bind; [apply doPivot_skip_less_stops; lia|].
  cbn beta. intros a (A1 & A2 & A3 & _).
  set (p := key_at key d1 lo) in *.
  eapply returns_bind.
  { apply (doPivot_partition_parts _ d1 lo hi a (hi - 1) p); try lia.
    - intros k Hk. assert (key_at key d1 k < p) by (apply A3; lia). lia.
    - intros k Hk. replace k with (hi - 1) by lia. exact O1. }
  cbn beta. intros [[d2 b] c] (R2 & Hb & HP2 & ->).
  assert (L2 : len d2 = len d1) by apply R2.
  eapply returns_bind; [apply (doPivot_dups_parts d2 lo hi m b p); try lia; auto|].
  cbn beta. intros [[[d3 b3] c3] protect] (R3 & Hb3 & Hc3 & HP3).
  assert (L3 : len d3 = len d2) by apply R3.
  apply returns_bind with
    (P := fun '(d4, b4) => rearranged key (lo + 1) hi d3 d4 /\
                           lo < b4 <= c3 /\ partitioned key d4 lo b4 c3 hi p).
  { destruct protect.
    - apply (doPivot_protect_parts _ d3 lo hi a b3 c3 p); try lia. exact HP3.
    - cbn [returns]. split; [apply rearranged_refl|]. split; [lia|exact HP3]. }
  intros [d4 b4] (R4 & Hb4 & Hp & HL & HM & HR).
  assert (L4 : len d4 = len d3) by apply R4.
  destruct (Swap_ok d4 lo (b4 - 1)) as (d5 & -> & Hsw); [lia|lia|].
  cbn [bind returns].
  assert (R5 : rearranged key lo hi d4 d5)
    by (eapply rearranged_swap; [exact Hsw|lia|lia]).
  split.
  { eapply rearranged_trans; [exact R1|].
    eapply rearranged_trans;
      [eapply rearranged_mono; [| |exact R2]; lia|].
    eapply rearranged_trans;
      [eapply rearranged_mono; [| |exact R3]; lia|].
    eapply rearranged_trans;
      [eapply rearranged_mono; [| |exact R4]; lia|].
    exact R5. }
  split; [lia|]. split; [lia|]. exists p.
  destruct (swapped_keys _ _ _ _ Hsw) as (K1 & K2 & K3).
  split; [|split].
  - intros k Hk. destruct (Z.eq_dec k lo) as [->|Hne].
    + rewrite K1. destruct (Z.eq_dec (b4 - 1) lo) as [E|E];
        [rewrite E; lia|apply HL; lia].
    + rewrite K3 by lia. apply HL. lia.
  - intros k Hk. destruct (Z.eq_dec k (b4 - 1)) as [->|Hne].
    + rewrite K2. exact Hp.
    + rewrite K3 by lia. apply HM. lia.
  - intros k Hk. rewrite K3 by lia. apply HR. lia.
Qed.

(** ** [heapSort_func] *)

(** [siftDown_func] restores the heap when only [root] may be less than
    its children. *)
Lemma siftDown_loop_heap (fuel : nat) (data : list A) (hi first lo root : Z) :
  0 <= first -> first + hi <= len data -> 0 <= lo <= root ->
  (Z.to_nat (hi - root) < fuel)%nat ->
  (forall i, lo <= i < hi -> i <> root -> heap_at key data first hi i) ->
  (forall i c, lo <= i -> root = 2 * i + 1 \/ root = 2 * i + 2 ->
     c = 2 * root + 1 \/ c = 2 * root + 2 -> c < hi ->
     key_at key data (first + c) <= key_at key data (first + i)) ->
  returns (fun data' =>
             rearranged key (first + root) (first + hi) data data' /\
             forall i, lo <= i < hi -> heap_at key data' first hi i)
          (siftDown_loop Less fuel data hi first root).
Proof.
  revert data root.
  induction fuel as [|fuel IH]; intros data root Hfirst Hlen Hr Hf H1 H2; [lia|].
  cbn [siftDown_loop]. cbv zeta.
  set (child := 2 * root + 1).
  destruct (Z.leb_spec hi child) as [Hle|Hgt].
  { cbn [returns]. split; [apply rearranged_refl|].
    intros i Hi. destruct (Z.eq_dec i root) as [->|Hne]; [|apply H1; assumption].
    intros c Hc Hch. lia. }
  assert (Hright : exists r,
            (child + 1 <? hi) &&> Less data (first + child) (first + child + 1)
            = Ok r /\
            (r = true -> child + 1 < hi) /\
            forall c, c = child \/ c = child + 1 -> c < hi ->
              key_at key data (first + c) <=
              key_at key data (first + (if r then child + 1 else child))).
  { destruct (Z.ltb_spec (child + 1) hi) as [H|H]; cbn [and_then].
    - rewrite Less_ok by lia. eexists. split; [reflexivity|].
      split; [intros _; exact H|].
      replace (first + child + 1) with (first + (child + 1)) by lia.
      intros c [->| ->] _;
        destruct (Z.ltb_spec (key_at key data (first + child))
                             (key_at key data (first + (child + 1))));
        cbv iota; lia.
    - exists false. split; [reflexivity|]. split; [discriminate|].
      intros c [->| ->] Hc; lia. }
  destruct Hright as (r & -> & Hr1 & Hmax). cbn [bind].
  assert (Hch : child <= (if r then child + 1 else child) <= child + 1 /\
                ((if r then child + 1 else child) < hi)).
  { destruct r; [|lia]. specialize (Hr1 eq_refl). lia. }
  set (ch := if r then child + 1 else child) in *.
  destruct Hch as [Hch1 Hch2].
  rewrite Less_ok by lia. cbn [bind].
  destruct (Z.ltb_spec (key_at key data (first + root)) (key_at key data (first + ch)))
    as [Hlt|Hge]; cbn [negb].
  2:{ cbn [returns]. split; [apply rearranged_refl|].
      intros i Hi. destruct (Z.eq_dec i root) as [->|Hne]; [|apply H1; assumption].
      intros c Hc Hc'. apply Z.le_trans with (key_at key data (first + ch)); [|lia].
      apply Hmax; [subst child; lia|lia]. }
  destruct (Swap_ok data (first + root) (first + ch)) as (data' & -> & Hsw);
    [lia|lia|].
  cbn [bind].
  assert (R : rearranged key (first + root) (first + hi) data data')
    by (eapply rearranged_swap; [exact Hsw|lia|lia]).
  destruct (swapped_keys _ _ _ _ Hsw) as (K1 & K2 & K3).
  assert (L : len data' = len data) by apply R.
  eapply returns_weaken.
  - apply (IH data' ch); try lia.
    + intros i Hi Hne c Hc Hc'.
      destruct (Z.eq_dec i root) as [->|Hir].
      * rewrite K1. destruct (Z.eq_dec c ch) as [->|Hcc].
        -- rewrite K2. lia.
        -- rewrite K3 by lia. apply Hmax; [subst child; lia|lia].
      * rewrite (K3 (first + i)) by lia.
        destruct (Z.eq_dec c root) as [->|Hcr].
        -- rewrite K1. apply (H2 i ch); subst child; lia.
        -- rewrite K3 by (subst child; lia). apply (H1 i); assumption.
    + intros i c Hi Hpar Hc Hc'.
      assert (i = root) by (subst child; lia). subst i.
      rewrite K1, K3 by (subst child; lia).
      apply (H1 ch); [lia|subst child; lia|exact Hc|exact Hc'].
  - cbn beta. intros data'' [R' H']. split; [|exact H'].
    eapply rearranged_trans; [exact R|].
    eapply rearranged_mono; [| |exact R']; lia.
Qed.

Lemma siftDown_func_heap (data : list A) (lo hi first : Z) :
  0 <= first -> first + hi <= len data -> 0 <= lo ->
  (forall i, lo < i < hi -> heap_at key data first hi i) ->
  returns (fun data' =>
             rearranged key (first + lo) (first + hi) data data' /\
             forall i, lo <= i < hi -> heap_at key data' first hi i)
          (siftDown_func Less data lo hi first).
Proof.
  intros Hfirst Hlen Hlo H. unfold siftDown_func.
  apply (siftDown_loop_heap _ data hi first lo lo); try lia.
  intros i Hi Hne. apply H. lia.
Qed.

Lemma heapSort_build_heap (fuel : nat) (data : list A) (hi first i : Z) :
  0 <= first -> first + hi <= len data -> -1 <= i ->
  (Z.to_nat (i + 1) < fuel)%nat ->
  (forall j, i < j < hi -> heap_at key data first hi j) ->
  returns (fun data' =>
             rearranged key first (first + hi) data data' /\
             forall j, 0 <= j < hi -> heap_at key data' first hi j)
          (heapSort_build Less fuel data hi first i).
Proof.
  revert data i.
  induction fuel as [|fuel IH]; intros data i Hfirst Hlen Hi Hf H; [lia|].
  cbn [heapSort_build].
  destruct (Z.leb_spec 0 i) as [Hpos|Hneg].
  - eapply returns_bind; [apply siftDown_func_heap; try lia; exact H|].
    cbn beta. intros data' [R H'].
    assert (L : len data' = len data) by apply R.
    eapply returns_weaken.
    + apply (IH data' (i - 1)); try lia.
      intros j Hj. apply H'. lia.
    + cbn beta. intros data'' [R' H'']. split; [|exact H''].
      eapply rearranged_trans; [|exact R'].
      eapply rearranged_mono; [| |exact R]; lia.
  - cbn [returns]. split; [apply rearranged_refl|].
    intros j Hj. apply H. lia.
Qed.

(** The root of a heap is its greatest element. *)
Lemma heap_root_greatest (data : list A) (first hi : Z) :
  (forall j, 0 <= j < hi -> heap_at key data first hi j) ->
  forall j, 0 <= j < hi -> key_at key data (first + j) <= key_at key data (first + 0).
Proof.
  intros H.
  assert (G : forall n : nat, forall j, 0 <= j <= Z.of_nat n -> j < hi ->
                key_at key data (first + j) <= key_at key data (first + 0)).
  { induction n as [|n IHn]; intros j Hj Hhi.
    - replace j with 0 by lia. lia.
    - destruct (Z.eq_dec j 0) as [->|Hne]; [lia|].
      pose proof (Z.div_mod (j - 1) 2 ltac:(lia)) as E.
      pose proof (Z.mod_pos_bound (j - 1) 2 ltac:(lia)) as Hm.
      set (i := (j - 1) / 2) in *.
      apply Z.le_trans with (key_at key data (first + i)).
      + apply (H i); lia.
      + apply IHn; lia. }
  intros j Hj. apply (G (Z.to_nat j)); lia.
Qed.

Lemma heapSort_pop_sorts (fuel : nat) (data : list A) (first hi i : Z) :
  0 <= first -> first + hi <= len data -> -1 <= i < hi ->
  (Z.to_nat (i + 1) < fuel)%nat ->
  (forall j, 0 <= j < i + 1 -> heap_at key data first (i + 1) j) ->
  sorted_range key (first + i + 1) (first + hi) data ->
  (forall j k, 0 <= j < i + 1 -> i + 1 <= k < hi ->
     key_at key data (first + j) <= key_at key data (first + k)) ->
  returns (fun data' =>
             rearranged key first (first + hi) data data' /\
             sorted_range key first (first + hi) data')
          (heapSort_pop Less fuel data 0 first i).
Proof.
  revert data i.
  induction fuel as [|fuel IH]; intros data i Hfirst Hlen Hi Hf I1 I2 I3; [lia|].
  cbn [heapSort_pop].
  destruct (Z.leb_spec 0 i) as [Hpos|Hneg].
  2:{ cbn [returns]. split; [apply rearranged_refl|].
      replace (first + i + 1) with first in I2 by lia. exact I2. }
  destruct (Swap_ok data first (first + i)) as (d1 & -> & Hsw); [lia|lia|].
  cbn [bind].
  assert (R1 : rearranged key first (first + hi) data d1)
    by (eapply rearranged_swap; [exact Hsw|lia|lia]).
  destruct (swapped_keys _ _ _ _ Hsw) as (K1 & K2 & K3).
  assert (L1 : len d1 = len data) by apply R1.
  pose proof (heap_root_greatest data first (i + 1) I1) as Hmax.
  replace (first + 0) with first in Hmax by lia.
  assert (Hd1 : forall j, 0 <= j < i ->
                  key_at key d1 (first + j) <= key_at key data first).
  { intros j Hj. destruct (Z.eq_dec j 0) as [->|Hne].
    - replace (first + 0) with first by lia. rewrite K1. apply Hmax. lia.
    - rewrite K3 by lia. apply Hmax. lia. }
  eapply returns_bind.
  { apply (siftDown_func_heap d1 0 i first); try lia.
    intros j Hj c Hc Hc'. rewrite !K3 by lia. apply (I1 j); lia. }
  cbn beta. intros d2 [R2 H2].
  replace (first + 0) with first in R2 by lia.
  assert (L2 : len d2 = len d1) by apply R2.
  destruct R2 as (_ & P2 & O2 & B2).
  assert (R2 : rearranged key first (first + i) d1 d2)
    by (split; [exact L2|split; [exact P2|split; [exact O2|exact B2]]]).
  eapply returns_weaken.
  - apply (IH d2 (i - 1)); try lia.
    + intros j Hj. replace (i - 1 + 1) with i by lia. apply H2. lia.
    + replace (first + (i - 1) + 1) with (first + i) by lia.
      intros x y Hx Hxy Hy. rewrite !O2 by lia.
      destruct (Z.eq_dec x (first + i)) as [->|Hxi].
      * rewrite K2. destruct (Z.eq_dec y (first + i)) as [->|Hyi].
        -- rewrite K2. lia.
        -- rewrite K3 by lia.
           replace first with (first + 0) at 1 by lia.
           replace y with (first + (y - first)) by lia. apply I3; lia.
      * rewrite !K3 by lia. apply I2; lia.
    + intros j k Hj Hk. replace (i - 1 + 1) with i in * by lia.
      rewrite (O2 (first + k)) by lia.
      apply (B2 (fun x => x <= key_at key d1 (first + k))); [|lia].
      intros x Hx. replace x with (first + (x - first)) by lia.
      destruct (Z.eq_dec k i) as [->|Hki].
      * rewrite K2. apply Hd1. lia.
      * rewrite (K3 (first + k)) by lia.
        destruct (Z.eq_dec (x - first) 0) as [E|E].
        -- rewrite E. replace (first + 0) with first by lia. rewrite K1.
           apply I3; lia.
        -- rewrite K3 by lia. apply I3; lia.
  - cbn beta. intros d3 [R3 S3]. split; [|exact S3].
    eapply rearranged_trans; [exact R1|].
    eapply rearranged_trans; [|exact R3].
    eapply rearranged_mono; [| |exact R2]; lia.
Qed.

(** [heapSort_func] returns, and sorts [a <= k < b]. *)
Lemma heapSort_func_sorts (data : list A) (a b : Z) :
  0 <= a -> a < b -> b <= len data ->
  returns (fun data' => rearranged key a b data data' /\ sorted_range key a b data')
          (heapSort_func Less data a b).
Proof.
  intros Ha Hab Hb. unfold heapSort_func. cbv zeta.
  pose proof (quot_bounds (b - a - 1) 2 ltac:(lia) ltac:(lia)) as Hq.
  set (i := Z.quot (b - a - 1) 2) in *.
  eapply returns_bind.
  { apply (heapSort_build_heap _ data (b - a) a i); try lia.
    intros j Hj c Hc Hc'. lia. }
  cbn beta. intros d1 [R1 H1].
  assert (L1 : len d1 = len data) by apply R1.
  replace (a + (b - a)) with b in R1 by lia.
  eapply returns_weaken.
  - apply (heapSort_pop_sorts _ d1 a (b - a) (b - a - 1)); try lia.
    + replace (b - a - 1 + 1) with (b - a) by lia. exact H1.
    + intros x y Hx Hxy Hy. lia.
  - cbn beta. replace (a + (b - a)) with b by lia. intros d2 [R2 S2].
    split; [|exact S2]. eapply rearranged_trans; eassumption.
Qed.

(** ** [quickSort_func] and [sort.Slice] *)

Lemma sorted_range_parts (data : list A) (a mlo mhi b p : Z) :
  sorted_range key a mlo data -> sorted_range key mhi b data ->
  (forall k, a <= k < mlo -> key_at key data k <= p) ->
  (forall k, mlo <= k < mhi -> key_at key data k = p) ->
  (forall k, mhi <= k < b -> p <= key_at key data k) ->
  sorted_range key a b data.
Proof.
  intros S1 S2 HL HM HR i j Hi Hij Hj.
  destruct (Z_lt_dec j mlo) as [J1|J1]; [apply S1; lia|].
  destruct (Z_le_dec mhi i) as [I1|I1]; [apply S2; lia|].
  assert (key_at key data i <= p).
  { destruct (Z_lt_dec i mlo); [apply HL; lia|]. rewrite HM by lia. lia. }
  assert (p <= key_at key data j).
  { destruct (Z_le_dec mhi j); [apply HR; lia|]. rewrite HM by lia. lia. }
  lia.
Qed.

Lemma sorted_range_unchanged (data data' : list A) (a b : Z) :
  (forall k, a <= k < b -> key_at key data' k = key_at key data k) ->
  sorted_range key a b data -> sorted_range key a b data'.
Proof.
  intros E S i j Hi Hij Hj. rewrite !E by lia. apply S; lia.
Qed.

(** Sorting both sides of a partition, in either order, sorts the range. *)
Lemma sorted_sides (d1 d2 d3 : list A) (a mlo mhi b p : Z)
    (x1 y1 x2 y2 : Z) :
  a <= mlo < mhi -> mhi <= b ->
  (x1 = a /\ y1 = mlo /\ x2 = mhi /\ y2 = b) \/
  (x1 = mhi /\ y1 = b /\ x2 = a /\ y2 = mlo) ->
  (forall k, a <= k < mlo -> key_at key d1 k <= p) ->
  (forall k, mlo <= k < mhi -> key_at key d1 k = p) ->
  (forall k, mhi <= k < b -> p <= key_at key d1 k) ->
  rearranged key x1 y1 d1 d2 -> sorted_range key x1 y1 d2 ->
  rearranged key x2 y2 d2 d3 -> sorted_range key x2 y2 d3 ->
  rearranged key a b d1 d3 /\ sorted_range key a b d3.
Proof.
  intros Hm Hb Hxy HL HM HR R1 S1 R2 S2. split.
  - eapply rearranged_trans; [eapply rearranged_mono; [| |exact R1]; lia|].
    eapply rearranged_mono; [| |exact R2]; lia.
  - destruct R1 as (_ & _ & O1 & B1). destruct R2 as (_ & _ & O2 & B2).
    destruct Hxy as [(-> & -> & -> & ->)|(-> & -> & -> & ->)].
    + apply (sorted_range_parts d3 a mlo mhi b p).
      * eapply sorted_range_unchanged; [|exact S1].
        intros k Hk. apply O2. lia.
      * exact S2.
      * intros k Hk. rewrite O2 by lia.
        apply (B1 (fun x => x <= p)); [exact HL|lia].
      * intros k Hk. rewrite O2, O1 by lia. apply HM. lia.
      * apply (B2 (fun x => p <= x)).
        intros k Hk. rewrite O1 by lia. apply HR. lia.
    + apply (sorted_range_parts d3 a mlo mhi b p).
      * exact S2.
      * eapply sorted_range_unchanged; [|exact S1].
        intros k Hk. apply O2. lia.
      * apply (B2 (fun x => x <= p)).
        intros k Hk. rewrite O1 by lia. apply HL. lia.
      * intros k Hk. rewrite O2, O1 by lia. apply HM. lia.
      * intros k Hk. rewrite O2 by lia.
        apply (B1 (fun x => p <= x)); [exact HR|lia].
Qed.

(** [quickSort_func] returns, and sorts [a <= k < b], whatever the depth
    limit. *)
Lemma quickSort_func_sorts (maxDepth : nat) (data : list A) (a b : Z) :
  0 <= a -> b <= len data ->
  returns (fun data' => rearranged key a b data data' /\ sorted_range key a b data')
          (quickSort_func Less maxDepth data a b).
Proof.
  revert data a b.
  assert (Small : forall data a b, 0 <= a -> b <= len data ->
            returns (fun data' => rearranged key a b data data' /\
                                  sorted_range key a b data')
              (if 1 <? b - a then
                 data <- quickSort_shell Less (S (Z.to_nat (b - a))) data b
                           (a + 6) ;;
                 insertionSort_func Less data a b
               else Ok data)).
  { intros data a b Ha Hb. destruct (Z.ltb_spec 1 (b - a)) as [H|H].
    - eapply returns_bind;
        [apply (quickSort_shell_rearranges _ data a b); lia|].
      cbn beta. intros d1 R1. assert (L1 : len d1 = len data) by apply R1.
      eapply returns_weaken; [apply insertionSort_func_sorts; lia|].
      cbn beta. intros d2 [R2 S2]. split; [|exact S2].
      eapply rearranged_trans; eassumption.
    - cbn [returns]. split; [apply rearranged_refl|].
      intros i j Hi Hij Hj. replace j with i by lia. lia. }
  induction maxDepth as [|maxDepth IH]; intros data a b Ha Hb;
    cbn [quickSort_func];
    (destruct (Z.ltb_spec 12 (b - a)) as [Hbig|Hsmall];
     [|apply Small; assumption]).
  - apply heapSort_func_sorts; lia.
  - eapply returns_bind; [apply doPivot_func_partitions; lia|].
    cbn beta. intros [[d1 mlo] mhi] (R1 & Hlo & Hhi & p & HL & HM & HR).
    assert (L1 : len d1 = len data) by apply R1.
    destruct (mlo - a <? b - mhi).
    + eapply returns_bind; [apply (IH d1 a mlo); lia|].
      cbn beta. intros d2 [R2 S2]. assert (L2 : len d2 = len d1) by apply R2.
      eapply returns_weaken; [apply (IH d2 mhi b); lia|].
      cbn beta. intros d3 [R3 S3].
      destruct (sorted_sides d1 d2 d3 a mlo mhi b p a mlo mhi b)
        as [R S]; auto; try lia.
      split; [|exact S]. eapply rearranged_trans; eassumption.
    + eapply returns_bind; [apply (IH d1 mhi b); lia|].
      cbn beta. intros d2 [R2 S2]. assert (L2 : len d2 = len d1) by apply R2.
      eapply returns_weaken; [apply (IH d2 a mlo); lia|].
      cbn beta. intros d3 [R3 S3].
      destruct (sorted_sides d1 d2 d3 a mlo mhi b p mhi b a mlo)
        as [R S]; auto; try lia.
      split; [|exact S]. eapply rearranged_trans; eassumption.
Qed.

(** [sort.Slice] returns a permutation of the slice with non-decreasing
    keys. *)
Lemma sort_Slice_sorts (x : list A) :
  returns (fun x' => Permutation x x' /\ sorted_range key 0 (len x) x')
          (sort_Slice Less x).
Proof.
  unfold sort_Slice. cbv zeta.
  eapply returns_weaken; [apply quickSort_func_sorts; lia|].
  cbn beta. intros x' [R S]. split; [apply R|exact S].
Qed.

End SortSliceFacts.


(** ** The specification, statement by statement *)

(** C1: the claim, that every scanning operation returns a defined result
    on every input, fails on the code.  [ResolveNumericReferences] reads
    [source[nnext]] before it compares [nnext] with the length, so a text
    that ends in [&#] (with no [&] before) makes it panic; and
    [FindAttributeIndiciesReverse] reads [b[as]] after its attribute loop
    has run [as] up to the length, so a text that ends in its first
    unescaped [{] makes it panic. *)
Theorem truncated_input_panics (pre : bytes) :
  (no_reference pre = true ->
   ResolveNumericReferences (pre ++ bytes_of "&#") = Panic)
  /\ (no_brace pre = true ->
      forall canEscapeQuotes : bool,
        FindAttributeIndiciesReverse (pre ++ bytes_of "{") canEscapeQuotes
        = Panic).
Proof.
  split.
  - intros Hplain.
    unfold ResolveNumericReferences, ResolveNumericReferences_cob.
    change (bytes_of "&#") with ["&"%byte; "#"%byte].
    pose proof (ResolveNumericReferences_loop_skip pre [] ["&"; "#"]%byte 3
                  (NewCopyOnWriteBuffer (pre ++ ["&"; "#"]%byte)) 0 Hplain) as H.
    cbn [app] in H. change (len []) with 0 in H. rewrite Z.add_0_l in H.
    replace (S (length (pre ++ ["&"; "#"]%byte))) with (length pre + 3)%nat
      by (rewrite length_app; simpl; lia).
    rewrite H. cbn [ResolveNumericReferences_loop].
    rewrite ltb_len_prefix, index_after. cbn [bind].
    change ("&" =? "&")%byte with true. cbv iota.
    replace (len pre + 1 <? len (pre ++ ["&"; "#"]%byte)) with true
      by (symmetry; apply Z.ltb_lt; len_simpl; lia).
    rewrite (app_cons_assoc pre "&"%byte).
    rewrite (index_after' (pre ++ ["&"%byte]) "#"%byte [])
      by (len_simpl; lia).
    cbn [and_then bind]. change ("#" =? "#")%byte with true. cbv iota.
    rewrite index_out_of_range by (len_simpl; lia).
    reflexivity.
  - intros Hplain canEscapeQuotes.
    unfold FindAttributeIndiciesReverse.
    change (bytes_of "{") with ["{"%byte].
    cbn [FindAttributeIndiciesReverse_retry].
    pose proof (find_open_brace_skip pre [] ["{"%byte] 2 Hplain) as H.
    cbn [app] in H. change (len []) with 0 in H. rewrite Z.add_0_l in H.
    replace (S (length (pre ++ ["{"%byte]))) with (length pre + 2)%nat
      by (rewrite length_app; simpl; lia).
    rewrite H. cbn [find_open_brace].
    rewrite ltb_len_prefix. unfold IsEscapedPunctuation.
    rewrite index_after. cbn [bind].
    change ("{" =? "\")%byte with false. cbn [and_then bind].
    change ("{" =? "{")%byte with true. cbv iota. cbn [bind].
    pose proof (len_nonneg pre) as Hpre.
    replace (len pre + 1 <? 0) with false by (symmetry; apply Z.ltb_ge; lia).
    replace (length pre + 2)%nat with (S (S (length pre))) by lia.
    cbn [read_attributes].
    replace (len pre + 1 <? len (pre ++ ["{"%byte])) with false
      by (symmetry; apply Z.ltb_ge; len_simpl; lia).
    cbn [bind].
    rewrite index_out_of_range by (len_simpl; lia).
    reflexivity.
Qed.

Lemma truncated_input_panics_witness :
  ResolveNumericReferences (bytes_of "a&#") = Panic
  /\ FindAttributeIndiciesReverse (bytes_of "a{") true = Panic.
Proof.
  destruct (truncated_input_panics (bytes_of "a")) as [H1 H2].
  split; [apply H1; reflexivity | apply H2; reflexivity].
Defined.

(** C2: the claim fails on the code.  On the window [`a)b`)] with code
    spans respected, [FindClosure] returns the not-found value -1 and not
    the offset 5 of the last [)]: the inner loop that counts the closing
    backticks stops on the byte after the run, and the [i++] at the end of
    the outer loop then steps over that byte unread.  With one more byte
    between the closing backtick and the [)] the closer is found. *)
Theorem FindClosure_skips_byte_after_backticks :
  FindClosure (bytes_of "`a)b`)") "(" ")" true false = Ok (-1)
  /\ FindClosure (bytes_of "`a)b`)") "(" ")" true true = Ok (-1)
  /\ FindClosure (bytes_of "`a)b` )") "(" ")" true false = Ok 6.
Proof. repeat split; vm_compute; reflexivity. Qed.

(** C3: the claim fails on the code.  The decimal branch of
    [ResolveNumericReferences] parses its digits with base 0, which reads
    a run with a leading zero as octal: [&#065;] becomes the byte [5]
    (octal 65 is 53), not [A], and [&#08;], no octal number, becomes
    U+FFFD.  Without a leading zero the run is decimal: [&#65;] is [A]. *)
Theorem ResolveNumericReferences_leading_zero_is_octal :
  ResolveNumericReferences (bytes_of "&#065;") = Ok (bytes_of "5")
  /\ ResolveNumericReferences (bytes_of "&#08;")
     = Ok (EncodeRune 0xFFFD)
  /\ ResolveNumericReferences (bytes_of "&#65;") = Ok (bytes_of "A").
Proof. repeat split; vm_compute; reflexivity. Qed.

(** C4: the claim fails on the code.  The test after the attribute loop
    is [IsBlank(b[as:])], and [b[as:]] starts with the [}] itself, which is
    no space: only a [}] in the last position is accepted.  [{#id}]
    followed by one space yields no record, [{#id}] yields one. *)
Theorem FindAttributeIndiciesReverse_rejects_trailing_space :
  FindAttributeIndiciesReverse (bytes_of "{#id} ") false = Ok []
  /\ FindAttributeIndiciesReverse (bytes_of "{#id} ") true = Ok []
  /\ FindAttributeIndiciesReverse (bytes_of "{#id}") false = Ok [(1, 2, 2, 4)].
Proof. repeat split; vm_compute; reflexivity. Qed.

(** C5: the claim fails on the code.  [FindURLIndex] rejects a scheme of
    more than 33 bytes ([i > 33]), not of more than 32 as its own comment
    ([[A-Za-z][A-Za-z0-9.+-]{1,31}:]) says: a scheme of 33 letters followed
    by [:x] is accepted, with stop index 35. *)
Theorem FindURLIndex_accepts_scheme_of_33 :
  FindURLIndex (repeat "a"%byte 33 ++ bytes_of ":x") = Ok 35
  /\ FindURLIndex (repeat "a"%byte 34 ++ bytes_of ":x") = Ok (-1).
Proof. split; vm_compute; reflexivity. Qed.

(** C6: the claim fails on the code.  [URLEscape] tests the byte after the
    [%] twice, [IsHexDecimal(v[i+1]) && IsHexDecimal(v[i+1])], and never
    the second one: [%4] followed by a space is stepped over as if it were
    a triplet and the space stays as it is, while a space elsewhere becomes
    [%20]. *)
Theorem URLEscape_keeps_percent_with_one_hex_digit
    (LookUpHTML5EntityByName : bytes -> option bytes) :
  URLEscape LookUpHTML5EntityByName (bytes_of "%4 ") false
  = Ok (bytes_of "%4 ")
  /\ URLEscape LookUpHTML5EntityByName (bytes_of "4 ") false
     = Ok (bytes_of "4%20").
Proof. split; vm_compute; reflexivity. Qed.

(** C7, as stated, fails on the code: for the token [#id] the name offsets
    are (0, 1), the sigil alone, and the value offsets are (1, 3), the
    identifier; the value does not mirror the name. *)
Lemma FindAttributeIndex_name_is_sigil_only :
  FindAttributeIndex (bytes_of "#id") false = Ok ((0, 1, 1, 3), 0)
  /\ ~ (exists n0 n1 : Z,
          FindAttributeIndex (bytes_of "#id") false = Ok ((n0, n1, n0, n1), 0)).
Proof.
  split; [vm_compute; reflexivity|].
  intros (n0 & n1 & H). vm_compute in H.
  injection H as H0 H1 H2 H3. subst. discriminate.
Qed.

(** C7, amended: for a token that starts, after leading spaces [ws], with
    the sigil [#] or [.] followed by a run of identifier bytes (no space,
    no punctuation but [_] and [-]) up to the end of the slice or a byte
    that is none, [FindAttributeIndex] returns the record whose name
    offsets cover the sigil byte alone and whose value offsets cover the
    run after it: name_start the offset of the sigil, name_end =
    value_start = name_start + 1, value_end the end of the run; the skip
    count is 0. *)
Theorem FindAttributeIndex_sigil_token
    (ws : bytes) (c : byte) (run rest : bytes) (canEscapeQuotes : bool) :
  forallb IsSpace ws = true ->
  c = "#"%byte \/ c = "."%byte ->
  forallb ident_char run = true ->
  stops ident_char rest = true ->
  FindAttributeIndex (ws ++ c :: run ++ rest) canEscapeQuotes
  = Ok ((len ws, len ws + 1, len ws + 1, len ws + 1 + len run), 0).
Proof.
  intros Hws Hc Hrun Hstop. unfold FindAttributeIndex.
  set (b := ws ++ c :: run ++ rest).
  assert (Hskip : skip_while (S (length b)) IsSpace b (len b) 0 = Ok (len ws)).
  { pose proof (skip_while_run IsSpace ws [] (c :: run ++ rest) (S (length b)))
      as H.
    cbn [app] in H. change (len []) with 0 in H. rewrite Z.add_0_l in H.
    apply H; [subst b; rewrite length_app; lia | assumption |].
    destruct Hc as [-> | ->]; reflexivity. }
  rewrite Hskip. cbn [bind].
  replace (len b <=? len ws) with false
    by (symmetry; apply Z.leb_gt; subst b; pose proof (len_nonneg (run ++ rest));
        len_simpl; lia).
  subst b. rewrite index_after. cbn [bind].
  replace ((c =? "#")%byte || (c =? ".")%byte) with true
    by (destruct Hc as [-> | ->]; reflexivity).
  pose proof (skip_while_run ident_char run (ws ++ [c]) rest
                (S (length (ws ++ c :: run ++ rest)))) as H.
  rewrite <- app_cons_assoc in H.
  replace (len (ws ++ [c])) with (len ws + 1) in H by (len_simpl; lia).
  rewrite H; [reflexivity | | assumption | assumption].
  rewrite length_app. simpl. rewrite length_app. lia.
Qed.

Lemma FindAttributeIndex_sigil_token_witness :
  FindAttributeIndex (bytes_of " .cls x") false = Ok ((1, 2, 2, 5), 0).
Proof.
  exact (FindAttributeIndex_sigil_token
           (bytes_of " ") "."%byte (bytes_of "cls") (bytes_of " x") false
           eq_refl (or_intror eq_refl) eq_refl eq_refl).
Defined.




(** C9, as stated, fails on the code: [Sort] is one call of [sort.Slice],
    which does not keep entries of equal priority in order.  On the seven
    entries below its pass of gap 6 finds the last entry, of priority 1,
    less than the first, of priority 2, and exchanges them across the
    second entry, of priority 2 as well; the insertion sort that follows
    moves no entry past one of its own priority, so ["b"] ends before
    ["a"]. *)
Lemma Sort_reorders_equal_priorities :
  let s := [Prioritized "a"%string 2; Prioritized "b"%string 2;
            Prioritized "c"%string 0; Prioritized "d"%string 0;
            Prioritized "e"%string 0; Prioritized "f"%string 0;
            Prioritized "g"%string 1] in
  let s' := [Prioritized "c"%string 0; Prioritized "d"%string 0;
             Prioritized "e"%string 0; Prioritized "f"%string 0;
             Prioritized "g"%string 1; Prioritized "b"%string 2;
             Prioritized "a"%string 2] in
  Sort s = Ok s' /\
  with_priority 2 s = [Prioritized "a"%string 2; Prioritized "b"%string 2] /\
  with_priority 2 s' = [Prioritized "b"%string 2; Prioritized "a"%string 2] /\
  ~ stable s s'.
Proof.
  cbv zeta. split; [vm_compute; reflexivity|].
  split; [reflexivity|]. split; [reflexivity|].
  intros H. specialize (H 2). vm_compute in H. discriminate H.
Qed.

(** C9, amended: for every slice [Sort] returns, and the slice it leaves
    holds the same entries, rearranged so that priorities are
    non-decreasing.  The order among entries of equal priority is left
    open. *)
Theorem Sort_ascending_rearrangement {V : Type} (s : PrioritizedSlice V) :
  exists s', Sort s = Ok s' /\ Permutation s s' /\ ascending s'.
Proof.
  pose proof (sort_Slice_sorts _ (@Priority V) less
                (fun data i j => eq_refl) s) as H.
  unfold Sort. destruct (sort_Slice less s) as [s'| |]; cbn [returns] in H;
    try contradiction.
  destruct H as [P S]. exists s'. split; [reflexivity|]. split; [exact P|].
  assert (K : forall n e, nth_error s' n = Some e ->
                key_at (@Priority V) s' (Z.of_nat n) = Priority e).
  { intros n e Hn. unfold key_at, index.
    assert ((n < length s')%nat)
      by (apply nth_error_Some; rewrite Hn; discriminate).
    replace (0 <=? Z.of_nat n) with true by (symmetry; apply Z.leb_le; lia).
    replace (Z.of_nat n <? len s') with true
      by (symmetry; apply Z.ltb_lt; unfold len; lia).
    cbn [andb]. rewrite Nat2Z.id, Hn. reflexivity. }
  intros i j x y Hij Hx Hy.
  assert (Hj : (j < length s')%nat)
    by (apply nth_error_Some; rewrite Hy; discriminate).
  assert (L : length s' = length s)
    by (symmetry; apply Permutation_length; exact P).
  rewrite <- (K i x Hx), <- (K j y Hy).
  apply S; unfold len; lia.
Qed.

(** C10, as stated, fails on the code: [Remove] compares with Go's [==]
    on [interface{}] values, which panics on two values of one
    uncomparable dynamic type.  No entry of the slice below holds a value
    equal to [v], and [Remove] panics instead of returning the slice. *)
Lemma Remove_panics_on_uncomparable_values :
  (forall e, In e [Prioritized (GoSlice [1]) 0] -> Value e <> GoSlice [2])
  /\ Remove go_equal [Prioritized (GoSlice [1]) 0] (GoSlice [2]) = Panic.
Proof.
  split; [|reflexivity].
  intros e [<- | []]. discriminate.
Qed.

(** C10, amended: with [==] the comparison that Go makes between the
    values.  [Remove] returns the slice unchanged when [==] is false for
    every entry.  When the slice splits as [l1 ++ x :: l2] with [==] false
    on the entries of [l1] and true on [x], [Remove] returns [l1 ++ l2]:
    that one entry is gone and the others keep their order.  When instead
    the comparison with [x] panics, so does [Remove]. *)
Theorem Remove_first_occurrence
    (V : Type) (Value_eq : V -> V -> result bool)
    (s : PrioritizedSlice V) (v : V) :
  ((forall e, In e s -> Value_eq (Value e) v = Ok false) ->
   Remove Value_eq s v = Ok s)
  /\ (forall l1 x l2,
        s = l1 ++ x :: l2 ->
        (forall e, In e l1 -> Value_eq (Value e) v = Ok false) ->
        (Value_eq (Value x) v = Ok true -> Remove Value_eq s v = Ok (l1 ++ l2))
        /\ (Value_eq (Value x) v = Panic -> Remove Value_eq s v = Panic)).
Proof.
  split.
  - apply Remove_absent.
  - intros l1 x l2 -> Hno. split; intros Hx.
    + apply Remove_first; assumption.
    + apply Remove_panic; assumption.
Qed.

Lemma Remove_first_occurrence_witness :
  Remove go_equal [Prioritized (GoInt 1) 5; Prioritized (GoString "a") 3]
    (GoInt 7)
  = Ok [Prioritized (GoInt 1) 5; Prioritized (GoString "a") 3]
  /\ Remove go_equal
       ([Prioritized (GoInt 1) 5; Prioritized (GoString "a") 3]
        ++ Prioritized (GoInt 7) 2 :: [Prioritized (GoInt 7) 9])
       (GoInt 7)
     = Ok ([Prioritized (GoInt 1) 5; Prioritized (GoString "a") 3]
           ++ [Prioritized (GoInt 7) 9]).
Proof.
  split.
  - apply (Remove_first_occurrence go_value go_equal
             [Prioritized (GoInt 1) 5; Prioritized (GoString "a") 3] (GoInt 7)).
    intros e [<- | [<- | []]]; reflexivity.
  - apply (proj2 (Remove_first_occurrence go_value go_equal
                    ([Prioritized (GoInt 1) 5; Prioritized (GoString "a") 3]
                     ++ Prioritized (GoInt 7) 2 :: [Prioritized (GoInt 7) 9])
                    (GoInt 7))
                 [Prioritized (GoInt 1) 5; Prioritized (GoString "a") 3]
                 (Prioritized (GoInt 7) 2) [Prioritized (GoInt 7) 9] eq_refl).
    + intros e [<- | [<- | []]]; reflexivity.
    + reflexivity.
Defined.
